(** * webflow-tables: table builder, extractor, CSV codec and tree preview

    A shallow embedding of [src/App.jsx] and [src/components/table-preview.tsx].

    JavaScript strings are modelled as [string]; every character the code
    inspects (quote, comma, line feed, carriage return, white space, the
    letters of the tags) is an ASCII character.  Arrays are lists, [Map]s
    keyed by strings are [gmap string _], an object reference is the index
    of the object in the array that owns it. *)

From Stdlib Require Import String Ascii List ZArith Lia Bool.
From stdpp Require Import base option list gmap strings sorting pretty.


(** ** Characters and string helpers *)

Definition dquote : ascii := "034"%char.
Definition comma : ascii := ","%char.
Definition LF : ascii := "010"%char.
Definition CR : ascii := "013"%char.

(** [s + ch] for a single character. *)
Definition snoc (s : string) (ch : ascii) : string := s +:+ String ch "".

(** [Array.prototype.join]. *)
Definition join (sep : string) (l : list string) : string := String.concat sep l.

(** [ch] occurs in [s]. *)
Definition occurs (ch : ascii) (s : string) : Prop := In ch (list_ascii_of_string s).

(** ** CSV codec ([parseCSV], [stringifyCSV]) *)

Module CSV.

(** The flush after the [while] loop of [parseCSV]. *)
Definition flush (rows : list (list string)) (row : list string) (field : string)
  : list (list string) :=
  let row' := row ++ [field] in
  if bool_decide (1 < length row') || bool_decide (row' !! 0%nat ≠ Some "")
  then rows ++ [row'] else rows.

(** The [while (i < input.length)] loop of [parseCSV]; [input] is the text
    from position [i] on.  The escaped quote consumes two characters. *)
Fixpoint parse_loop (input : string) (rows : list (list string)) (row : list string)
    (field : string) (inQuotes : bool) {struct input} : list (list string) :=
  match input with
  | EmptyString => flush rows row field
  | String ch rest =>
      if inQuotes then
        if Ascii.eqb ch dquote then
          match rest with
          | String ch2 rest2 =>
              if Ascii.eqb ch2 dquote
              then parse_loop rest2 rows row (snoc field dquote) true
              else parse_loop rest rows row field false
          | EmptyString => parse_loop rest rows row field false
          end
        else parse_loop rest rows row (snoc field ch) true
      else
        if Ascii.eqb ch dquote then parse_loop rest rows row field true
        else if Ascii.eqb ch comma then parse_loop rest rows (row ++ [field]) "" false
        else if Ascii.eqb ch LF then parse_loop rest (rows ++ [row ++ [field]]) [] "" false
        else if Ascii.eqb ch CR then parse_loop rest rows row field false
        else parse_loop rest rows row (snoc field ch) false
  end.

Definition parseCSV (input : string) : list (list string) :=
  parse_loop input [] [] "" false.

(** The test of the regular expression: a quote, a comma, a line feed or a
    carriage return. *)
Definition special (ch : ascii) : bool :=
  Ascii.eqb ch dquote || Ascii.eqb ch comma || Ascii.eqb ch LF || Ascii.eqb ch CR.

Definition needsQuote (cell : string) : bool :=
  existsb special (list_ascii_of_string cell).

(** The global [replace] of the cell: every quote is doubled. *)
Fixpoint escaped (cell : string) : string :=
  match cell with
  | EmptyString => EmptyString
  | String ch rest =>
      if Ascii.eqb ch dquote then String dquote (String dquote (escaped rest))
      else String ch (escaped rest)
  end.

(** The callback mapped over the cells of a row. *)
Definition stringifyCell (cell : string) : string :=
  if needsQuote cell then String dquote (snoc (escaped cell) dquote) else escaped cell.

Definition stringifyRow (r : list string) : string := join "," (map stringifyCell r).

Definition stringifyCSV (rows : list (list string)) : string :=
  join (String LF "") (map stringifyRow rows).

End CSV.

(** ** White space, [trim], [split(/\s+/)], [toLowerCase], [includes] *)

(** The white space of [\s] and of [trim] among the ASCII characters: the
    functions of this section are those of the program on ASCII text, and
    the properties that depend on them are stated for such text. *)
Definition is_space (ch : ascii) : bool := Ascii.is_space ch.

Fixpoint ltrim (s : string) : string :=
  match s with
  | EmptyString => EmptyString
  | String ch rest => if is_space ch then ltrim rest else s
  end.

Definition trim (s : string) : string := String.rev (ltrim (String.rev (ltrim s))).

(** [s.split(/\s+/)]: [cur] is the piece being read, [in_sep] tells that
    the previous character was white space.  The empty string splits into
    one empty piece. *)
Fixpoint split_go (cur : string) (in_sep : bool) (s : string) : list string :=
  match s with
  | EmptyString => [cur]
  | String ch rest =>
      if is_space ch
      then if in_sep then split_go cur true rest else cur :: split_go "" true rest
      else split_go (snoc cur ch) false rest
  end.

Definition split_ws (s : string) : list string := split_go "" false s.

(** [toLowerCase] on an ASCII character: the capitals are A to Z. *)
Definition lower (ch : ascii) : ascii :=
  let n := nat_of_ascii ch in
  if (65 <=? n)%nat && (n <=? 90)%nat then ascii_of_nat (n + 32) else ch.

Fixpoint toLowerCase (s : string) : string :=
  match s with
  | EmptyString => EmptyString
  | String ch rest => String (lower ch) (toLowerCase rest)
  end.

(** [s.includes(q)] *)
Fixpoint includes (s q : string) : bool :=
  String.prefix q s ||
  match s with
  | EmptyString => false
  | String _ rest => includes rest q
  end.

(** ** Nodes, styles and the envelope *)

Record attribute := { attr_name : string; attr_value : string }.

(** The [data] object of a DOM node. *)
Record node_data := {
  data_tag : option string;
  data_attributes : list attribute;
  data_slot : string;
  data_text : bool }.

(** A node object; a field that an object does not have is [None].
    [makeDomNode] sets [_id], [type], [tag], [classes], [children], [data];
    [makeTextNode] sets [_id], [text], [v]. *)
Record node := {
  _id : string;
  type : option string;
  tag : option string;
  classes : option (list string);
  children : option (list string);
  data : option node_data;
  text : option bool;
  v : option string }.

Module Style.
(** A style record; the constant fields ([fake], [type], [namespace],
    [comb], [children], [createdBy], [origin], [selector]) are left out. *)
Record t := {
  _id : string;
  name : string;
  styleLess : string;
  variants : list (string * string) }.
End Style.

(** The payload and the envelope; [assets], [ix1], [ix2] and [meta] are
    constants and left out. *)
Record Payload := {
  payload_nodes : option (list node);
  payload_styles : list Style.t }.

Record Envelope := { payload : option Payload }.

Definition children_of (n : node) : list string := default [] (children n).
Definition classes_of (n : node) : list string := default [] (classes n).

(** [n.data?.tag || n.tag || ""]: an empty string is falsy. *)
Definition truthy (o : option string) : option string :=
  match o with
  | Some s => if bool_decide (s = "") then None else Some s
  | None => None
  end.

Definition raw_tag (n : node) : string :=
  match truthy (data n ≫= data_tag) with
  | Some t => t
  | None => default "" (truthy (tag n))
  end.

(** ** The table builder (the [built] memo of [WebflowTableJsonBuilder]) *)

Module Builder.

(** The state variables of the component that [built] depends on. *)
Record Config := {
  cols : Z;
  rows : Z;
  includeHead : bool;
  includeFoot : bool;
  wrapInSection : bool;
  tableClass : string;
  theadClass : string;
  tbodyClass : string;
  tfootClass : string;
  cellClass : string;
  rowClass : string;
  useThInHead : bool;
  addAriaRole : bool;
  csvData : option (list (list string));
  csvHasHeaderRow : bool;
  useSpanFallback : bool }.

(** A loop bound: a number, or the [-Infinity] that [Math.max()] returns
    for no argument. *)
Inductive bound := MinusInfinity | Finite (z : Z).

Definition bound_max (a b : bound) : bound :=
  match a, b with
  | MinusInfinity, _ => b
  | _, MinusInfinity => a
  | Finite x, Finite y => Finite (Z.max x y)
  end.

(** [Math.max(...l)] *)
Definition Math_max (l : list Z) : bound := foldr (λ z, bound_max (Finite z)) MinusInfinity l.

(** The number of rounds of [for (let i = 0; i < n; i++)]. *)
Definition iterations (n : bound) : nat :=
  match n with
  | MinusInfinity => 0
  | Finite z => Z.to_nat z
  end.

(** *** The token table *)

Definition twScaleRem (key : string) : option string :=
  if bool_decide (key = "0") then Some "0rem"
  else if bool_decide (key = "1") then Some "0.25rem"
  else if bool_decide (key = "2") then Some "0.5rem"
  else if bool_decide (key = "3") then Some "0.75rem"
  else if bool_decide (key = "4") then Some "1rem"
  else if bool_decide (key = "5") then Some "1.25rem"
  else if bool_decide (key = "6") then Some "1.5rem"
  else if bool_decide (key = "8") then Some "2rem"
  else if bool_decide (key = "10") then Some "2.5rem"
  else if bool_decide (key = "12") then Some "3rem"
  else if bool_decide (key = "16") then Some "4rem"
  else if bool_decide (key = "20") then Some "5rem"
  else if bool_decide (key = "24") then Some "6rem"
  else if bool_decide (key = "32") then Some "8rem"
  else None.

Definition is_digit (ch : ascii) : bool :=
  let n := nat_of_ascii ch in (48 <=? n)%nat && (n <=? 57)%nat.

Fixpoint all_digits (s : string) : bool :=
  match s with
  | EmptyString => true
  | String ch rest => is_digit ch && all_digits rest
  end.

(** [s] is [p] followed by one digit or more: the digits. *)
Fixpoint digits_after (p s : string) : option string :=
  match p, s with
  | EmptyString, String _ _ => if all_digits s then Some s else None
  | String a p', String b s' => if Ascii.eqb a b then digits_after p' s' else None
  | _, EmptyString => None
  end.

Definition tokenCss (token : string) : string :=
  let pad (dir : string) (css : string → string) (k : string) : string :=
    match digits_after (dir +:+ "-") token with
    | Some d => match twScaleRem d with Some val => css val | None => "" end
    | None => k
    end in
  pad "p" (λ val, "padding: " +:+ val +:+ ";") (
  pad "px" (λ val, "padding-left: " +:+ val +:+ "; padding-right: " +:+ val +:+ ";") (
  pad "py" (λ val, "padding-top: " +:+ val +:+ "; padding-bottom: " +:+ val +:+ ";") (
  pad "pt" (λ val, "padding-top: " +:+ val +:+ ";") (
  pad "pr" (λ val, "padding-right: " +:+ val +:+ ";") (
  pad "pb" (λ val, "padding-bottom: " +:+ val +:+ ";") (
  pad "pl" (λ val, "padding-left: " +:+ val +:+ ";") (
  if bool_decide (token = "w-full") then "width: 100%;"
  else if bool_decide (token = "max-w-7xl") then "max-width: 80rem;"
  else if bool_decide (token = "mx-auto") then "margin-left: auto; margin-right: auto;"
  else if bool_decide (token = "flex") then "display: flex;"
  else if bool_decide (token = "grid") then "display: grid;"
  else if bool_decide (token = "items-center") then "align-items: center;"
  else if bool_decide (token = "justify-center") then "justify-content: center;"
  else
    match digits_after "gap-" token ≫= twScaleRem with
    | Some val => "grid-row-gap: " +:+ val +:+ "; grid-column-gap: " +:+ val +:+ ";"
    | None =>
  if bool_decide (token = "text-center") then "text-align: center;"
  else if bool_decide (token = "border") then "border-style: solid; border-width: 1px;"
  else if bool_decide (token = "rounded-md") then
    "border-top-left-radius: 6px; border-top-right-radius: 6px; border-bottom-left-radius: 6px; border-bottom-right-radius: 6px;"
  else if bool_decide (token = "bg-blue-500") then "background-color: #3B82F6;"
  else if bool_decide (token = "border-blue-500") then
    "border-top-color: #3B82F6; border-right-color: #3B82F6; border-bottom-color: #3B82F6; border-left-color: #3B82F6;"
  else if bool_decide (token = "text-white") then "color: #fff;"
  else if bool_decide (token = "transition-colors") then
    "transition-property: border-color, background-color;"
  else if bool_decide (token = "duration-200") then "transition-duration: 200ms;"
  else if bool_decide (token = "ease-in-out") then "transition-timing-function: ease;"
  else ""
    end))))))).

Definition nonempty (s : string) : bool := negb (bool_decide (s = "")).

Definition tailwindToStyleLess (className : string) : string :=
  if bool_decide (className = "") then ""
  else join " " (filter (λ s, nonempty s) (map tokenCss (split_ws (trim className)))).

(** The [styleLess] and [variants] of a preset. *)
Definition SECTION_PRESETS (name : string) : option (string * list (string * string)) :=
  if bool_decide (name = "section_table") then Some ("", [])
  else if bool_decide (name = "padding-global") then
    Some ("padding-right: 5%; padding-left: 5%;", [])
  else if bool_decide (name = "container-large") then
    Some ("width: 100%; max-width: 80rem; margin-right: auto; margin-left: auto;", [])
  else if bool_decide (name = "padding-section-medium") then
    Some ("padding-top: 5rem; padding-bottom: 5rem;",
          [("medium", "padding-top: 4rem; padding-bottom: 4rem;");
           ("small", "padding-top: 3rem; padding-bottom: 3rem;")])
  else if bool_decide (name = "table_component") then Some ("", [])
  else None.

(** *** The state of one run

    [nodes], [styles] and [styleIndex] are the local variables of the memo
    that the helper closures share.  [draws] counts the calls of [uid]. *)
Record state := {
  nodes : list node;
  styles : list Style.t;
  styleIndex : gmap string string;
  draws : nat }.

Definition M (A : Type) : Type := state → A * state.

Definition ret {A} (a : A) : M A := λ s, (a, s).

Definition bind {A B} (m : M A) (f : A → M B) : M B :=
  λ s, f (m s).1 (m s).2.

Notation "x <- c1 ;; c2" := (bind c1 (λ x, c2))
  (at level 100, c1 at next level, right associativity).
Notation "c1 ;; c2" := (bind c1 (λ _, c2))
  (at level 100, right associativity).

Fixpoint mapM {A B} (f : A → M B) (l : list A) : M (list B) :=
  match l with
  | [] => ret []
  | x :: l' => y <- f x ;; ys <- mapM f l' ;; ret (y :: ys)
  end.

(** [for (const x of l) f(x)] *)
Fixpoint forM {A} (l : list A) (f : A → M unit) : M unit :=
  match l with
  | [] => ret tt
  | x :: l' => f x ;; forM l' f
  end.

(** A reference to a node object of [nodes]: its position in the array,
    and its [_id], which no statement assigns after the creation. *)
Record ref := { ref_index : nat; ref_id : string }.

Definition add_child (cid : string) (n : node) : node :=
  {| _id := _id n; type := type n; tag := tag n; classes := classes n;
     children := (λ cs, cs ++ [cid]) <$> children n;
     data := data n; text := text n; v := v n |}.

Section Run.

(** The source of identifiers: the [k]-th call of [uid] appends [rnd k],
    which stands for the random digits and the clock digits, to the
    prefix. *)
Variable rnd : nat → string.
Variable cfg : Config.

Definition uid (prefix : string) : M string := λ s,
  (prefix +:+ rnd (draws s),
   {| nodes := nodes s; styles := styles s; styleIndex := styleIndex s;
      draws := S (draws s) |}).

Definition makeDomNode (tagName : string) (classList : list string)
    (attributes : list attribute) (isText : bool) : M node :=
  id <- uid "n_" ;;
  ret {| _id := id; type := Some "DOM"; tag := Some "div";
         classes := Some classList; children := Some [];
         data := Some {| data_tag := Some tagName; data_attributes := attributes;
                         data_slot := ""; data_text := isText |};
         text := None; v := None |}.

Definition makeTextNode (textValue : string) : M node :=
  id <- uid "t_" ;;
  ret {| _id := id; type := None; tag := None; classes := None; children := None;
         data := None; text := Some true; v := Some textValue |}.

(** [nodes.push(node); return node] *)
Definition push (n : node) : M ref := λ s,
  ({| ref_index := length (nodes s); ref_id := _id n |},
   {| nodes := nodes s ++ [n]; styles := styles s; styleIndex := styleIndex s;
      draws := draws s |}).

(** [r.children.push(cid)] on the object that [r] refers to. *)
Definition children_push (r : ref) (cid : string) : M unit := λ s,
  (tt,
   {| nodes := alter (add_child cid) (ref_index r) (nodes s); styles := styles s;
      styleIndex := styleIndex s; draws := draws s |}).

Definition ensureStyle (name : string) : M (option string) :=
  if bool_decide (name = "") || bool_decide (trim name = "") then ret None
  else λ s,
    match styleIndex s !! name with
    | Some id => (Some id, s)
    | None =>
        (id <- uid "cls_" ;;
         let '(styleLess, variants) :=
           match SECTION_PRESETS name with
           | Some (sl, vs) => (sl, vs)
           | None => (tailwindToStyleLess name, [])
           end in
         λ s', (Some id,
                {| nodes := nodes s';
                   styles := styles s' ++
                     [{| Style._id := id; Style.name := name;
                         Style.styleLess := styleLess; Style.variants := variants |}];
                   styleIndex := <[name := id]> (styleIndex s');
                   draws := draws s' |})) s
    end.

(** [filter(Boolean)] on the results of [ensureStyle]. *)
Definition truthy_ids (l : list (option string)) : list string :=
  omap truthy l.

Definition classIds (lst : list string) : M (list string) :=
  let names := flat_map (λ n, if bool_decide (n = "") then [] else split_ws (trim n)) lst in
  ids <- mapM ensureStyle (filter (λ n, nonempty n) names) ;;
  ret (truthy_ids ids).

(** [x ? [x] : []] *)
Definition opt_class (x : string) : list string :=
  if bool_decide (x = "") then [] else [x].

Definition effectiveCols : bound :=
  match csvData cfg with
  | Some d => Math_max (map (λ r, Z.of_nat (length r)) d)
  | None => Finite (cols cfg)
  end.

Definition effectiveRows : Z :=
  match csvData cfg with
  | Some d =>
      if csvHasHeaderRow cfg then Z.max (Z.of_nat (length d) - 1) 0
      else Z.of_nat (length d)
  | None => rows cfg
  end.

(** [sourceRow] of [makeRow]: [None] is [null] or [undefined]. *)
Definition sourceRow (sectionTag : string) (rIndex : nat) : option (list string) :=
  match csvData cfg with
  | Some d =>
      if csvHasHeaderRow cfg && bool_decide (sectionTag = "tbody")
      then d !! (rIndex + 1)%nat else d !! rIndex
  | None => None
  end.

Definition textValue (sectionTag : string) (rIndex c : nat) : string :=
  match csvData cfg, sourceRow sectionTag rIndex with
  | Some _, Some row => default "" (row !! c)
  | _, _ => ""
  end.

Definition cellTag (sectionTag : string) : string :=
  if bool_decide (sectionTag = "thead") && useThInHead cfg then "th" else "td".

Definition cellCount : bound :=
  match csvData cfg with Some _ => effectiveCols | None => Finite (cols cfg) end.

(** One round of the loop over the cells in [makeRow]. *)
Definition makeCell (tr : ref) (sectionTag : string) (rIndex c : nat) : M unit :=
  cls <- classIds (opt_class (cellClass cfg)) ;;
  cellN <- makeDomNode (cellTag sectionTag) cls [] false ;;
  cell <- push cellN ;;
  (match csvData cfg with
   | Some _ =>
       if useSpanFallback cfg then
         spanN <- makeDomNode "span" [] [] false ;;
         span <- push spanN ;;
         tnN <- makeTextNode (textValue sectionTag rIndex c) ;;
         tn <- push tnN ;;
         children_push span (ref_id tn) ;;
         children_push cell (ref_id span)
       else
         tnN <- makeTextNode (textValue sectionTag rIndex c) ;;
         tn <- push tnN ;;
         children_push cell (ref_id tn)
   | None => ret tt
   end) ;;
  children_push tr (ref_id cell).

Definition makeRow (sectionTag : string) (rIndex : nat) : M ref :=
  cls <- classIds (opt_class (rowClass cfg)) ;;
  trN <- makeDomNode "tr" cls [] false ;;
  tr <- push trN ;;
  forM (seq 0 (iterations cellCount)) (makeCell tr sectionTag rIndex) ;;
  ret tr.

Definition tableAttrs : list attribute :=
  if addAriaRole cfg then [{| attr_name := "role"; attr_value := "table" |}] else [].

Definition bodyRowCount : bound :=
  match csvData cfg with Some _ => Finite effectiveRows | None => Finite (rows cfg) end.

(** A section element with a single row ([thead], [tfoot]). *)
Definition makeSection (sectionTag className : string) : M ref :=
  cls <- classIds (opt_class className) ;;
  secN <- makeDomNode sectionTag cls [] false ;;
  sec <- push secN ;;
  tr <- makeRow sectionTag 0 ;;
  children_push sec (ref_id tr) ;;
  ret sec.

Definition makeWrapper (className : string) : M ref :=
  cls <- classIds [className] ;;
  n <- makeDomNode "div" cls [] false ;;
  push n.

(** The body of the memo, up to the construction of the payload. *)
Definition build : M unit :=
  cls <- classIds (opt_class (tableClass cfg)) ;;
  tableN <- makeDomNode "table" cls tableAttrs false ;;
  table <- push tableN ;;
  thead <- (if includeHead cfg
            then r <- makeSection "thead" (theadClass cfg) ;; ret (Some r)
            else ret None) ;;
  tbodyCls <- classIds (opt_class (tbodyClass cfg)) ;;
  tbodyN <- makeDomNode "tbody" tbodyCls [] false ;;
  tbody <- push tbodyN ;;
  forM (seq 0 (iterations bodyRowCount))
    (λ r, tr <- makeRow "tbody" r ;; children_push tbody (ref_id tr)) ;;
  tfoot <- (if includeFoot cfg
            then r <- makeSection "tfoot" (tfootClass cfg) ;; ret (Some r)
            else ret None) ;;
  (match thead with Some h => children_push table (ref_id h) | None => ret tt end) ;;
  children_push table (ref_id tbody) ;;
  (match tfoot with Some f => children_push table (ref_id f) | None => ret tt end) ;;
  (if wrapInSection cfg then
     outer <- makeWrapper "section_table" ;;
     padGlobal <- makeWrapper "padding-global" ;;
     container <- makeWrapper "container-large" ;;
     padSection <- makeWrapper "padding-section-medium" ;;
     tableWrapper <- makeWrapper "table_component" ;;
     children_push outer (ref_id padGlobal) ;;
     children_push padGlobal (ref_id container) ;;
     children_push container (ref_id padSection) ;;
     children_push padSection (ref_id tableWrapper) ;;
     children_push tableWrapper (ref_id table)
   else ret tt).

Definition init : state :=
  {| nodes := []; styles := []; styleIndex := ∅; draws := 0 |}.

Definition final : state := (build init).2.

(** The object that the memo returns, without its [json] text. *)
Definition built : Envelope :=
  {| payload := Some {| payload_nodes := Some (nodes final);
                        payload_styles := styles final |} |}.

End Run.

End Builder.

(** ** The extractor ([table-preview.tsx]) *)

Module Extractor.

(** The [json] argument: absent ([undefined], [null]), a text, or an
    object. *)
Inductive json_arg :=
  | JsonAbsent
  | JsonString (s : string)
  | JsonObject (o : Envelope).

Record Extracted := { rows : list (list string); hasHeader : bool }.

Definition indexById (nodes : list node) : gmap string node :=
  foldl (λ m n, <[_id n := n]> m) ∅ nodes.

Definition normalizeTag (n : option node) : string :=
  match n with
  | Some n => toLowerCase (raw_tag n)
  | None => ""
  end.

Definition is_text (n : node) : bool :=
  match text n with Some true => true | _ => false end.

(** [getTextFromNode]; [fuel] bounds the depth of the call stack, and the
    result is [None] when the recursion goes deeper. *)
Fixpoint getTextFromNode (fuel : nat) (indexById : gmap string node)
    (n : option node) : option string :=
  match fuel with
  | O => None
  | S fuel' =>
      match n with
      | None => Some ""
      | Some n =>
          if is_text n then Some (default "" (v n))
          else
            (fix loop (cs : list string) : option string :=
               match cs with
               | [] => Some ""
               | cid :: cs' =>
                   match getTextFromNode fuel' indexById (indexById !! cid) with
                   | None => None
                   | Some t => if Builder.nonempty t then Some t else loop cs'
                   end
               end) (children_of n)
      end
  end.

Definition has_tag (t : string) (n : node) : bool :=
  bool_decide (normalizeTag (Some n) = t).

Definition readRow (fuel : nat) (idx : gmap string node) (tr : node)
  : option (list string) :=
  let cellNodes :=
    filter (λ n, has_tag "td" n || has_tag "th" n)
           (omap (λ id, idx !! id) (children_of tr)) in
  mapM (λ cell, getTextFromNode fuel idx (Some cell)) cellNodes.

Definition readSectionRows (fuel : nat) (idx : gmap string node)
    (section : option node) : option (list (list string)) :=
  match section with
  | None => Some []
  | Some sec =>
      let trNodes :=
        filter (λ n, has_tag "tr" n) (omap (λ id, idx !! id) (children_of sec)) in
      mapM (readRow fuel idx) trNodes
  end.

Section Extract.

(** [JSON.parse]: [None] when it throws.  A parsed value that is not an
    object has no [payload]. *)
Variable JSON_parse : string → option Envelope.

(** The payload read from the argument: [inl tt] when the function returns
    [null] before it looks at the payload. *)
Definition read_payload (json : json_arg) : unit + option Payload :=
  match json with
  | JsonAbsent => inl tt
  | JsonString s =>
      if bool_decide (s = "") then inl tt
      else match JSON_parse s with
           | None => inl tt
           | Some parsed => inr (payload parsed)
           end
  | JsonObject o => inr (payload o)
  end.

(** The rows of the three sections, as [extractRowsFromXscp] reads them:
    [None] when the call stack is exhausted, [Some None] where the function
    returns [null]. *)
Definition readSections (fuel : nat) (json : json_arg)
  : option (option (list (list string) * list (list string) * list (list string))) :=
  match read_payload json with
  | inl _ => Some None
  | inr payload =>
      let nodes := default [] (payload ≫= payload_nodes) in
      if bool_decide (nodes = []) then Some None
      else
        let idx := indexById nodes in
        match find (λ n, has_tag "table" n) nodes with
        | None => Some None
        | Some tableNode =>
            let tableChildren := omap (λ id, idx !! id) (children_of tableNode) in
            let thead := find (λ n, has_tag "thead" n) tableChildren in
            let tbody := find (λ n, has_tag "tbody" n) tableChildren in
            let tfoot := find (λ n, has_tag "tfoot" n) tableChildren in
            headRows ← readSectionRows fuel idx thead;
            bodyRows ← readSectionRows fuel idx tbody;
            footerRows ← readSectionRows fuel idx tfoot;
            Some (Some (headRows, bodyRows, footerRows))
        end
  end.

(** [extractRowsFromXscp]; the footer rows are read and dropped. *)
Definition extractRowsFromXscp (fuel : nat) (json : json_arg)
  : option (option Extracted) :=
  match readSections fuel json with
  | None => None
  | Some None => Some None
  | Some (Some (headRows, bodyRows, footerRows)) =>
      let hasHeader := bool_decide (0 < length headRows) in
      Some (Some {| rows := if hasHeader then headRows ++ bodyRows else bodyRows;
                    hasHeader := hasHeader |})
  end.

End Extract.

End Extractor.

(** ** The tree preview ([DomTreePreview], [DomNodeItem]) *)

Module TreePreview.

(** A [Set] of strings in insertion order. *)
Definition set_add (x : string) (set : list string) : list string :=
  if bool_decide (x ∈ set) then set else set ++ [x].

Definition indexById (nodes : list node) : gmap string node :=
  foldl (λ m n, <[_id n := n]> m) ∅ nodes.

Definition classNameById (styles : list Style.t) : gmap string string :=
  foldl (λ m s, <[Style._id s := Style.name s]> m) ∅ styles.

Definition parentById (nodes : list node) : gmap string string :=
  foldl (λ p n, foldl (λ p c, <[c := _id n]> p) p (children_of n)) ∅ nodes.

Definition childSet (nodes : list node) : list string :=
  foldl (λ set n, foldl (λ set c, set_add c set) set (children_of n)) [] nodes.

Definition roots (nodes : list node) : list node :=
  filter (λ n, _id n ∉ childSet nodes) nodes.

(** [q] *)
Definition query (searchQuery : string) : string := toLowerCase (trim searchQuery).

Definition node_matches (styles : list Style.t) (q : string) (n : node) : bool :=
  let tag := toLowerCase (raw_tag n) in
  let classNames :=
    map (λ id, match classNameById styles !! id with
               | Some name => toLowerCase name
               | None => ""
               end) (classes_of n) in
  includes tag q || existsb (λ cn, includes cn q) classNames.

Definition matchSet (nodes : list node) (styles : list Style.t) (searchQuery : string)
  : list string :=
  let q := query searchQuery in
  if bool_decide (q = "") then []
  else foldl (λ set n, if node_matches styles q n then set_add (_id n) set else set)
             [] nodes.

(** The [while] loop of [ancestorSet]; every round adds a value of the
    parent map that the set does not hold yet, so [fuel] is never
    exhausted when it exceeds the number of entries of the map. *)
Fixpoint walk_up (fuel : nat) (parent : gmap string string) (set : list string)
    (cur : option string) : list string :=
  match fuel with
  | O => set
  | S fuel' =>
      match truthy cur with
      | Some c =>
          if bool_decide (c ∈ set) then set
          else walk_up fuel' parent (set_add c set) (parent !! c)
      | None => set
      end
  end.

Definition ancestorSet (nodes : list node) (matches : list string) : list string :=
  let parent := parentById nodes in
  foldl (λ set id, walk_up (S (size parent)) parent set (parent !! id)) [] matches.

(** The value of [open] after the effect of [DomNodeItem] has run. *)
Definition DomNodeItem_open (expandMode : string) (isMatch isAncestorOfMatch : bool)
    (depth : nat) : bool :=
  if bool_decide (expandMode = "all") then true
  else if bool_decide (expandMode = "collapse") then false
  else isMatch || isAncestorOfMatch || bool_decide (depth < 1).

(** The items that [DomTreePreview] mounts: one per root, at depth 0, and
    under an item one per child id, one level deeper. *)
Inductive mounted (nodes : list node) : node → nat → Prop :=
  | mounted_root n : n ∈ roots nodes → mounted nodes n 0
  | mounted_child p d cid c :
      mounted nodes p d → cid ∈ children_of p → indexById nodes !! cid = Some c →
      mounted nodes c (S d).

(** [open] of the item mounted for [n] at [depth]. *)
Definition item_open (nodes : list node) (styles : list Style.t)
    (searchQuery expandMode : string) (n : node) (depth : nat) : bool :=
  let matches := matchSet nodes styles searchQuery in
  DomNodeItem_open expandMode
    (bool_decide (_id n ∈ matches))
    (bool_decide (_id n ∈ ancestorSet nodes matches))
    depth.

End TreePreview.

(** ** The label of an item of the tree preview ([DomNodeItem]) *)

Module DomNodeItem.

(** [node?.data?.text || node.text === true] *)
Definition isText (n : node) : bool :=
  match data n with Some d => data_text d | None => false end
  || bool_decide (text n = Some true).

(** [isText ? "#text" : node.data?.tag || node.tag || "div"] *)
Definition labelTag (n : node) : string :=
  if isText n then "#text"
  else match truthy (data n ≫= data_tag) with
       | Some t => t
       | None => default "div" (truthy (tag n))
       end.

(** The class names shown after the tag: the names that the class ids
    resolve to, without the empty ones. *)
Definition classNames (classNameById : gmap string string) (n : node) : list string :=
  omap (λ id, truthy (classNameById !! id)) (classes_of n).

(** The horizontal ellipsis that ends a shortened text. *)
Definition ellipsis : string := "…".

(** The text shown after the tag of a text node: the value of the
    attribute [data-text], shortened to 37 characters and the ellipsis when
    it is longer than 40. *)
Definition textPreview (n : node) : string :=
  if isText n then
    let attr :=
      find (λ a, bool_decide (attr_name a = "data-text"))
           (match data n with Some d => data_attributes d | None => [] end) in
    let v := match attr with Some a => attr_value a | None => "" end in
    if bool_decide (40 < String.length v)
    then String.substring 0 37 v +:+ ellipsis else v
  else "".

End DomNodeItem.

(** ** The inspector of the selected node (in [WebflowTableJsonBuilder]) *)

Module Inspector.

(** [nodes.find((x) => x._id === selectedId)] *)
Definition selected (nodes : list node) (selectedId : string) : option node :=
  find (λ x, bool_decide (_id x = selectedId)) nodes.

(** [n.data?.tag || n.tag || (n.text ? "#text" : "div")] *)
Definition tagOf (n : node) : string :=
  match truthy (data n ≫= data_tag) with
  | Some t => t
  | None =>
      match truthy (tag n) with
      | Some t => t
      | None => if bool_decide (text n = Some true) then "#text" else "div"
      end
  end.

Definition findStyle (styles : list Style.t) (id : string) : option Style.t :=
  find (λ s, bool_decide (Style._id s = id)) styles.

(** [s?.name || "(unknown)"] *)
Definition classLabel (styles : list Style.t) (cid : string) : string :=
  match findStyle styles cid with
  | Some s => if bool_decide (Style.name s = "") then "(unknown)" else Style.name s
  | None => "(unknown)"
  end.

End Inspector.

(** ** The editable table ([TablePreview]) *)

Module TablePreview.

(** An array that an assignment beyond its end may have extended: [None]
    is a hole, which reads as [undefined]. *)
Definition row : Type := list (option string).
Definition grid : Type := list (option row).

(** The arrays that the extractor and the CSV parser make have no hole. *)
Definition dense_row (r : list string) : row := map Some r.
Definition dense (g : list (list string)) : grid := map (λ r, Some (dense_row r)) g.

(** [extracted?.rows ?? rowsProp ?? []] *)
Definition basisRows (extracted : option Extractor.Extracted)
    (rowsProp : option (list (list string))) : list (list string) :=
  match extracted with
  | Some e => Extractor.rows e
  | None => default [] rowsProp
  end.

(** [extracted?.hasHeader ?? hasHeaderProp], where the property defaults
    to [true]. *)
Definition basisHasHeader (extracted : option Extractor.Extracted)
    (hasHeaderProp : option bool) : bool :=
  match extracted with
  | Some e => Extractor.hasHeader e
  | None => default true hasHeaderProp
  end.

(** [a[i] = x] *)
Definition assign {A} (i : nat) (x : A) (a : list (option A)) : list (option A) :=
  if bool_decide (i < length a) then <[i := Some x]> a
  else a ++ replicate (i - length a) None ++ [Some x].

(** The update of [localRows] in [handleChange]: the rows are copied, a
    missing row [ri] becomes the empty row, and the cell [ci] of the row
    [ri] is assigned. *)
Definition handleChange (ri ci : nat) (value : string) (prev : grid) : grid :=
  let next := prev in
  let r := match next !! ri with Some (Some r) => r | _ => [] end in
  assign ri (assign ci value r) next.

(** The row shown in the header: [None] is [undefined]. *)
Definition header (basisHasHeader : bool) (localRows : grid) : option row :=
  if basisHasHeader && bool_decide (0 < length localRows)
  then mjoin (localRows !! 0) else Some [].

(** The rows shown in the body. *)
Definition body (basisHasHeader : bool) (localRows : grid) : grid :=
  if basisHasHeader then drop 1 localRows else localRows.

(** The row index that the input of the body row [ri] passes to
    [handleChange]. *)
Definition bodyIndex (basisHasHeader : bool) (ri : nat) : nat :=
  if basisHasHeader then ri + 1 else ri.

(** The component shows no table. *)
Definition noTableData (localRows : grid) : bool := bool_decide (length localRows = 0).

End TablePreview.

(** ** The handlers of the form ([WebflowTableJsonBuilder]) *)

Module App.

(** [setCsvData(d)] on the state variables that [built] depends on. *)
Definition setCsvData (d : option (list (list string))) (cfg : Builder.Config)
  : Builder.Config :=
  {| Builder.cols := Builder.cols cfg; Builder.rows := Builder.rows cfg;
     Builder.includeHead := Builder.includeHead cfg;
     Builder.includeFoot := Builder.includeFoot cfg;
     Builder.wrapInSection := Builder.wrapInSection cfg;
     Builder.tableClass := Builder.tableClass cfg;
     Builder.theadClass := Builder.theadClass cfg;
     Builder.tbodyClass := Builder.tbodyClass cfg;
     Builder.tfootClass := Builder.tfootClass cfg;
     Builder.cellClass := Builder.cellClass cfg;
     Builder.rowClass := Builder.rowClass cfg;
     Builder.useThInHead := Builder.useThInHead cfg;
     Builder.addAriaRole := Builder.addAriaRole cfg;
     Builder.csvData := d;
     Builder.csvHasHeaderRow := Builder.csvHasHeaderRow cfg;
     Builder.useSpanFallback := Builder.useSpanFallback cfg |}.

(** The form: the variables of the table, and the text of the CSV box. *)
Record state := { config : Builder.Config; csvText : string }.

(** [handleCsvTextPaste] *)
Definition handleCsvTextPaste (st : state) : state :=
  {| config := setCsvData (Some (CSV.parseCSV (csvText st))) (config st);
     csvText := csvText st |}.

(** The button that clears the CSV. *)
Definition clearCsv (st : state) : state :=
  {| config := setCsvData None (config st); csvText := "" |}.

(** The [onEdit] callback given to the table preview. *)
Definition onEdit (rows : list (list string)) (st : state) : state :=
  {| config := setCsvData (Some rows) (config st);
     csvText := CSV.stringifyCSV rows |}.

End App.

Local Set Warnings "-register-all".

(** ** The text after a serialized cell *)

(** What follows a serialized cell: nothing, or a character other than a
    quote. *)
Definition no_quote_ahead (rest : string) : Prop :=
  match rest with
  | EmptyString => True
  | String ch _ => Ascii.eqb ch dquote = false
  end.

(** ** Trees of nodes

    The builder creates the nodes of the table in preorder: an element is
    pushed, then its descendants, and the id of each child is appended to
    [children] once the child is complete.  [tree] describes such a
    subgraph, [flatten] its nodes in the order of [nodes]. *)

Inductive tree :=
  | TElem (id tg : string) (cls : list string) (attrs : list attribute) (kids : list tree)
  | TText (id val : string).

Definition root_id (t : tree) : string :=
  match t with
  | TElem id _ _ _ _ => id
  | TText id _ => id
  end.

Definition kids_of (t : tree) : list tree :=
  match t with
  | TElem _ _ _ _ kids => kids
  | TText _ _ => []
  end.

(** The node object that [makeDomNode] creates, with its children. *)
Definition dom_node (id tg : string) (cls : list string) (attrs : list attribute)
    (ch : list string) : node :=
  {| _id := id; type := Some "DOM"; tag := Some "div"; classes := Some cls;
     children := Some ch;
     data := Some {| data_tag := Some tg; data_attributes := attrs;
                     data_slot := ""; data_text := false |};
     text := None; v := None |}.

(** The node object that [makeTextNode] creates. *)
Definition text_node (id val : string) : node :=
  {| _id := id; type := None; tag := None; classes := None; children := None;
     data := None; text := Some true; v := Some val |}.

Definition node_of (t : tree) : node :=
  match t with
  | TElem id tg cls attrs kids => dom_node id tg cls attrs (map root_id kids)
  | TText id val => text_node id val
  end.

Fixpoint flatten (t : tree) : list node :=
  match t with
  | TElem id tg cls attrs kids =>
      dom_node id tg cls attrs (map root_id kids) :: concat (map flatten kids)
  | TText id val => [text_node id val]
  end.

Fixpoint height (t : tree) : nat :=
  match t with
  | TElem _ _ _ _ kids => S (foldr Nat.max 0 (map height kids))
  | TText _ _ => 1
  end.

(** A tree without its ids, classes and attributes. *)
Inductive shape :=
  | SElem (tg : string) (kids : list shape)
  | SText (val : string).

Fixpoint shape_of (t : tree) : shape :=
  match t with
  | TElem _ tg _ _ kids => SElem tg (map shape_of kids)
  | TText _ val => SText val
  end.

(** The first text that is not empty, in preorder. *)
Fixpoint first_nonempty (l : list string) : string :=
  match l with
  | [] => ""
  | t :: l' => if Builder.nonempty t then t else first_nonempty l'
  end.

Fixpoint first_text (s : shape) : string :=
  match s with
  | SElem _ kids => first_nonempty (map first_text kids)
  | SText val => val
  end.

Definition shape_tag (s : shape) : string :=
  match s with
  | SElem tg _ => tg
  | SText _ => ""
  end.

Definition shape_kids (s : shape) : list shape :=
  match s with
  | SElem _ kids => kids
  | SText _ => []
  end.

(** ** Identifiers drawn by [uid] *)

Section Drawn.
Variable rnd : nat → string.

(** [ids] are node ids made from the draws [ks], in this order. *)
Definition made_from (ids : list string) (ks : list nat) : Prop :=
  Forall2 (λ id k, id = "n_" +:+ rnd k ∨ id = "t_" +:+ rnd k) ids ks.

(** [ids] were drawn in this order by calls of [uid] numbered from [d]
    to below [d']. *)
Definition drawn (d d' : nat) (ids : list string) : Prop :=
  ∃ ks, made_from ids ks ∧ StronglySorted lt ks ∧ Forall (λ k, d ≤ k < d') ks.

(** No two of the first [n] calls of [uid] return the same digits. *)
Definition uid_fresh (n : nat) : Prop := NoDup (map rnd (seq 0 n)).

End Drawn.

(** ** The shape of the table that a configuration asks for *)

Section Expected.
Variable cfg : Builder.Config.

Definition ncols : nat := Builder.iterations (Builder.cellCount cfg).
Definition nrows : nat := Builder.iterations (Builder.bodyRowCount cfg).

Definition cell_shape (sectionTag : string) (rIndex c : nat) : shape :=
  SElem (Builder.cellTag cfg sectionTag)
    (match Builder.csvData cfg with
     | Some _ =>
         if Builder.useSpanFallback cfg
         then [SElem "span" [SText (Builder.textValue cfg sectionTag rIndex c)]]
         else [SText (Builder.textValue cfg sectionTag rIndex c)]
     | None => []
     end).

Definition row_shape (sectionTag : string) (rIndex : nat) : shape :=
  SElem "tr" (map (cell_shape sectionTag rIndex) (seq 0 ncols)).

Definition single_row_section (sectionTag : string) : shape :=
  SElem sectionTag [row_shape sectionTag 0].

Definition tbody_shape : shape :=
  SElem "tbody" (map (row_shape "tbody") (seq 0 nrows)).

Definition table_shape : shape :=
  SElem "table"
    ((if Builder.includeHead cfg then [single_row_section "thead"] else [])
     ++ [tbody_shape]
     ++ (if Builder.includeFoot cfg then [single_row_section "tfoot"] else [])).

End Expected.

(** ** Building under an element that is still open *)

Section Specs.
Variable rnd : nat → string.

(** [m] pushes one complete tree and returns the reference to its root. *)
Definition makes_tree (m : Builder.M Builder.ref) (Φ : tree → Prop) : Prop :=
  ∀ s, ∃ t,
    Builder.nodes (m s).2 = Builder.nodes s ++ flatten t ∧
    (m s).1 = {| Builder.ref_index := length (Builder.nodes s);
                 Builder.ref_id := root_id t |} ∧
    Φ t ∧
    drawn rnd (Builder.draws s) (Builder.draws (m s).2) (map _id (flatten t)) ∧
    Builder.draws s ≤ Builder.draws (m s).2.

(** [m] pushes complete trees and appends them to the children of the
    element [parent], the last one that is still open. *)
Definition fills (parent : Builder.ref) (m : Builder.M unit) (Ψ : list tree → Prop)
  : Prop :=
  ∀ s L tg cls attrs kids,
    Builder.nodes s = L ++ flatten (TElem (Builder.ref_id parent) tg cls attrs kids) →
    Builder.ref_index parent = length L →
    ∃ ts,
      Builder.nodes (m s).2
        = L ++ flatten (TElem (Builder.ref_id parent) tg cls attrs (kids ++ ts)) ∧
      Ψ ts ∧
      drawn rnd (Builder.draws s) (Builder.draws (m s).2)
        (map _id (concat (map flatten ts))) ∧
      Builder.draws s ≤ Builder.draws (m s).2.

(** [m] changes neither [nodes] nor the past draws. *)
Definition frames (A : Type) (m : Builder.M A) : Prop :=
  ∀ s, Builder.nodes (m s).2 = Builder.nodes s ∧
       Builder.draws s ≤ Builder.draws (m s).2.

End Specs.

(** ** The node array of a complete run *)

(** Two phases of [build]: the id of a section is appended to the children
    of the table; the wrapper chain is created and linked. *)
Definition link (table : Builder.ref) (o : option Builder.ref) : Builder.M unit :=
  match o with
  | Some h => Builder.children_push table (Builder.ref_id h)
  | None => Builder.ret tt
  end.

Definition wrapPhase (rnd : nat → string) (cfg : Builder.Config) (table : Builder.ref)
  : Builder.M unit :=
  if Builder.wrapInSection cfg then
    Builder.bind (Builder.makeWrapper rnd "section_table") (λ outer,
    Builder.bind (Builder.makeWrapper rnd "padding-global") (λ padGlobal,
    Builder.bind (Builder.makeWrapper rnd "container-large") (λ container,
    Builder.bind (Builder.makeWrapper rnd "padding-section-medium") (λ padSection,
    Builder.bind (Builder.makeWrapper rnd "table_component") (λ tableWrapper,
    Builder.bind (Builder.children_push outer (Builder.ref_id padGlobal)) (λ _,
    Builder.bind (Builder.children_push padGlobal (Builder.ref_id container)) (λ _,
    Builder.bind (Builder.children_push container (Builder.ref_id padSection)) (λ _,
    Builder.bind (Builder.children_push padSection (Builder.ref_id tableWrapper)) (λ _,
    Builder.children_push tableWrapper (Builder.ref_id table))))))))))
  else Builder.ret tt.

(** The [tbody] element with its rows. *)
Definition tbodyPhase (rnd : nat → string) (cfg : Builder.Config) : Builder.M Builder.ref :=
  Builder.bind (Builder.classIds rnd (Builder.opt_class (Builder.tbodyClass cfg))) (λ tbodyCls,
  Builder.bind (Builder.makeDomNode rnd "tbody" tbodyCls [] false) (λ tbodyN,
  Builder.bind (Builder.push tbodyN) (λ tbody,
  Builder.bind
    (Builder.forM (seq 0 (Builder.iterations (Builder.bodyRowCount cfg)))
       (λ r, Builder.bind (Builder.makeRow rnd cfg "tbody" r)
               (λ tr, Builder.children_push tbody (Builder.ref_id tr))))
    (λ _, Builder.ret tbody)))).

(** A section that is built only when its flag is set. *)
Definition optSection (rnd : nat → string) (cfg : Builder.Config) (flag : bool)
    (sectionTag className : string) : Builder.M (option Builder.ref) :=
  if flag
  then Builder.bind (Builder.makeSection rnd cfg sectionTag className)
         (λ r, Builder.ret (Some r))
  else Builder.ret None.

(** [build], phase by phase. *)
Definition build_phases (rnd : nat → string) (cfg : Builder.Config) : Builder.M unit :=
  Builder.bind (Builder.classIds rnd (Builder.opt_class (Builder.tableClass cfg))) (λ cls,
  Builder.bind (Builder.makeDomNode rnd "table" cls (Builder.tableAttrs cfg) false) (λ tableN,
  Builder.bind (Builder.push tableN) (λ table,
  Builder.bind (optSection rnd cfg (Builder.includeHead cfg) "thead" (Builder.theadClass cfg))
    (λ thead,
  Builder.bind (tbodyPhase rnd cfg) (λ tbody,
  Builder.bind (optSection rnd cfg (Builder.includeFoot cfg) "tfoot" (Builder.tfootClass cfg))
    (λ tfoot,
  Builder.bind (link table thead) (λ _,
  Builder.bind (link table (Some tbody)) (λ _,
  Builder.bind (link table tfoot) (λ _,
  wrapPhase rnd cfg table))))))))).

(** The wrapper chain: five elements, each with the next one as its only
    child, the last one with the table. *)
Definition wrappers (W : list node) (table_id : string) : Prop :=
  ∃ o p c ps tw c1 c2 c3 c4 c5,
    W = [dom_node o "div" c1 [] [p]; dom_node p "div" c2 [] [c];
         dom_node c "div" c3 [] [ps]; dom_node ps "div" c4 [] [tw];
         dom_node tw "div" c5 [] [table_id]].

(** [L] is the table [T], in preorder, followed by the wrappers [W]. *)
Definition laid_out (cfg : Builder.Config) (L : list node) (T : tree) (W : list node)
  : Prop :=
  L = flatten T ++ W ∧
  shape_of T = table_shape cfg ∧
  (if Builder.wrapInSection cfg then wrappers W (root_id T) else W = []).

(** ** Reading a shape

    What the extractor reads from a tree, stated on its shape. *)

Definition shape_norm_tag (s : shape) : string :=
  match s with
  | SElem tg _ => toLowerCase (if bool_decide (tg = "") then "div" else tg)
  | SText _ => ""
  end.

Definition sh_has_tag (t : string) (s : shape) : bool :=
  bool_decide (shape_norm_tag s = t).

Definition sh_row (tr : shape) : list string :=
  map first_text (filter (λ k, sh_has_tag "td" k || sh_has_tag "th" k) (shape_kids tr)).

Definition sh_rows (sec : option shape) : list (list string) :=
  match sec with
  | None => []
  | Some sec => map sh_row (filter (λ k, sh_has_tag "tr" k) (shape_kids sec))
  end.

Definition sh_sections (table : shape)
  : list (list string) * list (list string) * list (list string) :=
  (sh_rows (find (λ k, sh_has_tag "thead" k) (shape_kids table)),
   sh_rows (find (λ k, sh_has_tag "tbody" k) (shape_kids table)),
   sh_rows (find (λ k, sh_has_tag "tfoot" k) (shape_kids table))).

Fixpoint sh_height (s : shape) : nat :=
  match s with
  | SElem _ kids => S (foldr Nat.max 0 (map sh_height kids))
  | SText _ => 1
  end.

(** The texts of the cells lie within [fuel] calls of [getTextFromNode]. *)
Definition cells_fit (fuel : nat) (table : shape) : Prop :=
  Forall (λ sec, Forall (λ tr, Forall (λ c, sh_height c ≤ fuel) (shape_kids tr))
                   (shape_kids sec)) (shape_kids table).

(** ** The grid that a configuration shows *)

Section Grid.
Variable cfg : Builder.Config.

Definition row_texts (sectionTag : string) (rIndex : nat) : list string :=
  map (Builder.textValue cfg sectionTag rIndex) (seq 0 (ncols cfg)).

Definition head_rows : list (list string) :=
  if Builder.includeHead cfg then [row_texts "thead" 0] else [].

Definition body_rows : list (list string) :=
  map (row_texts "tbody") (seq 0 (nrows cfg)).

Definition foot_rows : list (list string) :=
  if Builder.includeFoot cfg then [row_texts "tfoot" 0] else [].

End Grid.

(** A json argument that stands for the envelope [e]: the object itself, or
    a text that [JSON.parse] turns into it. *)
Definition denotes (JSON_parse : string → option Envelope)
    (json : Extractor.json_arg) (e : Envelope) : Prop :=
  json = Extractor.JsonObject e ∨
  ∃ s, json = Extractor.JsonString s ∧ s ≠ "" ∧ JSON_parse s = Some e.

(** The loop over the children in [getTextFromNode], with the recursive
    call as a parameter. *)
Definition text_loop (rec : option node → option string) (idx : gmap string node)
  : list string → option string :=
  fix loop (cs : list string) : option string :=
    match cs with
    | [] => Some ""
    | cid :: cs' =>
        match rec (idx !! cid) with
        | None => None
        | Some t => if Builder.nonempty t then Some t else loop cs'
        end
    end.

(** ** Properties of all the nodes of a tree *)

Fixpoint shape_all (P : shape → bool) (s : shape) : bool :=
  P s &&
  match s with
  | SElem _ kids => forallb (shape_all P) kids
  | SText _ => true
  end.

(** An element that is not a [span], and has no child when it is a cell. *)
Definition bare_shape (s : shape) : bool :=
  match s with
  | SText _ => false
  | SElem _ kids =>
      negb (sh_has_tag "span" s) &&
      (if sh_has_tag "td" s || sh_has_tag "th" s
       then match kids with [] => true | _ => false end
       else true)
  end.

Definition bare_node (n : node) : Prop :=
  Extractor.is_text n = false ∧
  Extractor.has_tag "span" n = false ∧
  (Extractor.has_tag "td" n || Extractor.has_tag "th" n = true → children n = Some []).

(** No child id is left without a node. *)
Definition closed (L : list node) : Prop :=
  ∀ n c, n ∈ L → c ∈ children_of n → ∃ m, m ∈ L ∧ _id m = c.

(** ** Operations that leave the styles alone *)

Definition keeps_styles {A} (m : Builder.M A) : Prop :=
  ∀ s, Builder.styles (m s).2 = Builder.styles s ∧
       Builder.styleIndex (m s).2 = Builder.styleIndex s.

(** No class name is configured but the one of the table, and there is no
    wrapper chain. *)
Definition only_table_class (cfg : Builder.Config) : Prop :=
  Builder.theadClass cfg = "" ∧ Builder.tbodyClass cfg = "" ∧
  Builder.tfootClass cfg = "" ∧ Builder.cellClass cfg = "" ∧
  Builder.rowClass cfg = "" ∧ Builder.wrapInSection cfg = false.

(** ** When the extractor has nothing to read *)

Section NoData.
Variable JSON_parse : string → option Envelope.

(** The envelope that the argument holds, if it can be parsed. *)
Definition parsed (json : Extractor.json_arg) : option Envelope :=
  match json with
  | Extractor.JsonAbsent => None
  | Extractor.JsonString s => if bool_decide (s = "") then None else JSON_parse s
  | Extractor.JsonObject o => Some o
  end.

Definition nodes_in (e : Envelope) : list node :=
  match payload e with
  | Some p => match payload_nodes p with Some l => l | None => [] end
  | None => []
  end.

Definition has_table (L : list node) : Prop :=
  ∃ n, n ∈ L ∧ Extractor.normalizeTag (Some n) = "table".

(** The envelope cannot be parsed, has no nodes, or contains no element
    with the tag [table]. *)
Definition no_data (json : Extractor.json_arg) : Prop :=
  match parsed json with
  | None => True
  | Some e => nodes_in e = [] ∨ ¬ has_table (nodes_in e)
  end.

(** The call stack is exhausted, whatever its size. *)
Definition overflows (json : Extractor.json_arg) : Prop :=
  ∀ fuel, Extractor.extractRowsFromXscp JSON_parse fuel json = None.

End NoData.

(** The children references of [L] do not loop: every child id ranks
    below the id of its parent. *)
Definition acyclic (L : list node) : Prop :=
  ∃ rk : string → nat, ∀ n c, n ∈ L → c ∈ children_of n → rk c < rk (_id n).

(** A stack depth that suffices for the nodes of [L], ranked by [rk]. *)
Definition stack_bound (L : list node) (rk : string → nat) : nat :=
  max_list (map (λ n, rk (_id n)) L) + 2.

(** The values of the parent map that [set] does not hold: every round of
    the loop of [ancestorSet] adds one of them to the set. *)
Definition unvisited (parent : gmap string string) (set : list string) : nat :=
  length (filter (λ v, v ∉ set) (map_to_list parent).*2).

(** ** Texts in CSV form *)

(** A text without its carriage returns. *)
Fixpoint drop_CR (s : string) : string :=
  match s with
  | EmptyString => EmptyString
  | String ch rest => if Ascii.eqb ch CR then drop_CR rest else String ch (drop_CR rest)
  end.

(** The serialized rows of a grid, each followed by the line break [eol]. *)
Definition terminated (eol : string) (g : list (list string)) : string :=
  foldr (λ r acc, CSV.stringifyRow r +:+ eol +:+ acc) "" g.

(** ** Sample inputs *)

(** A source of identifiers without repetition: the decimal digits of the
    number of the call. *)
Definition sample_rnd (k : nat) : string := pretty k.

(** A [JSON.parse] that accepts no text. *)
Definition no_parse (s : string) : option Envelope := None.

(** The initial state of the component, with two columns and one body
    row. *)
Definition sample_cfg : Builder.Config :=
  {| Builder.cols := 2; Builder.rows := 1;
     Builder.includeHead := true; Builder.includeFoot := false;
     Builder.wrapInSection := false;
     Builder.tableClass := ""; Builder.theadClass := ""; Builder.tbodyClass := "";
     Builder.tfootClass := ""; Builder.cellClass := ""; Builder.rowClass := "";
     Builder.useThInHead := true; Builder.addAriaRole := true;
     Builder.csvData := None; Builder.csvHasHeaderRow := true;
     Builder.useSpanFallback := false |}.

Definition with_grid (g : list (list string)) (foot : bool) : Builder.Config :=
  {| Builder.cols := 3; Builder.rows := 3;
     Builder.includeHead := true; Builder.includeFoot := foot;
     Builder.wrapInSection := false;
     Builder.tableClass := ""; Builder.theadClass := ""; Builder.tbodyClass := "";
     Builder.tfootClass := ""; Builder.cellClass := ""; Builder.rowClass := "";
     Builder.useThInHead := true; Builder.addAriaRole := true;
     Builder.csvData := Some g; Builder.csvHasHeaderRow := true;
     Builder.useSpanFallback := false |}.

(** A grid, with the header section and the header-row designation
    chosen apart. *)
Definition with_flags (g : list (list string)) (head headerRow : bool) : Builder.Config :=
  {| Builder.cols := 3; Builder.rows := 3;
     Builder.includeHead := head; Builder.includeFoot := false;
     Builder.wrapInSection := false;
     Builder.tableClass := ""; Builder.theadClass := ""; Builder.tbodyClass := "";
     Builder.tfootClass := ""; Builder.cellClass := ""; Builder.rowClass := "";
     Builder.useThInHead := true; Builder.addAriaRole := true;
     Builder.csvData := Some g; Builder.csvHasHeaderRow := headerRow;
     Builder.useSpanFallback := false |}.

Definition with_table_class (c : string) : Builder.Config :=
  {| Builder.cols := 3; Builder.rows := 3;
     Builder.includeHead := true; Builder.includeFoot := false;
     Builder.wrapInSection := false;
     Builder.tableClass := c; Builder.theadClass := ""; Builder.tbodyClass := "";
     Builder.tfootClass := ""; Builder.cellClass := ""; Builder.rowClass := "";
     Builder.useThInHead := true; Builder.addAriaRole := true;
     Builder.csvData := None; Builder.csvHasHeaderRow := true;
     Builder.useSpanFallback := false |}.

(** A table whose only cell names itself as its child. *)
Definition looping_nodes : list node :=
  [dom_node "t" "table" [] [] ["b"]; dom_node "b" "tbody" [] [] ["r"];
   dom_node "r" "tr" [] [] ["c"]; dom_node "c" "td" [] [] ["c"]].

Definition envelope_of (L : list node) : Envelope :=
  {| payload := Some {| payload_nodes := Some L; payload_styles := [] |} |}.

(** A table with a single cell that holds one text. *)
Definition small_nodes : list node :=
  [dom_node "t" "table" [] [] ["b"]; dom_node "b" "tbody" [] [] ["r"];
   dom_node "r" "tr" [] [] ["c"]; dom_node "c" "td" [] [] ["x"];
   text_node "x" "hello"].

Definition small_rank (id : string) : nat :=
  if bool_decide (id = "t") then 4
  else if bool_decide (id = "b") then 3
  else if bool_decide (id = "r") then 2
  else if bool_decide (id = "c") then 1
  else 0.

(** ** What a run of the builder keeps true *)

(** A text without white space. *)
Definition spaceless (s : string) : Prop :=
  Forall (λ ch, is_space ch = false) (list_ascii_of_string s).

(** A class name as [classIds] passes it on: not empty, without white
    space. *)
Definition is_token (name : string) : bool :=
  Builder.nonempty name && forallb (λ ch, negb (is_space ch)) (list_ascii_of_string name).

(** The declaration and the variants of the style of a name: the preset
    of the name, or the declaration of the utility token. *)
Definition declaration (name : string) : string * list (string * string) :=
  match Builder.SECTION_PRESETS name with
  | Some (sl, vs) => (sl, vs)
  | None => (Builder.tokenCss name, [])
  end.

(** The names that [classIds] passes to [ensureStyle], in this order. *)
Definition class_tokens (lst : list string) : list string :=
  filter (λ n, Builder.nonempty n)
    (flat_map (λ n, if bool_decide (n = "") then [] else split_ws (trim n)) lst).

Definition style_ids (s : Builder.state) : list string :=
  map Style._id (Builder.styles s).

Section Invariant.
Variable rnd : nat → string.

(** The id of a node comes from one of the first [d] calls of [uid], with
    the prefix of its kind. *)
Definition node_id_ok (d : nat) (n : node) : Prop :=
  ∃ k, k < d ∧ _id n = (if Extractor.is_text n then "t_" else "n_") +:+ rnd k.

(** The ids of the styles come from calls of [uid] in increasing order. *)
Definition style_ids_drawn (s : Builder.state) : Prop :=
  ∃ ks, style_ids s = map (λ k, "cls_" +:+ rnd k) ks ∧
        StronglySorted lt ks ∧ Forall (λ k, k < Builder.draws s) ks.

Record sound (s : Builder.state) : Prop := {
  sound_index : ∀ name id,
    Builder.styleIndex s !! name = Some id ↔
    ∃ st, st ∈ Builder.styles s ∧ Style.name st = name ∧ Style._id st = id;
  sound_names : NoDup (map Style.name (Builder.styles s));
  sound_tokens : Forall (λ st, is_token (Style.name st) = true) (Builder.styles s);
  sound_decl :
    Forall (λ st, (Style.styleLess st, Style.variants st) = declaration (Style.name st))
           (Builder.styles s);
  sound_classes : ∀ n c, n ∈ Builder.nodes s → c ∈ classes_of n → c ∈ style_ids s;
  sound_style_ids : style_ids_drawn s;
  sound_node_ids : Forall (node_id_ok (Builder.draws s)) (Builder.nodes s) }.

(** Between two statements of [built]: every id drawn is the id of a node
    or of a style. *)
Definition settled (s : Builder.state) : Prop :=
  sound s ∧ length (Builder.nodes s) + length (Builder.styles s) = Builder.draws s.

(** A node has been made and is not pushed yet. *)
Definition pending (n : node) (s : Builder.state) : Prop :=
  sound s ∧
  length (Builder.nodes s) + length (Builder.styles s) + 1 = Builder.draws s ∧
  node_id_ok (Builder.draws s) n ∧
  (∀ c, c ∈ classes_of n → c ∈ style_ids s).

(** The ids of a class list are ids of styles. *)
Definition resolved (cls : list string) (s : Builder.state) : Prop :=
  settled s ∧ ∀ c, c ∈ cls → c ∈ style_ids s.

End Invariant.

(** [m] started where [P] holds ends where [Q] holds of its result. *)
Definition hoare {A} (P : Builder.state → Prop) (m : Builder.M A)
    (Q : A → Builder.state → Prop) : Prop :=
  ∀ s, P s → Q (m s).1 (m s).2.

(** ** The ancestors of a node in the parent map *)

(** [q] is reached from [c] by one step or more of the parent map, through
    ids that are not empty. *)
Inductive above (parent : gmap string string) : string → string → Prop :=
  | above_parent c p : parent !! c = Some p → p ≠ "" → above parent c p
  | above_further c p q :
      parent !! c = Some p → p ≠ "" → above parent p q → above parent c q.

(** [x] is the id [cur], or above it. *)
Definition reach (parent : gmap string string) (cur : option string) (x : string) : Prop :=
  ∃ c, cur = Some c ∧ c ≠ "" ∧ (x = c ∨ above parent c x).

(** The parent of every id of the set is in the set. *)
Definition closed_up (parent : gmap string string) (set : list string) : Prop :=
  ∀ y p, y ∈ set → parent !! y = Some p → p ≠ "" → p ∈ set.

(** ** The cells of the editable table *)

(** The cell [j] of the row [i]: [None] where the arrays have no element,
    or a hole. *)
Definition cell_at (g : TablePreview.grid) (i j : nat) : option string :=
  r ← mjoin (g !! i); mjoin (r !! j).

(** ** Grids with rows of unequal length *)

(** The greatest number of cells of a row. *)
Definition widest (g : list (list string)) : nat := max_list (map length g).

(** A row with empty cells added up to [m] cells. *)
Definition pad (m : nat) (r : list string) : list string :=
  r ++ replicate (m - length r) "".

(** ** The number of nodes of a table *)

Fixpoint shape_size (s : shape) : nat :=
  match s with
  | SElem _ kids => S (sum_list (map shape_size kids))
  | SText _ => 1
  end.

(** The nodes of one cell: the cell, and with a source grid its text node,
    and the [span] around the text node when the fallback is set. *)
Definition cell_nodes (cfg : Builder.Config) : nat :=
  match Builder.csvData cfg with
  | Some _ => if Builder.useSpanFallback cfg then 3 else 2
  | None => 1
  end.

Definition row_nodes (cfg : Builder.Config) : nat := 1 + ncols cfg * cell_nodes cfg.

Definition node_count (cfg : Builder.Config) : nat :=
  1 + (if Builder.includeHead cfg then 1 + row_nodes cfg else 0)
    + (1 + nrows cfg * row_nodes cfg)
    + (if Builder.includeFoot cfg then 1 + row_nodes cfg else 0)
    + (if Builder.wrapInSection cfg then 5 else 0).

(** ** The tags of the elements that the builder makes *)

Definition element_tags : list string :=
  ["table"; "thead"; "tbody"; "tfoot"; "tr"; "th"; "td"; "span"; "div"].

Definition tagged_shape (s : shape) : bool :=
  match s with
  | SElem tg _ => bool_decide (tg ∈ element_tags)
  | SText _ => true
  end.

(** A node as the preview and the inspector show it: a text node, or an
    element with one of the tags of the builder. *)
Definition plain_node (n : node) : Prop :=
  (∃ id val, n = text_node id val) ∨
  (∃ id tg cls attrs ch, n = dom_node id tg cls attrs ch ∧ tg ∈ element_tags).

(** ** The classes of the wrapper chain *)

(** The names of the presets, from the outermost wrapper to the innermost. *)
Definition wrapper_names : list string :=
  ["section_table"; "padding-global"; "container-large"; "padding-section-medium";
   "table_component"].

(** The last nodes of the array carry one class each: the ids that the
    style index gives for [names], in this order. *)
Definition ends_classed (rnd : nat → string) (names : list string) (s : Builder.state)
  : Prop :=
  settled rnd s ∧
  ∃ L0 W, Builder.nodes s = L0 ++ W ∧
    Forall2 (λ n name, ∃ cid, classes n = Some [cid] ∧
                               Builder.styleIndex s !! name = Some cid) W names.

(** A grid with a short row, with the span fallback, a footer, class names
    and the wrapper chain. *)
Definition full_cfg : Builder.Config :=
  {| Builder.cols := 3; Builder.rows := 3;
     Builder.includeHead := true; Builder.includeFoot := true;
     Builder.wrapInSection := true;
     Builder.tableClass := "padding-global p-4"; Builder.theadClass := "";
     Builder.tbodyClass := "body"; Builder.tfootClass := "";
     Builder.cellClass := "cell p-4"; Builder.rowClass := "";
     Builder.useThInHead := true; Builder.addAriaRole := true;
     Builder.csvData := Some [["a"; "b"]; ["c"]]; Builder.csvHasHeaderRow := true;
     Builder.useSpanFallback := true |}.

(** ** Text of ASCII characters *)

(** A character below 128.  On a text of such characters the [trim], the
    [split(/\s+/)] and the [toLowerCase] of the program are [trim],
    [split_ws] and [toLowerCase] above: the white space among these
    characters is the tab, the line feed, the vertical tab, the form feed,
    the carriage return and the space, and the capitals among them are the
    letters A to Z. *)
Definition is_ascii (ch : ascii) : bool := (nat_of_ascii ch <? 128)%nat.

Definition ascii_text (s : string) : bool := forallb is_ascii (list_ascii_of_string s).

(** The class names of a configuration are ASCII texts. *)
Definition ascii_classes (cfg : Builder.Config) : Prop :=
  ascii_text (Builder.tableClass cfg) = true ∧ ascii_text (Builder.theadClass cfg) = true ∧
  ascii_text (Builder.tbodyClass cfg) = true ∧ ascii_text (Builder.tfootClass cfg) = true ∧
  ascii_text (Builder.cellClass cfg) = true ∧ ascii_text (Builder.rowClass cfg) = true.

(** ** Quotes written twice *)

(** A cell with its quotes doubled, as the specification words it: every
    quote of the cell is written twice and every other character once. *)
Definition quotes_doubled (cell : string) : string :=
  string_of_list_ascii
    (flat_map (λ ch, if Ascii.eqb ch dquote then [dquote; dquote] else [ch])
       (list_ascii_of_string cell)).

(** ** The style index and the style array *)

(** The index and the array agree: a name is filed under an id exactly when
    a record has the name and the id, and no two records share a name.
    This holds of the empty index and array that a run starts with. *)
Definition indexed (s : Builder.state) : Prop :=
  (∀ name id,
     Builder.styleIndex s !! name = Some id ↔
     ∃ st, st ∈ Builder.styles s ∧ Style.name st = name ∧ Style._id st = id) ∧
  NoDup (map Style.name (Builder.styles s)).

(** A source of identifiers whose second call returns the digits of the
    first call again. *)
Definition repeating_rnd (k : nat) : string :=
  if bool_decide (k = 1) then pretty 0 else pretty k.

(** * Facts about strings *)

Section StringFacts.

Lemma sapp_nil_l (s : string) : "" +:+ s = s.
Proof. reflexivity. Qed.

Lemma sapp_cons (a : ascii) (s t : string) : String a s +:+ t = String a (s +:+ t).
Proof. reflexivity. Qed.

Lemma sapp_nil_r (s : string) : s +:+ "" = s.
Proof. induction s as [|a s IH]; [reflexivity|]. by rewrite sapp_cons, IH. Qed.

Lemma sapp_assoc (a b c : string) : (a +:+ b) +:+ c = a +:+ (b +:+ c).
Proof. induction a as [|x a IH]; [reflexivity|]. by rewrite !sapp_cons, IH. Qed.

Lemma snoc_app (f : string) (ch : ascii) (c : string) :
  snoc f ch +:+ c = f +:+ String ch c.
Proof. unfold snoc. by rewrite sapp_assoc. Qed.

Lemma join_cons2 (sep x y : string) (l : list string) :
  join sep (x :: y :: l) = x +:+ sep +:+ join sep (y :: l).
Proof. reflexivity. Qed.

End StringFacts.

(** * Facts about the CSV codec *)

Module CSVFacts.
Import CSV.

Lemma loop_quoted (c rest : string) rows row field :
  no_quote_ahead rest →
  parse_loop (escaped c +:+ String dquote rest) rows row field true
  = parse_loop rest rows row (field +:+ c) false.
Proof.
  intros Hrest. revert field.
  induction c as [|a c IH]; intros field.
  - simpl. rewrite ?sapp_nil_r, ?sapp_nil_l.
    destruct rest as [|ch2 rest2]; [reflexivity|].
    simpl in Hrest. simpl. by rewrite Hrest.
  - simpl. destruct (Ascii.eqb a dquote) eqn:Ha.
    + apply Ascii.eqb_eq in Ha. subst a. rewrite ?sapp_cons. simpl.
      rewrite IH. by rewrite snoc_app.
    + rewrite ?sapp_cons. simpl. rewrite Ha. rewrite IH. by rewrite snoc_app.
Qed.

Lemma escaped_plain (c : string) : needsQuote c = false → escaped c = c.
Proof.
  unfold needsQuote. induction c as [|a c IH]; simpl; [done|].
  intros H. apply orb_false_elim in H as [Ha Hc].
  unfold special in Ha.
  destruct (Ascii.eqb a dquote); [done|]. by rewrite IH.
Qed.

Lemma loop_plain (c rest : string) rows row field :
  needsQuote c = false →
  parse_loop (c +:+ rest) rows row field false
  = parse_loop rest rows row (field +:+ c) false.
Proof.
  unfold needsQuote. revert field.
  induction c as [|a c IH]; intros field H; simpl in *.
  - by rewrite sapp_nil_r.
  - apply orb_false_elim in H as [Ha Hc]. unfold special in Ha.
    rewrite ?sapp_cons. simpl.
    destruct (Ascii.eqb a dquote); [done|].
    destruct (Ascii.eqb a comma); [done|].
    destruct (Ascii.eqb a LF); [done|].
    destruct (Ascii.eqb a CR); [done|].
    rewrite IH by done. by rewrite snoc_app.
Qed.

Lemma loop_cell (c rest : string) rows row :
  no_quote_ahead rest →
  parse_loop (stringifyCell c +:+ rest) rows row "" false
  = parse_loop rest rows row c false.
Proof.
  intros Hrest. unfold stringifyCell.
  destruct (needsQuote c) eqn:Hq.
  - rewrite sapp_cons, snoc_app.
    change (parse_loop (String dquote ?x) rows row "" false)
      with (parse_loop x rows row "" true).
    by rewrite loop_quoted.
  - rewrite escaped_plain by done. by rewrite loop_plain.
Qed.

Lemma last_cons_shift {A} (c c' : A) (cs : list A) :
  List.last (c' :: cs) c = List.last cs c'.
Proof.
  revert c c'. induction cs as [|x cs IH]; intros c c'; [done|].
  change (List.last (c' :: x :: cs) c) with (List.last (x :: cs) c).
  rewrite !IH. done.
Qed.

(** After a serialized row the row buffer holds all its cells but the last,
    which is in the field buffer. *)
Lemma loop_row (c : string) (cs : list string) (rest : string) rows row :
  no_quote_ahead rest →
  parse_loop (stringifyRow (c :: cs) +:+ rest) rows row "" false
  = parse_loop rest rows (row ++ removelast (c :: cs)) (List.last cs c) false.
Proof.
  intros Hrest. revert c row.
  induction cs as [|c' cs IH]; intros c row.
  - unfold stringifyRow. simpl. rewrite app_nil_r.
    by apply loop_cell.
  - change (stringifyRow (c :: c' :: cs))
      with (join "," (stringifyCell c :: stringifyCell c' :: map stringifyCell cs)).
    rewrite join_cons2.
    change (join "," (stringifyCell c' :: map stringifyCell cs))
      with (stringifyRow (c' :: cs)).
    rewrite !sapp_assoc. rewrite loop_cell by done.
    rewrite sapp_cons, sapp_nil_l.
    change (parse_loop (String "," ?x) rows row c false)
      with (parse_loop x rows (row ++ [c]) "" false).
    rewrite IH.
    change (removelast (c :: c' :: cs)) with (c :: removelast (c' :: cs)).
    rewrite last_cons_shift.
    by rewrite <- app_assoc.
Qed.

Lemma removelast_last (c : string) (cs : list string) :
  removelast (c :: cs) ++ [List.last cs c] = c :: cs.
Proof.
  revert c. induction cs as [|c' cs IH]; intros c; [done|].
  change (removelast (c :: c' :: cs)) with (c :: removelast (c' :: cs)).
  rewrite last_cons_shift, <- app_comm_cons.
  by rewrite IH.
Qed.

Lemma flush_row (rows : list (list string)) (c : string) (cs : list string) :
  c :: cs ≠ [""] →
  flush rows (removelast (c :: cs)) (List.last cs c) = rows ++ [c :: cs].
Proof.
  intros Hne. unfold flush. rewrite removelast_last.
  assert (bool_decide (1 < length (c :: cs))
          || bool_decide ((c :: cs) !! 0%nat ≠ Some "") = true) as ->; [|done].
  destruct cs as [|c' cs].
  - apply orb_true_iff. right. apply bool_decide_eq_true. simpl. congruence.
  - apply orb_true_iff. left. apply bool_decide_eq_true. simpl. lia.
Qed.

Lemma loop_grid (r : list string) (rs : list (list string)) rows :
  Forall (λ r, r ≠ []) (r :: rs) →
  List.last rs r ≠ [""] →
  parse_loop (stringifyCSV (r :: rs)) rows [] "" false = rows ++ r :: rs.
Proof.
  revert r rows. induction rs as [|r' rs IH]; intros r rows Hne Hlast.
  - destruct r as [|c cs]; [by inversion Hne|].
    unfold stringifyCSV. simpl map. simpl join.
    rewrite <- (sapp_nil_r (stringifyRow (c :: cs))).
    rewrite loop_row by done. simpl app.
    change (parse_loop "" ?a ?b ?c false) with (flush a b c).
    by apply flush_row.
  - destruct r as [|c cs]; [by inversion Hne|].
    change (stringifyCSV ((c :: cs) :: r' :: rs))
      with (join (String LF "") (stringifyRow (c :: cs) :: stringifyRow r' :: map stringifyRow rs)).
    rewrite join_cons2.
    change (join (String LF "") (stringifyRow r' :: map stringifyRow rs))
      with (stringifyCSV (r' :: rs)).
    rewrite loop_row by done.
    rewrite sapp_cons, sapp_nil_l.
    change (parse_loop (String LF ?x) ?a ?b ?c false)
      with (parse_loop x (a ++ [b ++ [c]]) [] "" false).
    rewrite app_nil_l, removelast_last.
    rewrite IH.
    + by rewrite <- app_assoc.
    + by inversion Hne.
    + by rewrite last_cons_shift in Hlast.
Qed.

(** The serialization of a grid. *)
Lemma parse_stringify_nonempty (g : list (list string)) :
  Forall (λ r, r ≠ []) g → List.last g [] ≠ [""] →
  parseCSV (stringifyCSV g) = g.
Proof.
  intros Hne Hlast. destruct g as [|r rs]; [reflexivity|].
  unfold parseCSV. rewrite loop_grid; [done|done|].
  by rewrite last_cons_shift in Hlast.
Qed.

End CSVFacts.

(** * Facts about trees of nodes *)

Section TreeFacts.

Lemma tree_ind' (P : tree → Prop) :
  (∀ id tg cls attrs kids, Forall P kids → P (TElem id tg cls attrs kids)) →
  (∀ id val, P (TText id val)) →
  ∀ t, P t.
Proof.
  intros HE HT. fix IH 1. intros [id tg cls attrs kids | id val]; [|apply HT].
  apply HE. induction kids as [|k kids IHk]; constructor; [apply IH | apply IHk].
Qed.

Lemma flatten_head (t : tree) : ∃ rest, flatten t = node_of t :: rest.
Proof. destruct t; simpl; eauto. Qed.

Lemma flatten_TElem id tg cls attrs kids :
  flatten (TElem id tg cls attrs kids)
  = dom_node id tg cls attrs (map root_id kids) :: concat (map flatten kids).
Proof. reflexivity. Qed.

Lemma shape_of_TElem id tg cls attrs kids :
  shape_of (TElem id tg cls attrs kids) = SElem tg (map shape_of kids).
Proof. reflexivity. Qed.

Lemma node_of_id (t : tree) : _id (node_of t) = root_id t.
Proof. by destruct t. Qed.

Lemma add_child_dom cid id tg cls attrs ch :
  Builder.add_child cid (dom_node id tg cls attrs ch) = dom_node id tg cls attrs (ch ++ [cid]).
Proof. reflexivity. Qed.

(** Appending a complete child to the element that is being built. *)
Lemma flatten_snoc id tg cls attrs kids (t : tree) :
  flatten (TElem id tg cls attrs (kids ++ [t]))
  = dom_node id tg cls attrs (map root_id kids ++ [root_id t])
    :: concat (map flatten kids) ++ flatten t.
Proof.
  rewrite flatten_TElem, !map_app, concat_app. simpl. by rewrite app_nil_r.
Qed.

Lemma alter_root {A} (f : A → A) (L : list A) (x : A) (rest : list A) :
  alter f (length L) (L ++ x :: rest) = L ++ f x :: rest.
Proof.
  rewrite <- (Nat.add_0_r (length L)) at 1. by rewrite alter_app_r.
Qed.

Lemma alter_app_len {A} (f : A → A) (L l : list A) :
  alter f (length L) (L ++ l) = L ++ alter f 0 l.
Proof.
  rewrite <- (Nat.add_0_r (length L)) at 1. by rewrite alter_app_r.
Qed.

End TreeFacts.

(** * Facts about the builder *)

Section DrawnFacts.
Variable rnd : nat → string.

Lemma drawn_nil d d' : drawn rnd d d' [].
Proof. exists []. repeat split; constructor. Qed.

Lemma drawn_app a b c x y :
  drawn rnd a b x → drawn rnd b c y → a ≤ b → b ≤ c → drawn rnd a c (x ++ y).
Proof.
  intros (k1 & M1 & S1 & B1) (k2 & M2 & S2 & B2) Hab Hbc.
  exists (k1 ++ k2). split; [by apply Forall2_app|]. split.
  - apply StronglySorted_app. split; [|done].
    intros i j Hi Hj.
    rewrite Forall_forall in B1, B2.
    specialize (B1 i Hi). specialize (B2 j Hj). lia.
  - apply Forall_app. split; eapply Forall_impl; eauto; simpl; intros; lia.
Qed.

Lemma drawn_mono a b a' b' x :
  drawn rnd a b x → a' ≤ a → b ≤ b' → drawn rnd a' b' x.
Proof.
  intros (k & M1 & S1 & B1) Ha Hb. exists k. repeat split; [done..|].
  eapply Forall_impl; eauto. simpl. intros. lia.
Qed.

Lemma drawn_n d : drawn rnd d (S d) ["n_" +:+ rnd d].
Proof.
  exists [d]. repeat split.
  - constructor; [by left | constructor].
  - repeat constructor.
  - repeat constructor; lia.
Qed.

Lemma drawn_t d : drawn rnd d (S d) ["t_" +:+ rnd d].
Proof.
  exists [d]. repeat split.
  - constructor; [by right | constructor].
  - repeat constructor.
  - repeat constructor; lia.
Qed.

Lemma made_eq (k1 k2 : nat) (i1 i2 : string) :
  (i1 = "n_" +:+ rnd k1 ∨ i1 = "t_" +:+ rnd k1) →
  (i2 = "n_" +:+ rnd k2 ∨ i2 = "t_" +:+ rnd k2) →
  i1 = i2 → rnd k1 = rnd k2.
Proof.
  intros [-> | ->] [-> | ->] H; rewrite ?sapp_cons, ?sapp_nil_l in H;
    by inversion H.
Qed.

(** Distinct draws give distinct ids. *)
Lemma drawn_NoDup d ids : uid_fresh rnd d → drawn rnd 0 d ids → NoDup ids.
Proof.
  intros Hfresh (ks & Hmade & Hsort & Hbound).
  assert (Hinj : ∀ i j, i < d → j < d → rnd i = rnd j → i = j).
  { intros i j Hi Hj Heq. unfold uid_fresh in Hfresh.
    eapply (NoDup_lookup _ i j (rnd i)) in Hfresh; [done| |].
    - rewrite list_lookup_fmap, lookup_seq_lt by done. done.
    - rewrite list_lookup_fmap, lookup_seq_lt by done. simpl. by rewrite Heq. }
  clear Hfresh. revert Hsort Hbound.
  induction Hmade as [|id k ids ks Hid Hm IH]; intros Hsort Hbound; [constructor|].
  apply StronglySorted_cons in Hsort as [Hlt Hsort].
  apply Forall_cons in Hbound as [Hk Hbound].
  constructor; [|by apply IH].
  intros Hin. apply list_elem_of_lookup in Hin as [i Hi].
  destruct (Forall2_lookup_l _ _ _ _ _ Hm Hi) as (k' & Hk' & Hid').
  assert (rnd k = rnd k') as Heq by (eapply made_eq; eauto).
  apply Hinj in Heq; [|lia|].
  - subst k'. rewrite Forall_forall in Hlt.
    apply list_elem_of_lookup_2 in Hk'. specialize (Hlt _ Hk'). lia.
  - rewrite Forall_forall in Hbound.
    apply list_elem_of_lookup_2 in Hk'. specialize (Hbound _ Hk'). lia.
Qed.

End DrawnFacts.

Section RunFacts.
Variable rnd : nat → string.
Variable cfg : Builder.Config.

Import Builder.

(** *** The operations that leave [nodes] alone *)

Lemma ensureStyle_frame (name : string) (s : state) :
  nodes (ensureStyle rnd name s).2 = nodes s ∧
  draws s ≤ draws (ensureStyle rnd name s).2.
Proof.
  unfold ensureStyle.
  destruct (bool_decide (name = "") || bool_decide (trim name = "")); [done|].
  destruct (styleIndex s !! name); [done|].
  unfold bind. simpl.
  destruct (match SECTION_PRESETS name with
            | Some (sl, vs) => (sl, vs)
            | None => (tailwindToStyleLess name, [])
            end) as [sl vs].
  simpl. split; [done | lia].
Qed.

Lemma mapM_ensureStyle_frame (l : list string) (s : state) :
  nodes (mapM (ensureStyle rnd) l s).2 = nodes s ∧
  draws s ≤ draws (mapM (ensureStyle rnd) l s).2.
Proof.
  revert s. induction l as [|x l IH]; intros s; [done|].
  cbn [mapM bind ret fst snd].
  destruct (ensureStyle_frame x s) as [Hn Hd].
  destruct (IH (ensureStyle rnd x s).2) as [Hn' Hd'].
  split; [congruence | lia].
Qed.

Lemma classIds_frame (l : list string) (s : state) :
  nodes (classIds rnd l s).2 = nodes s ∧ draws s ≤ draws (classIds rnd l s).2.
Proof. unfold classIds. cbn [bind ret fst snd]. apply mapM_ensureStyle_frame. Qed.

Lemma makeDomNode_run tg cls attrs (s : state) :
  makeDomNode rnd tg cls attrs false s
  = (dom_node ("n_" +:+ rnd (draws s)) tg cls attrs [],
     {| nodes := nodes s; styles := styles s; styleIndex := styleIndex s;
        draws := S (draws s) |}).
Proof. reflexivity. Qed.

Lemma makeTextNode_run val (s : state) :
  makeTextNode rnd val s
  = (text_node ("t_" +:+ rnd (draws s)) val,
     {| nodes := nodes s; styles := styles s; styleIndex := styleIndex s;
        draws := S (draws s) |}).
Proof. reflexivity. Qed.

(** *** One element with its children *)

Lemma frames_classIds (l : list string) : frames _ (classIds rnd l).
Proof. intros s. apply classIds_frame. Qed.

Lemma frames_ret {A} (a : A) : frames _ (ret a).
Proof. intros s. simpl. split; [done | lia]. Qed.

(** An element pushed with no child, then filled. *)
Lemma open_fill (mcls : M (list string)) (tg : string)
    (fill : ref → M unit) (Ψ : list tree → Prop) :
  frames _ mcls →
  (∀ r, fills rnd r (fill r) Ψ) →
  makes_tree rnd
    (cls <- mcls ;;
     n <- makeDomNode rnd tg cls [] false ;;
     r <- push n ;;
     fill r ;;
     ret r)
    (λ t, ∃ id cls ts, t = TElem id tg cls [] ts ∧ Ψ ts).
Proof.
  intros Hfr Hfill s.
  destruct (Hfr s) as [Hn1 Hd1].
  set (s1 := (mcls s).2) in *. set (cls := (mcls s).1).
  set (id := "n_" +:+ rnd (draws s1)).
  set (r := {| ref_index := length (nodes s1); ref_id := id |}).
  set (s2 := {| nodes := nodes s1 ++ [dom_node id tg cls [] []]; styles := styles s1;
                styleIndex := styleIndex s1; draws := S (draws s1) |}).
  destruct (Hfill r s2 (nodes s) tg cls [] []) as (ts & Hn & HΨ & Hdr & Hd).
  { subst r s2. simpl. by rewrite Hn1. }
  { subst r. simpl. by rewrite Hn1. }
  exists (TElem id tg cls [] ts). split; [|split; [|split; [|split]]].
  - exact Hn.
  - rewrite <- Hn1. reflexivity.
  - eauto.
  - rewrite flatten_TElem. cbn [map _id dom_node].
    change (id :: ?l) with ([id] ++ l).
    change (draws (_ s).2) with (draws (fill r s2).2).
    eapply drawn_app; [| exact Hdr | |]; simpl in *; [|lia..].
    eapply drawn_mono; [apply drawn_n | lia | lia].
  - change (draws (_ s).2) with (draws (fill r s2).2). simpl in *. lia.
Qed.

(** A text node is a tree of its own. *)
Lemma text_makes_tree (val : string) :
  makes_tree rnd (n <- makeTextNode rnd val ;; push n) (λ t, ∃ id, t = TText id val).
Proof.
  intros s. exists (TText ("t_" +:+ rnd (draws s)) val).
  split; [reflexivity|]. split; [reflexivity|]. split; [eauto|].
  split; [apply drawn_t | simpl; lia].
Qed.

(** The id of a complete tree is appended to the children of the open
    element. *)
Lemma fills_attach (parent : ref) (m : M ref) (Φ : tree → Prop) :
  makes_tree rnd m Φ →
  fills rnd parent (t <- m ;; children_push parent (ref_id t)) (λ ts, ∃ t, ts = [t] ∧ Φ t).
Proof.
  intros Hm s L tg cls attrs kids Hn Hidx.
  destruct (Hm s) as (t & Hn' & Hr & HΦ & Hdr & Hd).
  exists [t]. split; [|split; [eauto|split]].
  - cbn [bind children_push snd nodes]. rewrite Hr. cbn [ref_id].
    rewrite Hn', Hn, Hidx, flatten_TElem.
    rewrite <- (app_assoc L). cbn [app].
    rewrite alter_root, add_child_dom, flatten_snoc. done.
  - simpl. by rewrite app_nil_r.
  - exact Hd.
Qed.

Lemma fills_ret (parent : ref) : fills rnd parent (ret tt) (λ ts, ts = []).
Proof.
  intros s L tg cls attrs kids Hn Hidx. exists [].
  rewrite app_nil_r. simpl. split; [done|]. split; [done|].
  split; [apply drawn_nil | lia].
Qed.

Lemma fills_seq (parent : ref) (m1 m2 : M unit) (Ψ1 Ψ2 : list tree → Prop) :
  fills rnd parent m1 Ψ1 → fills rnd parent m2 Ψ2 →
  fills rnd parent (m1 ;; m2) (λ ts, ∃ a b, ts = a ++ b ∧ Ψ1 a ∧ Ψ2 b).
Proof.
  intros H1 H2 s L tg cls attrs kids Hn Hidx.
  destruct (H1 s L tg cls attrs kids Hn Hidx) as (a & Hn1 & HΨ1 & Hdr1 & Hd1).
  destruct (H2 (m1 s).2 L tg cls attrs (kids ++ a) Hn1 Hidx) as (b & Hn2 & HΨ2 & Hdr2 & Hd2).
  exists (a ++ b). change ((m1 ;; m2) s) with (m2 (m1 s).2).
  split; [|split; [|split]].
  - by rewrite (app_assoc kids).
  - by exists a, b.
  - rewrite map_app, concat_app, map_app. eapply drawn_app; eauto.
  - lia.
Qed.

Lemma fills_forM {A} (parent : ref) (body : A → M unit) (Φ : A → tree → Prop)
    (ks : list A) :
  (∀ k, fills rnd parent (body k) (λ ts, ∃ t, ts = [t] ∧ Φ k t)) →
  fills rnd parent (forM ks body) (λ ts, Forall2 Φ ks ts).
Proof.
  intros Hbody. induction ks as [|k ks IH].
  - intros s L tg cls attrs kids Hn Hidx.
    destruct (fills_ret parent s L tg cls attrs kids Hn Hidx) as (ts & ? & -> & ? & ?).
    exists []. repeat split; first [done | constructor].
  - intros s L tg cls attrs kids Hn Hidx.
    destruct (fills_seq parent _ _ _ _ (Hbody k) IH s L tg cls attrs kids Hn Hidx)
      as (ts & Hn' & (a & b & -> & (t & -> & HΦ) & Hb) & Hdr & Hd).
    exists ([t] ++ b). repeat split; first [done | by constructor].
Qed.

Lemma makes_tree_impl (m : M ref) (Φ Φ' : tree → Prop) :
  makes_tree rnd m Φ → (∀ t, Φ t → Φ' t) → makes_tree rnd m Φ'.
Proof.
  intros Hm Himp s. destruct (Hm s) as (t & ? & ? & ? & ? & ?).
  exists t. eauto 10.
Qed.

Lemma fills_impl (r : ref) (m : M unit) (Ψ Ψ' : list tree → Prop) :
  fills rnd r m Ψ → (∀ ts, Ψ ts → Ψ' ts) → fills rnd r m Ψ'.
Proof.
  intros Hm Himp s L tg cls attrs kids Hn Hidx.
  destruct (Hm s L tg cls attrs kids Hn Hidx) as (ts & ? & ? & ? & ?).
  exists ts. eauto 10.
Qed.

Lemma Forall2_shape {A} (f : A → shape) (ks : list A) (ts : list tree) :
  Forall2 (λ k t, shape_of t = f k) ks ts → map shape_of ts = map f ks.
Proof. induction 1; simpl; congruence. Qed.

(** *** Cells, rows and sections *)

Lemma span_makes_tree (val : string) :
  makes_tree rnd
    (spanN <- makeDomNode rnd "span" [] [] false ;;
     span <- push spanN ;;
     tnN <- makeTextNode rnd val ;;
     tn <- push tnN ;;
     children_push span (ref_id tn) ;;
     ret span)
    (λ t, shape_of t = SElem "span" [SText val]).
Proof.
  eapply makes_tree_impl.
  - apply (open_fill (ret []) "span"
             (λ r, t <- (n <- makeTextNode rnd val ;; push n) ;;
                   children_push r (ref_id t))).
    + apply frames_ret.
    + intros r. apply fills_attach, text_makes_tree.
  - intros t (id & cls & ts & -> & t' & -> & id' & ->). reflexivity.
Qed.

Lemma makeCell_fills (tr : ref) (sectionTag : string) (rIndex c : nat) :
  fills rnd tr (makeCell rnd cfg tr sectionTag rIndex c)
    (λ ts, ∃ t, ts = [t] ∧ shape_of t = cell_shape cfg sectionTag rIndex c).
Proof.
  apply (fills_attach tr
    (cls <- classIds rnd (opt_class (cellClass cfg)) ;;
     cellN <- makeDomNode rnd (cellTag cfg sectionTag) cls [] false ;;
     cell <- push cellN ;;
     (match csvData cfg with
      | Some _ =>
          if useSpanFallback cfg then
            spanN <- makeDomNode rnd "span" [] [] false ;;
            span <- push spanN ;;
            tnN <- makeTextNode rnd (textValue cfg sectionTag rIndex c) ;;
            tn <- push tnN ;;
            children_push span (ref_id tn) ;;
            children_push cell (ref_id span)
          else
            tnN <- makeTextNode rnd (textValue cfg sectionTag rIndex c) ;;
            tn <- push tnN ;;
            children_push cell (ref_id tn)
      | None => ret tt
      end) ;;
     ret cell)).
  eapply makes_tree_impl.
  - apply (open_fill _ _ _
       (λ ts, map shape_of ts =
              match csvData cfg with
              | Some _ =>
                  if useSpanFallback cfg
                  then [SElem "span" [SText (textValue cfg sectionTag rIndex c)]]
                  else [SText (textValue cfg sectionTag rIndex c)]
              | None => []
              end)); [apply frames_classIds|].
    intros r. destruct (csvData cfg) as [d|].
    + destruct (useSpanFallback cfg).
      * eapply fills_impl.
        -- apply (fills_attach r _ _ (span_makes_tree (textValue cfg sectionTag rIndex c))).
        -- intros ts (t & -> & Ht). simpl. by rewrite Ht.
      * eapply fills_impl.
        -- apply (fills_attach r _ _ (text_makes_tree (textValue cfg sectionTag rIndex c))).
        -- intros ts (t & -> & id & ->). reflexivity.
    + eapply fills_impl; [apply fills_ret|]. by intros ts ->.
  - intros t (id & cls & ts & -> & Hts). unfold cell_shape. simpl. by rewrite Hts.
Qed.

Lemma makeRow_makes_tree (sectionTag : string) (rIndex : nat) :
  makes_tree rnd (makeRow rnd cfg sectionTag rIndex)
    (λ t, shape_of t = row_shape cfg sectionTag rIndex).
Proof.
  eapply makes_tree_impl.
  - apply (open_fill _ "tr"
             (λ tr, forM (seq 0 (iterations (cellCount cfg)))
                      (makeCell rnd cfg tr sectionTag rIndex))).
    + apply frames_classIds.
    + intros tr. apply fills_forM. intros c. apply makeCell_fills.
  - intros t (id & cls & ts & -> & Hts). unfold row_shape. simpl.
    by rewrite (Forall2_shape _ _ _ Hts).
Qed.

Lemma makeSection_makes_tree (sectionTag className : string) :
  makes_tree rnd (makeSection rnd cfg sectionTag className)
    (λ t, shape_of t = single_row_section cfg sectionTag).
Proof.
  eapply makes_tree_impl.
  - apply (open_fill _ sectionTag
             (λ sec, tr <- makeRow rnd cfg sectionTag 0 ;;
                     children_push sec (ref_id tr))).
    + apply frames_classIds.
    + intros sec. apply fills_attach, makeRow_makes_tree.
  - intros t (id & cls & ts & -> & t' & -> & Ht). unfold single_row_section.
    simpl. by rewrite Ht.
Qed.

Lemma tbody_makes_tree :
  makes_tree rnd (tbodyPhase rnd cfg) (λ t, shape_of t = tbody_shape cfg).
Proof.
  eapply makes_tree_impl.
  - apply (open_fill _ "tbody"
             (λ tbody, forM (seq 0 (iterations (bodyRowCount cfg)))
                (λ r, tr <- makeRow rnd cfg "tbody" r ;;
                      children_push tbody (ref_id tr)))).
    + apply frames_classIds.
    + intros tbody. apply fills_forM. intros r.
      apply fills_attach, makeRow_makes_tree.
  - intros t (id & cls & ts & -> & Hts). unfold tbody_shape. simpl.
    by rewrite (Forall2_shape _ _ _ Hts).
Qed.

(** *** The whole run *)

Lemma makeWrapper_makes_tree (className : string) :
  makes_tree rnd (makeWrapper rnd className)
    (λ t, ∃ id cls, t = TElem id "div" cls [] []).
Proof.
  eapply makes_tree_impl.
  - apply (open_fill (classIds rnd [className]) "div" (λ _, ret tt)).
    + apply frames_classIds.
    + intros r. apply fills_ret.
  - intros t (id & cls & ts & -> & ->). eauto.
Qed.

(** A section that is built only when its flag is set. *)
Lemma opt_section (flag : bool) (sectionTag className : string) (s : state) :
  let m := optSection rnd cfg flag sectionTag className in
  ∃ ts,
    nodes (m s).2 = nodes s ++ concat (map flatten ts) ∧
    map shape_of ts = (if flag then [single_row_section cfg sectionTag] else []) ∧
    ref_id <$> (m s).1 = head (map root_id ts) ∧
    drawn rnd (draws s) (draws (m s).2) (map _id (concat (map flatten ts))) ∧
    draws s ≤ draws (m s).2.
Proof.
  unfold optSection. destruct flag; cbv zeta.
  - destruct (makeSection_makes_tree sectionTag className s)
      as (t & Hn & Hr & Hs & Hdr & Hd).
    exists [t].
    change ((r <- makeSection rnd cfg sectionTag className ;; ret (Some r)) s)
      with (Some (makeSection rnd cfg sectionTag className s).1,
            (makeSection rnd cfg sectionTag className s).2).
    cbn [fst snd map concat]. rewrite app_nil_r, Hs, Hr. done.
  - exists []. simpl. rewrite app_nil_r. repeat split; try done.
    apply drawn_nil.
Qed.

(** The ids of the sections are appended to the children of the table,
    which is the first node. *)
Lemma link_nodes (table : ref) (o : option ref) (s : state) n0 rest :
  ref_index table = 0 → nodes s = n0 :: rest →
  nodes (link table o s).2
  = foldl (λ n c, add_child c n) n0 (option_list (ref_id <$> o)) :: rest.
Proof.
  intros Hidx Hn. destruct o as [h|]; simpl; [|done].
  by rewrite Hidx, Hn.
Qed.

Lemma foldl_add_child id tg cls attrs ch (cs : list string) :
  foldl (λ n c, add_child c n) (dom_node id tg cls attrs ch) cs
  = dom_node id tg cls attrs (ch ++ cs).
Proof.
  revert ch. induction cs as [|c cs IH]; intros ch; simpl.
  - by rewrite app_nil_r.
  - rewrite add_child_dom, IH. by rewrite <- app_assoc.
Qed.

Lemma wrapPhase_spec (table : ref) (s : state) :
  ∃ W, nodes (wrapPhase rnd cfg table s).2 = nodes s ++ W ∧
       (if wrapInSection cfg then wrappers W (ref_id table) else W = []) ∧
       drawn rnd (draws s) (draws (wrapPhase rnd cfg table s).2) (map _id W) ∧
       draws s ≤ draws (wrapPhase rnd cfg table s).2.
Proof.
  unfold wrapPhase. destruct (wrapInSection cfg).
  2:{ exists []. simpl. rewrite app_nil_r. repeat split; try done. apply drawn_nil. }
  unfold bind, ret. cbn [fst snd].
  destruct (makeWrapper_makes_tree "section_table" s)
    as (t1 & Hn1 & Hr1 & (i1 & c1 & ->) & Hdr1 & Hd1).
  destruct (makeWrapper rnd "section_table" s) as [o1 s1].
  cbn [fst snd] in *. subst o1.
  destruct (makeWrapper_makes_tree "padding-global" s1)
    as (t2 & Hn2 & Hr2 & (i2 & c2 & ->) & Hdr2 & Hd2).
  destruct (makeWrapper rnd "padding-global" s1) as [o2 s2].
  cbn [fst snd] in *. subst o2.
  destruct (makeWrapper_makes_tree "container-large" s2)
    as (t3 & Hn3 & Hr3 & (i3 & c3 & ->) & Hdr3 & Hd3).
  destruct (makeWrapper rnd "container-large" s2) as [o3 s3].
  cbn [fst snd] in *. subst o3.
  destruct (makeWrapper_makes_tree "padding-section-medium" s3)
    as (t4 & Hn4 & Hr4 & (i4 & c4 & ->) & Hdr4 & Hd4).
  destruct (makeWrapper rnd "padding-section-medium" s3) as [o4 s4].
  cbn [fst snd] in *. subst o4.
  destruct (makeWrapper_makes_tree "table_component" s4)
    as (t5 & Hn5 & Hr5 & (i5 & c5 & ->) & Hdr5 & Hd5).
  destruct (makeWrapper rnd "table_component" s4) as [o5 s5].
  cbn [fst snd] in *. subst o5.
  cbn [flatten map concat root_id app] in *.
  cbn [children_push fst snd nodes draws ref_index ref_id].
  exists [dom_node i1 "div" c1 [] [i2]; dom_node i2 "div" c2 [] [i3];
          dom_node i3 "div" c3 [] [i4]; dom_node i4 "div" c4 [] [i5];
          dom_node i5 "div" c5 [] [ref_id table]].
  split; [|split; [|split]].
  - rewrite Hn5, Hn4, Hn3, Hn2, Hn1. rewrite !length_app. cbn [length].
    rewrite <- !app_assoc, <- !Nat.add_assoc. cbn [app Nat.add].
    rewrite alter_app_len. rewrite !(alter_app_r _ (nodes s)). reflexivity.
  - by exists i1, i2, i3, i4, i5, c1, c2, c3, c4, c5.
  - change [dom_node i1 "div" c1 [] [i2]; dom_node i2 "div" c2 [] [i3];
            dom_node i3 "div" c3 [] [i4]; dom_node i4 "div" c4 [] [i5];
            dom_node i5 "div" c5 [] [ref_id table]]
      with ([dom_node i1 "div" c1 [] [i2]] ++ [dom_node i2 "div" c2 [] [i3]]
            ++ [dom_node i3 "div" c3 [] [i4]] ++ [dom_node i4 "div" c4 [] [i5]]
            ++ [dom_node i5 "div" c5 [] [ref_id table]]).
    rewrite !map_app.
    eapply drawn_app; [exact Hdr1| |lia|lia].
    eapply drawn_app; [exact Hdr2| |lia|lia].
    eapply drawn_app; [exact Hdr3| |lia|lia].
    eapply drawn_app; [exact Hdr4|exact Hdr5|lia|lia].
  - lia.
Qed.

Lemma build_phases_eq : build rnd cfg = build_phases rnd cfg.
Proof. reflexivity. Qed.

Lemma option_list_head {A} (l : list A) : length l ≤ 1 → option_list (head l) = l.
Proof. destruct l as [|x [|y l]]; simpl; intros; [done | done | lia]. Qed.

Lemma opt_shape_length (flag : bool) (x : shape) (ts : list tree) :
  map shape_of ts = (if flag then [x] else []) → length ts ≤ 1.
Proof.
  intros H. apply (f_equal length) in H. rewrite length_map in H.
  destruct flag; simpl in H; lia.
Qed.

(** The node array of a run: the table in preorder, then the wrappers;
    the ids in the order of the draws. *)
Theorem build_laid_out :
  ∃ T W, laid_out cfg (nodes (final rnd cfg)) T W ∧
         drawn rnd 0 (draws (final rnd cfg)) (map _id (nodes (final rnd cfg))) ∧
         ∃ id kids,
           T = TElem id "table" (classIds rnd (opt_class (tableClass cfg)) init).1
                 (tableAttrs cfg) kids.
Proof.
  unfold final. rewrite build_phases_eq. unfold build_phases, bind. cbn [fst snd].
  destruct (classIds_frame (opt_class (tableClass cfg)) init) as [Hn1 Hd1].
  destruct (classIds rnd (opt_class (tableClass cfg)) init) as [cls s1].
  cbn [fst snd] in *. rewrite makeDomNode_run. cbn [fst snd push nodes draws styles styleIndex].
  change (nodes init) with (@nil node) in Hn1. rewrite Hn1. cbn [app length].
  set (id0 := "n_" +:+ rnd (draws s1)).
  set (table := {| ref_index := 0; ref_id := _ |}).
  set (sA := {| nodes := [_]; styles := _; styleIndex := _; draws := _ |}).
  destruct (opt_section (includeHead cfg) "thead" (theadClass cfg) sA)
    as (ths & HnB & HsB & HrB & HdrB & HdB).
  destruct (optSection rnd cfg (includeHead cfg) "thead" (theadClass cfg) sA)
    as [ohead sB].
  cbn [fst snd] in *.
  destruct (tbody_makes_tree sB) as (tb & HnC & HrC & HsC & HdrC & HdC).
  destruct (tbodyPhase rnd cfg sB) as [obody sC]. cbn [fst snd] in *.
  destruct (opt_section (includeFoot cfg) "tfoot" (tfootClass cfg) sC)
    as (tfs & HnD & HsD & HrD & HdrD & HdD).
  destruct (optSection rnd cfg (includeFoot cfg) "tfoot" (tfootClass cfg) sC)
    as [ofoot sD].
  cbn [fst snd] in *.
  set (sE := (link table ofoot (link table (Some obody) (link table ohead sD).2).2).2).
  destruct (wrapPhase_spec table sE) as (W & HnF & HW & HdrF & HdF).
  pose proof (opt_shape_length _ _ _ HsB) as Hlh.
  pose proof (opt_shape_length _ _ _ HsD) as Hlf.
  set (T := TElem id0 "table" cls (tableAttrs cfg) (ths ++ [tb] ++ tfs)).
  assert (HnE : nodes sE = flatten T).
  { subst sE.
    erewrite link_nodes; [|done|]. 2:{
    erewrite link_nodes; [|done|]. 2:{
    erewrite link_nodes; [|done|]. 2:{
      rewrite HnD, HnC, HnB. simpl. rewrite <- !app_assoc. reflexivity. }
    reflexivity. } reflexivity. }
    rewrite !foldl_add_child, HrB, HrD, HrC. cbn [fmap option_fmap option_map ref_id option_list].
    rewrite !option_list_head by (by rewrite length_map).
    subst T. rewrite flatten_TElem, !map_app, !concat_app. simpl.
    by rewrite app_nil_r, <- app_assoc. }
  assert (HdE : draws sE = draws sD).
  { subst sE. unfold link. destruct ofoot, ohead; reflexivity. }
  exists T, W. split; [split; [|split]|split; [|by exists id0, (ths ++ [tb] ++ tfs)]].
  - by rewrite HnF, HnE.
  - subst T. rewrite shape_of_TElem, !map_app, HsB, HsD. cbn [map]. rewrite HsC.
    reflexivity.
  - exact HW.
  - rewrite HnF, HnE, map_app.
    eapply drawn_app; [| exact HdrF | lia | lia].
    rewrite HdE. subst T. rewrite flatten_TElem. cbn [map _id dom_node].
    rewrite (map_app flatten), concat_app, (map_app _id).
    rewrite (map_app flatten), concat_app, (map_app _id).
    cbn [map concat]. rewrite app_nil_r.
    change (id0 :: ?l) with ([id0] ++ l).
    eapply (drawn_app _ _ (draws sA)); [| | simpl; lia | lia].
    { eapply drawn_mono; [apply (drawn_n rnd (draws s1)) | simpl in *; lia | simpl; lia]. }
    eapply drawn_app; [exact HdrB| |lia|lia].
    eapply drawn_app; [exact HdrC|exact HdrD|lia|lia].
Qed.

End RunFacts.

(** * Facts about the extractor *)

Section IndexFacts.

Lemma indexById_snoc (L : list node) (x : node) :
  Extractor.indexById (L ++ [x]) = <[_id x := x]> (Extractor.indexById L).
Proof. unfold Extractor.indexById. by rewrite foldl_app. Qed.

(** With distinct ids the index maps the id of every node to the node. *)
Lemma indexById_lookup (L : list node) (n : node) :
  NoDup (map _id L) → n ∈ L → Extractor.indexById L !! _id n = Some n.
Proof.
  induction L as [|x L IH] using rev_ind; intros Hnd Hin.
  - by apply elem_of_nil in Hin.
  - rewrite indexById_snoc. rewrite map_app in Hnd.
    apply NoDup_app in Hnd as (Hnd & Hdisj & _).
    apply elem_of_app in Hin as [Hin | Hin].
    + rewrite lookup_insert_ne; [by apply IH|].
      intros Heq. apply (Hdisj (_id n)).
      * apply list_elem_of_fmap. eauto.
      * rewrite <- Heq. simpl. apply list_elem_of_singleton. done.
    + apply list_elem_of_singleton in Hin. subst. by rewrite lookup_insert_eq.
Qed.

(** Every key of the index is the id of a node. *)
Lemma indexById_Some (L : list node) (k : string) (n : node) :
  Extractor.indexById L !! k = Some n → n ∈ L ∧ _id n = k.
Proof.
  induction L as [|x L IH] using rev_ind; intros H.
  - unfold Extractor.indexById in H. simpl in H. by rewrite lookup_empty in H.
  - rewrite indexById_snoc in H. destruct (decide (_id x = k)) as [<-|Hne].
    + rewrite lookup_insert_eq in H. inversion H; subst.
      split; [|done]. apply elem_of_app. right. by apply list_elem_of_singleton.
    + rewrite lookup_insert_ne in H by done.
      destruct (IH H) as [? ?]. split; [|done]. apply elem_of_app. by left.
Qed.

Lemma indexById_is_Some (L : list node) (n : node) :
  n ∈ L → is_Some (Extractor.indexById L !! _id n).
Proof.
  induction L as [|x L IH] using rev_ind; intros Hin.
  - by apply elem_of_nil in Hin.
  - rewrite indexById_snoc. destruct (decide (_id x = _id n)) as [->|Hne].
    + rewrite lookup_insert_eq. eauto.
    + rewrite lookup_insert_ne by done. apply IH.
      apply elem_of_app in Hin as [Hin | Hin]; [done|].
      apply list_elem_of_singleton in Hin. by subst.
Qed.

End IndexFacts.

Section TreeReading.

Lemma flatten_root (t : tree) : node_of t ∈ flatten t.
Proof. destruct t; simpl; apply elem_of_cons; by left. Qed.

Lemma flatten_kid id tg cls attrs kids (k : tree) :
  k ∈ kids → flatten k ⊆ flatten (TElem id tg cls attrs kids).
Proof.
  intros Hk n Hn. rewrite flatten_TElem. apply elem_of_cons. right.
  apply list_elem_of_In, in_concat. exists (flatten k). split.
  - apply in_map. by apply list_elem_of_In.
  - by apply list_elem_of_In.
Qed.

Lemma raw_tag_node_of (t : tree) :
  toLowerCase (raw_tag (node_of t)) = shape_norm_tag (shape_of t).
Proof.
  destruct t as [id tg cls attrs kids | id val]; [|reflexivity].
  unfold raw_tag. simpl. by destruct (bool_decide (tg = "")).
Qed.

Lemma has_tag_node_of (tg : string) (t : tree) :
  Extractor.has_tag tg (node_of t) = sh_has_tag tg (shape_of t).
Proof.
  unfold Extractor.has_tag, sh_has_tag, Extractor.normalizeTag.
  by rewrite raw_tag_node_of.
Qed.

Lemma height_shape (t : tree) : sh_height (shape_of t) = height t.
Proof.
  induction t as [id tg cls attrs kids IH | id val] using tree_ind'; [|done].
  simpl. f_equal. induction IH as [|k kids Hk _ IHk]; simpl; [done|].
  by rewrite Hk, IHk.
Qed.

Lemma filter_map_node_of (P : node → bool) (Q : shape → bool) (kids : list tree) :
  (∀ k, P (node_of k) = Q (shape_of k)) →
  filter (λ n, P n) (map node_of kids) = map node_of (filter (λ k, Q (shape_of k)) kids).
Proof.
  intros HPQ. induction kids as [|k kids IH]; [done|].
  cbn [map]. rewrite !filter_cons, IH, HPQ.
  by destruct (Q (shape_of k)).
Qed.

Lemma filter_map_shape_of (Q : shape → bool) (kids : list tree) :
  filter (λ s, Q s) (map shape_of kids) = map shape_of (filter (λ k, Q (shape_of k)) kids).
Proof.
  induction kids as [|k kids IH]; [done|].
  cbn [map]. rewrite !filter_cons, IH.
  by destruct (Q (shape_of k)).
Qed.

Lemma find_map_node_of (P : node → bool) (Q : shape → bool) (kids : list tree) :
  (∀ k, P (node_of k) = Q (shape_of k)) →
  find P (map node_of kids) = node_of <$> find (λ k, Q (shape_of k)) kids.
Proof.
  intros HPQ. induction kids as [|k kids IH]; [done|].
  simpl. rewrite HPQ, IH. by destruct (Q (shape_of k)).
Qed.

Lemma find_map_shape_of (Q : shape → bool) (kids : list tree) :
  find Q (map shape_of kids) = shape_of <$> find (λ k, Q (shape_of k)) kids.
Proof.
  induction kids as [|k kids IH]; [done|].
  simpl. rewrite IH. by destruct (Q (shape_of k)).
Qed.

Lemma find_In {A} (P : A → bool) (l : list A) (x : A) : find P l = Some x → x ∈ l.
Proof. intros H. apply find_some in H as [H _]. by apply list_elem_of_In. Qed.

Lemma filter_In {A} (P : A → Prop) `{∀ x, Decision (P x)} (l : list A) (x : A) :
  x ∈ filter P l → x ∈ l.
Proof. intros Hx. by apply list_elem_of_filter in Hx as [_ ?]. Qed.

End TreeReading.

Section Reading.
Variable L : list node.
Hypothesis Hnd : NoDup (map _id L).

Local Abbreviation idx := (Extractor.indexById L).

Lemma getTextFromNode_S (fuel : nat) (i : gmap string node) (n : node) :
  Extractor.getTextFromNode (S fuel) i (Some n)
  = if Extractor.is_text n then Some (default "" (v n))
    else text_loop (Extractor.getTextFromNode fuel i) i (children_of n).
Proof. reflexivity. Qed.

Lemma lookup_tree (t : tree) : flatten t ⊆ L → idx !! root_id t = Some (node_of t).
Proof.
  intros Hsub. rewrite <- node_of_id. apply indexById_lookup; [done|].
  apply Hsub, flatten_root.
Qed.

Lemma omap_kids (kids : list tree) :
  Forall (λ k, flatten k ⊆ L) kids →
  omap (λ id, idx !! id) (map root_id kids) = map node_of kids.
Proof.
  induction 1 as [|k kids Hk _ IH]; [done|].
  cbn [map omap list_omap]. rewrite (lookup_tree k Hk). simpl.
  f_equal. exact IH.
Qed.

Lemma kids_within id tg cls attrs kids :
  flatten (TElem id tg cls attrs kids) ⊆ L → Forall (λ k, flatten k ⊆ L) kids.
Proof.
  intros Hsub. apply Forall_forall. intros k Hk n Hn.
  apply Hsub. by apply (flatten_kid _ _ _ _ _ k).
Qed.

Lemma kids_of_within (t : tree) :
  flatten t ⊆ L → Forall (λ k, flatten k ⊆ L) (kids_of t).
Proof. destruct t; [apply kids_within | constructor]. Qed.

Lemma children_node_of (t : tree) : children_of (node_of t) = map root_id (kids_of t).
Proof. by destruct t. Qed.

Lemma shape_kids_of (t : tree) : shape_kids (shape_of t) = map shape_of (kids_of t).
Proof. by destruct t. Qed.

(** The text of a tree, read through the index. *)
Lemma getText_tree (t : tree) :
  flatten t ⊆ L → ∀ fuel, height t ≤ fuel →
  Extractor.getTextFromNode fuel idx (Some (node_of t)) = Some (first_text (shape_of t)).
Proof.
  induction t as [id tg cls attrs kids IH | id val] using tree_ind';
    intros Hsub fuel Hfuel.
  - destruct fuel as [|fuel]; [simpl in Hfuel; lia|].
    rewrite getTextFromNode_S. cbn [node_of Extractor.is_text dom_node text].
    change (children_of (dom_node id tg cls attrs (map root_id kids)))
      with (map root_id kids).
    rewrite shape_of_TElem. cbn [first_text].
    pose proof (kids_within _ _ _ _ _ Hsub) as Hkids.
    assert (Hh : Forall (λ k, height k ≤ fuel) kids).
    { simpl in Hfuel. apply Forall_forall. intros k Hk.
      assert (height k ≤ foldr Nat.max 0 (map height kids)); [|lia].
      clear -Hk. induction kids as [|x kids IHk]; [by apply elem_of_nil in Hk|].
      apply elem_of_cons in Hk as [->|Hk]; simpl; [lia|].
      specialize (IHk Hk). lia. }
    clear Hsub Hfuel.
    induction kids as [|k kids IHk]; [done|].
    apply Forall_cons in IH as [IHhead IHtail].
    apply Forall_cons in Hkids as [Hk Hkids].
    apply Forall_cons in Hh as [Hhk Hh].
    cbn [map text_loop first_nonempty].
    rewrite (lookup_tree k Hk), (IHhead Hk fuel Hhk).
    destruct (Builder.nonempty (first_text (shape_of k))); [done|].
    by apply IHk.
  - destruct fuel as [|fuel]; [simpl in Hfuel; lia|]. reflexivity.
Qed.

Lemma mapM_map_Some {A B C} (f : B → option C) (g : A → B) (h : A → C) (l : list A) :
  Forall (λ x, f (g x) = Some (h x)) l → mapM f (map g l) = Some (map h l).
Proof.
  intros H. apply mapM_Some. induction H; simpl; constructor; auto.
Qed.

Lemma readRow_tree (fuel : nat) (tr : tree) :
  flatten tr ⊆ L → Forall (λ c, height c ≤ fuel) (kids_of tr) →
  Extractor.readRow fuel idx (node_of tr) = Some (sh_row (shape_of tr)).
Proof.
  intros Hsub Hh. unfold Extractor.readRow, sh_row.
  pose proof (kids_of_within tr Hsub) as Hkids.
  rewrite children_node_of, shape_kids_of, (omap_kids _ Hkids).
  rewrite (filter_map_node_of _ (λ s, sh_has_tag "td" s || sh_has_tag "th" s)).
  2:{ intros k. by rewrite !has_tag_node_of. }
  rewrite (filter_map_shape_of (λ s, sh_has_tag "td" s || sh_has_tag "th" s)).
  rewrite map_map. apply mapM_map_Some.
  apply Forall_forall. intros c Hc. apply filter_In in Hc.
  apply getText_tree.
  - by apply (proj1 (Forall_forall _ _) Hkids).
  - by apply (proj1 (Forall_forall _ _) Hh).
Qed.

Lemma readSectionRows_tree (fuel : nat) (sec : tree) :
  flatten sec ⊆ L →
  Forall (λ tr, Forall (λ c, height c ≤ fuel) (kids_of tr)) (kids_of sec) →
  Extractor.readSectionRows fuel idx (Some (node_of sec))
  = Some (sh_rows (Some (shape_of sec))).
Proof.
  intros Hsub Hh. unfold Extractor.readSectionRows, sh_rows.
  pose proof (kids_of_within sec Hsub) as Hkids.
  rewrite children_node_of, shape_kids_of, (omap_kids _ Hkids).
  rewrite (filter_map_node_of _ (λ s, sh_has_tag "tr" s)).
  2:{ intros k. by rewrite !has_tag_node_of. }
  rewrite (filter_map_shape_of (λ s, sh_has_tag "tr" s)).
  rewrite map_map. apply mapM_map_Some.
  apply Forall_forall. intros tr Htr. apply filter_In in Htr.
  apply readRow_tree.
  - by apply (proj1 (Forall_forall _ _) Hkids).
  - by apply (proj1 (Forall_forall _ _) Hh).
Qed.

Lemma readSectionRows_opt (fuel : nat) (sec : option tree) :
  (∀ t, sec = Some t → flatten t ⊆ L ∧
     Forall (λ tr, Forall (λ c, height c ≤ fuel) (kids_of tr)) (kids_of t)) →
  Extractor.readSectionRows fuel idx (node_of <$> sec)
  = Some (sh_rows (shape_of <$> sec)).
Proof.
  destruct sec as [t|]; intros H; [|done].
  destruct (H t eq_refl). by apply readSectionRows_tree.
Qed.

End Reading.

(** * The grid of a configuration, read from its shape *)

Section ShapeFacts.
Variable cfg : Builder.Config.

Lemma filter_all {A} (P : A → Prop) `{∀ x, Decision (P x)} (l : list A) :
  Forall P l → filter P l = l.
Proof.
  induction 1 as [|x l Hx _ IH]; [done|].
  rewrite filter_cons, decide_True by done. by rewrite IH.
Qed.

Lemma cellTag_cases (sectionTag : string) :
  Builder.cellTag cfg sectionTag = "th" ∨ Builder.cellTag cfg sectionTag = "td".
Proof.
  unfold Builder.cellTag.
  destruct (bool_decide (sectionTag = "thead") && Builder.useThInHead cfg); auto.
Qed.

Lemma cell_shape_is_cell (sectionTag : string) (r c : nat) :
  sh_has_tag "td" (cell_shape cfg sectionTag r c)
  || sh_has_tag "th" (cell_shape cfg sectionTag r c) = true.
Proof.
  unfold cell_shape, sh_has_tag, shape_norm_tag.
  destruct (cellTag_cases sectionTag) as [-> | ->]; reflexivity.
Qed.

Lemma first_nonempty_one (t : string) : first_nonempty [t] = t.
Proof.
  simpl. unfold Builder.nonempty. destruct (bool_decide_reflect (t = "")); by subst.
Qed.

Lemma cell_shape_text (sectionTag : string) (r c : nat) :
  first_text (cell_shape cfg sectionTag r c) = Builder.textValue cfg sectionTag r c.
Proof.
  unfold cell_shape, Builder.textValue.
  destruct (Builder.csvData cfg) as [d|]; [|reflexivity].
  destruct (Builder.useSpanFallback cfg); cbn [first_text map];
    by rewrite ?first_nonempty_one.
Qed.

Lemma cell_shape_height (sectionTag : string) (r c : nat) :
  sh_height (cell_shape cfg sectionTag r c) ≤ 3.
Proof.
  unfold cell_shape. destruct (Builder.csvData cfg); [|simpl; lia].
  destruct (Builder.useSpanFallback cfg); simpl; lia.
Qed.

Lemma sh_row_row_shape (sectionTag : string) (r : nat) :
  sh_row (row_shape cfg sectionTag r) = row_texts cfg sectionTag r.
Proof.
  unfold sh_row, row_shape, row_texts. cbn [shape_kids].
  rewrite filter_all.
  - rewrite map_map. apply map_ext. intros c. apply cell_shape_text.
  - apply Forall_forall. intros x Hx. apply list_elem_of_In, in_map_iff in Hx.
    destruct Hx as (c & <- & _). apply Is_true_true, cell_shape_is_cell.
Qed.

Lemma sh_rows_single (sectionTag : string) :
  sh_rows (Some (single_row_section cfg sectionTag)) = [row_texts cfg sectionTag 0].
Proof.
  unfold sh_rows, single_row_section. cbn [shape_kids].
  rewrite filter_all.
  - simpl. by rewrite sh_row_row_shape.
  - repeat constructor.
Qed.

Lemma sh_rows_tbody : sh_rows (Some (tbody_shape cfg)) = body_rows cfg.
Proof.
  unfold sh_rows, tbody_shape, body_rows. cbn [shape_kids].
  rewrite filter_all.
  - rewrite map_map. apply map_ext. intros r. apply sh_row_row_shape.
  - apply Forall_forall. intros x Hx. apply list_elem_of_In, in_map_iff in Hx.
    by destruct Hx as (r & <- & _).
Qed.

Lemma sh_sections_table :
  sh_sections (table_shape cfg) = (head_rows cfg, body_rows cfg, foot_rows cfg).
Proof.
  unfold sh_sections, table_shape, head_rows, foot_rows. cbn [shape_kids].
  pose proof (sh_rows_single "thead") as Hh.
  pose proof (sh_rows_single "tfoot") as Hf.
  pose proof sh_rows_tbody as Hb.
  assert (sh_has_tag "thead" (single_row_section cfg "thead") = true) as Ehh by reflexivity.
  assert (sh_has_tag "tbody" (single_row_section cfg "thead") = false) as Ehb by reflexivity.
  assert (sh_has_tag "tfoot" (single_row_section cfg "thead") = false) as Ehf by reflexivity.
  assert (sh_has_tag "thead" (tbody_shape cfg) = false) as Ebh by reflexivity.
  assert (sh_has_tag "tbody" (tbody_shape cfg) = true) as Ebb by reflexivity.
  assert (sh_has_tag "tfoot" (tbody_shape cfg) = false) as Ebf by reflexivity.
  assert (sh_has_tag "thead" (single_row_section cfg "tfoot") = false) as Efh by reflexivity.
  assert (sh_has_tag "tbody" (single_row_section cfg "tfoot") = false) as Efb by reflexivity.
  assert (sh_has_tag "tfoot" (single_row_section cfg "tfoot") = true) as Eff by reflexivity.
  destruct (Builder.includeHead cfg), (Builder.includeFoot cfg);
    cbn [app find];
    rewrite ?Ehh, ?Ehb, ?Ehf, ?Ebh, ?Ebb, ?Ebf, ?Efh, ?Efb, ?Eff, ?Hh, ?Hf, ?Hb;
    reflexivity.
Qed.

Lemma cells_fit_table : cells_fit 3 (table_shape cfg).
Proof.
  assert (Hrow : ∀ sec r, Forall (λ c, sh_height c ≤ 3) (shape_kids (row_shape cfg sec r))).
  { intros sec r. unfold row_shape. cbn [shape_kids].
    apply Forall_forall. intros x Hx. apply list_elem_of_In, in_map_iff in Hx.
    destruct Hx as (c & <- & _). apply cell_shape_height. }
  assert (Hsingle : ∀ sec,
    Forall (λ tr, Forall (λ c, sh_height c ≤ 3) (shape_kids tr))
      (shape_kids (single_row_section cfg sec))).
  { intros sec. unfold single_row_section. cbn [shape_kids].
    apply Forall_cons. split; [apply Hrow | constructor]. }
  assert (Hopt : ∀ (flag : bool) sec,
    Forall (λ sec, Forall (λ tr, Forall (λ c, sh_height c ≤ 3) (shape_kids tr))
                     (shape_kids sec))
      (if flag then [single_row_section cfg sec] else [])).
  { intros [] sec; [|constructor]. apply Forall_cons. split; [apply Hsingle | constructor]. }
  unfold cells_fit, table_shape. cbn [shape_kids].
  apply Forall_app. split; [apply Hopt|].
  apply Forall_app. split; [|apply Hopt].
  apply Forall_cons. split; [|constructor].
  unfold tbody_shape. cbn [shape_kids].
  apply Forall_forall. intros x Hx. apply list_elem_of_In, in_map_iff in Hx.
  destruct Hx as (r & <- & _). apply Hrow.
Qed.

End ShapeFacts.

(** * Extraction of a table laid out in preorder *)

Section Extraction.
Variable JSON_parse : string → option Envelope.

Lemma Forall_mono {A} (P Q : A → Prop) (l : list A) :
  (∀ x, P x → Q x) → Forall P l → Forall Q l.
Proof. intros H HP. by eapply Forall_impl. Qed.

Lemma cells_fit_tree (fuel : nat) (T : tree) :
  cells_fit fuel (shape_of T) →
  Forall (λ sec, Forall (λ tr, Forall (λ c, height c ≤ fuel) (kids_of tr)) (kids_of sec))
    (kids_of T).
Proof.
  unfold cells_fit. rewrite shape_kids_of, Forall_map.
  apply Forall_mono. intros sec. rewrite shape_kids_of, Forall_map.
  apply Forall_mono. intros tr. rewrite shape_kids_of, Forall_map.
  apply Forall_mono. intros c. by rewrite height_shape.
Qed.

Lemma read_payload_denotes (json : Extractor.json_arg) (e : Envelope) :
  denotes JSON_parse json e → Extractor.read_payload JSON_parse json = inr (payload e).
Proof.
  intros [-> | (s & -> & Hs & Hparse)]; [done|].
  unfold Extractor.read_payload. by rewrite bool_decide_false, Hparse.
Qed.

Lemma readSections_laid_out (fuel : nat) (json : Extractor.json_arg) (e : Envelope)
    (styles : list Style.t) (T : tree) (W : list node) :
  denotes JSON_parse json e →
  payload e = Some {| payload_nodes := Some (flatten T ++ W); payload_styles := styles |} →
  NoDup (map _id (flatten T ++ W)) →
  sh_has_tag "table" (shape_of T) = true →
  cells_fit fuel (shape_of T) →
  Extractor.readSections JSON_parse fuel json = Some (Some (sh_sections (shape_of T))).
Proof.
  intros Hden Hpay Hnd Htable Hfit.
  unfold Extractor.readSections. rewrite (read_payload_denotes _ _ Hden), Hpay.
  cbn [mbind option_bind payload_nodes default from_option]. unfold id.
  destruct (flatten_head T) as (rest & Hflat).
  rewrite bool_decide_false by (rewrite Hflat; discriminate).
  assert (Hfind : find (λ n, Extractor.has_tag "table" n) (flatten T ++ W)
                  = Some (node_of T)).
  { rewrite Hflat. cbn [app find]. by rewrite has_tag_node_of, Htable. }
  rewrite Hfind.
  assert (HsubT : flatten T ⊆ flatten T ++ W).
  { intros n Hn. apply elem_of_app. by left. }
  pose proof (kids_of_within _ T HsubT) as Hkids.
  rewrite children_node_of, (omap_kids _ Hnd _ Hkids).
  pose proof (cells_fit_tree _ _ Hfit) as Hh.
  assert (Hsec : ∀ (Q : shape → bool) t,
    find (λ k, Q (shape_of k)) (kids_of T) = Some t →
    flatten t ⊆ flatten T ++ W ∧
    Forall (λ tr, Forall (λ c, height c ≤ fuel) (kids_of tr)) (kids_of t)).
  { intros Q t Ht. apply find_In in Ht. split.
    - by apply (proj1 (Forall_forall _ _) Hkids).
    - by apply (proj1 (Forall_forall _ _) Hh). }
  rewrite !(find_map_node_of _ (λ s, sh_has_tag _ s)) by (intros; apply has_tag_node_of).
  rewrite !(readSectionRows_opt _ Hnd) by (apply Hsec).
  cbn [mbind option_bind].
  unfold sh_sections. rewrite shape_kids_of.
  by rewrite !(find_map_shape_of (λ s, sh_has_tag _ s)).
Qed.

End Extraction.

Section BuiltExtraction.
Variable rnd : nat → string.
Variable cfg : Builder.Config.
Variable JSON_parse : string → option Envelope.

(** The ids of the nodes of a run are distinct when the draws are. *)
Lemma built_ids_NoDup :
  uid_fresh rnd (Builder.draws (Builder.final rnd cfg)) →
  NoDup (map _id (Builder.nodes (Builder.final rnd cfg))).
Proof.
  intros Hfresh. destruct (build_laid_out rnd cfg) as (T & W & _ & Hdrawn & _).
  by eapply drawn_NoDup.
Qed.

(** What the extractor reads in the three sections of a run. *)
Lemma readSections_built (fuel : nat) (json : Extractor.json_arg) :
  uid_fresh rnd (Builder.draws (Builder.final rnd cfg)) →
  denotes JSON_parse json (Builder.built rnd cfg) →
  3 ≤ fuel →
  Extractor.readSections JSON_parse fuel json
  = Some (Some (head_rows cfg, body_rows cfg, foot_rows cfg)).
Proof.
  intros Hfresh Hden Hfuel.
  pose proof (built_ids_NoDup Hfresh) as Hnd.
  destruct (build_laid_out rnd cfg) as (T & W & (HL & Hshape & HW) & _ & _).
  rewrite <- sh_sections_table, <- Hshape.
  eapply readSections_laid_out; [exact Hden | | | |].
  - unfold Builder.built. cbn [payload]. by rewrite HL.
  - by rewrite <- HL.
  - by rewrite Hshape.
  - rewrite Hshape. pose proof (cells_fit_table cfg) as Hfit.
    unfold cells_fit in *. revert Hfit.
    apply Forall_mono. intros sec.
    apply Forall_mono. intros tr. apply Forall_mono. intros c. lia.
Qed.

Lemma head_rows_length :
  bool_decide (0 < length (head_rows cfg)) = Builder.includeHead cfg.
Proof. unfold head_rows. by destruct (Builder.includeHead cfg). Qed.

(** What the extractor returns for a run. *)
Lemma extract_built (fuel : nat) (json : Extractor.json_arg) :
  uid_fresh rnd (Builder.draws (Builder.final rnd cfg)) →
  denotes JSON_parse json (Builder.built rnd cfg) →
  3 ≤ fuel →
  Extractor.extractRowsFromXscp JSON_parse fuel json
  = Some (Some {| Extractor.rows := head_rows cfg ++ body_rows cfg;
                  Extractor.hasHeader := Builder.includeHead cfg |}).
Proof.
  intros Hfresh Hden Hfuel. unfold Extractor.extractRowsFromXscp.
  rewrite (readSections_built _ _ Hfresh Hden Hfuel), head_rows_length.
  unfold head_rows. by destruct (Builder.includeHead cfg).
Qed.

End BuiltExtraction.

(** * The grid of a configuration with a source grid *)

Section GridFacts.

Lemma tabulate_lookup {A B} (f : option A → B) (g : A → B) (l : list A) :
  (∀ x, f (Some x) = g x) →
  map (λ i, f (l !! i)) (seq 0 (length l)) = map g l.
Proof.
  intros Hfg. induction l as [|x l IH]; [done|].
  cbn [length seq map]. rewrite <- seq_shift, map_map.
  f_equal; [apply Hfg|]. rewrite <- IH. apply map_ext. intros i. reflexivity.
Qed.

Lemma tabulate_row (r : list string) :
  map (λ c, default "" (r !! c)) (seq 0 (length r)) = r.
Proof.
  rewrite (tabulate_lookup (λ o, default "" o) (λ x, x)) by done. apply map_id.
Qed.

Lemma Math_max_rect (g : list (list string)) (m : nat) :
  g ≠ [] → Forall (λ r, length r = m) g →
  Builder.Math_max (map (λ r, Z.of_nat (length r)) g) = Builder.Finite (Z.of_nat m).
Proof.
  intros Hne Hrect. destruct g as [|r g]; [by destruct Hne|]. clear Hne.
  apply Forall_cons in Hrect as [Hr Hrect]. unfold Builder.Math_max.
  cbn [map foldr]. rewrite Hr. clear Hr r.
  induction Hrect as [|r g Hr _ IH]; [done|].
  cbn [map foldr] in *. rewrite Hr.
  destruct (foldr _ _ _) as [|z] in IH |- *; simpl in *.
  - f_equal. lia.
  - inversion IH as [Hz]. f_equal. lia.
Qed.

Section WithGrid.
Variable cfg : Builder.Config.
Variable g : list (list string).
Hypothesis Hcsv : Builder.csvData cfg = Some g.

Lemma textValue_csv (sectionTag : string) (r c : nat) :
  Builder.textValue cfg sectionTag r c
  = default "" (Builder.sourceRow cfg sectionTag r ≫= (λ row, row !! c)).
Proof.
  unfold Builder.textValue. rewrite Hcsv.
  by destruct (Builder.sourceRow cfg sectionTag r).
Qed.

Lemma sourceRow_body (r : nat) :
  Builder.sourceRow cfg "tbody" r
  = g !! (if Builder.csvHasHeaderRow cfg then r + 1 else r).
Proof.
  unfold Builder.sourceRow. rewrite Hcsv.
  by destruct (Builder.csvHasHeaderRow cfg).
Qed.

(** Outside the body the source row is the row of the same index: the
    header and the footer both read row 0. *)
Lemma sourceRow_other (sectionTag : string) (r : nat) :
  sectionTag ≠ "tbody" → Builder.sourceRow cfg sectionTag r = g !! r.
Proof.
  intros Hne. unfold Builder.sourceRow. rewrite Hcsv.
  rewrite (bool_decide_false _ Hne). by rewrite andb_false_r.
Qed.

Lemma ncols_rect (m : nat) :
  g ≠ [] → Forall (λ r, length r = m) g → ncols cfg = m.
Proof.
  intros Hne Hrect. unfold ncols, Builder.cellCount, Builder.effectiveCols.
  rewrite Hcsv, (Math_max_rect g m Hne Hrect). simpl. lia.
Qed.

Lemma nrows_csv :
  nrows cfg = if Builder.csvHasHeaderRow cfg then length g - 1 else length g.
Proof.
  unfold nrows, Builder.bodyRowCount, Builder.effectiveRows. rewrite Hcsv.
  destruct (Builder.csvHasHeaderRow cfg); simpl; lia.
Qed.

Lemma row_texts_rect (sectionTag : string) (r : nat) (row : list string) :
  Builder.sourceRow cfg sectionTag r = Some row → length row = ncols cfg →
  row_texts cfg sectionTag r = row.
Proof.
  intros Hrow Hlen. unfold row_texts. rewrite <- Hlen.
  rewrite <- (tabulate_row row) at 2. apply map_ext. intros c.
  by rewrite textValue_csv, Hrow.
Qed.

(** The cells of the footer row carry the texts of source row 0. *)
Lemma foot_rows_csv :
  Builder.includeFoot cfg = true →
  foot_rows cfg
  = [map (λ c, default "" (g !! 0 ≫= (λ row, row !! c))) (seq 0 (ncols cfg))].
Proof.
  intros Hfoot. unfold foot_rows, row_texts. rewrite Hfoot. f_equal.
  apply map_ext. intros c. by rewrite textValue_csv, sourceRow_other.
Qed.

End WithGrid.

(** A rectangular grid whose header designation agrees with the header
    flag is shown as it is. *)
Lemma shown_rect (cfg : Builder.Config) (g : list (list string)) (m : nat) :
  Builder.csvData cfg = Some g →
  Forall (λ r, length r = m) g →
  Builder.includeHead cfg = Builder.csvHasHeaderRow cfg →
  (Builder.includeHead cfg = true → g ≠ []) →
  head_rows cfg ++ body_rows cfg = g.
Proof.
  intros Hcsv Hrect Hflag Hne.
  unfold head_rows, body_rows. rewrite (nrows_csv cfg g Hcsv), <- Hflag.
  destruct (Builder.includeHead cfg) eqn:Hhead.
  - destruct g as [|r0 rest] eqn:Hg; [by destruct (Hne eq_refl)|].
    assert (Hm : ncols cfg = m) by (by eapply ncols_rect).
    pose proof Hrect as Hrect'. apply Forall_cons in Hrect' as [Hr0 Hrest].
    rewrite (row_texts_rect cfg _ Hcsv "thead" 0 r0);
      [| by rewrite (sourceRow_other cfg _ Hcsv) | lia].
    replace (length (r0 :: rest) - 1) with (length rest) by (simpl; lia).
    cbn [app]. f_equal.
    rewrite <- (map_id rest) at 2.
    rewrite <- (tabulate_lookup (λ o, default [] o) (λ x, x) rest) by done.
    apply map_ext_in. intros r Hr. apply in_seq in Hr.
    destruct (lookup_lt_is_Some_2 rest r) as [row Hrow]; [lia|].
    rewrite Hrow. cbn [default from_option]. unfold id.
    apply (row_texts_rect cfg _ Hcsv).
    + rewrite (sourceRow_body cfg _ Hcsv), <- Hflag. rewrite Nat.add_1_r. exact Hrow.
    + rewrite Hm. apply list_elem_of_lookup_2 in Hrow.
      by apply (proj1 (Forall_forall _ _) Hrest).
  - cbn [app]. rewrite <- (map_id g) at 2.
    rewrite <- (tabulate_lookup (λ o, default [] o) (λ x, x) g) by done.
    apply map_ext_in. intros r Hr. apply in_seq in Hr.
    destruct (lookup_lt_is_Some_2 g r) as [row Hrow]; [lia|].
    rewrite Hrow. cbn [default from_option]. unfold id.
    assert (g ≠ []) as Hgne by (intros ->; simpl in Hr; lia).
    apply (row_texts_rect cfg _ Hcsv).
    + by rewrite (sourceRow_body cfg _ Hcsv), <- Hflag.
    + rewrite (ncols_rect cfg _ Hcsv m Hgne Hrect). apply list_elem_of_lookup_2 in Hrow.
      by apply (proj1 (Forall_forall _ _) Hrect).
Qed.

(** *** Why the round trip needs its conditions

    The header section and the header-row designation are two switches of
    the form.  With a header section and no header row, row 0 is read
    twice; with a header row and no header section, row 0 is not read; and
    the header of an empty grid is one row without cells. *)

Example head_without_header_row :
  Extractor.extractRowsFromXscp no_parse 3
    (Extractor.JsonObject (Builder.built sample_rnd (with_flags [["a"]; ["b"]] true false)))
  = Some (Some {| Extractor.rows := [["a"]; ["a"]; ["b"]]; Extractor.hasHeader := true |}).
Proof. by vm_compute. Qed.

Example header_row_without_head :
  Extractor.extractRowsFromXscp no_parse 3
    (Extractor.JsonObject (Builder.built sample_rnd (with_flags [["a"]; ["b"]] false true)))
  = Some (Some {| Extractor.rows := [["b"]]; Extractor.hasHeader := false |}).
Proof. by vm_compute. Qed.

Example head_of_empty_grid :
  Extractor.extractRowsFromXscp no_parse 3
    (Extractor.JsonObject (Builder.built sample_rnd (with_flags [] true true)))
  = Some (Some {| Extractor.rows := [[]]; Extractor.hasHeader := true |}).
Proof. by vm_compute. Qed.

End GridFacts.

(** * Facts about the nodes of a run *)

Section NodeFacts.

Lemma flatten_elem id tg cls attrs kids (n : node) :
  n ∈ flatten (TElem id tg cls attrs kids) →
  n = dom_node id tg cls attrs (map root_id kids) ∨ ∃ k, k ∈ kids ∧ n ∈ flatten k.
Proof.
  rewrite flatten_TElem. intros Hn. apply elem_of_cons in Hn as [->|Hn]; [by left|].
  right. apply list_elem_of_In, in_concat in Hn as (l & Hl & Hn).
  apply in_map_iff in Hl as (k & <- & Hk).
  exists k. split; by apply list_elem_of_In.
Qed.

Lemma flatten_closed (t : tree) : closed (flatten t).
Proof.
  induction t as [id tg cls attrs kids IH | id val] using tree_ind'.
  - intros n c Hn Hc. apply flatten_elem in Hn as [-> | (k & Hk & Hn)].
    + change (children_of (dom_node id tg cls attrs (map root_id kids)))
        with (map root_id kids) in Hc.
      apply list_elem_of_In, in_map_iff in Hc as (k & <- & Hk).
      apply list_elem_of_In in Hk.
      exists (node_of k). split; [|apply node_of_id].
      apply (flatten_kid _ _ _ _ _ k Hk), flatten_root.
    + rewrite Forall_forall in IH.
      destruct (IH k Hk n c Hn Hc) as (m & Hm & Hid).
      exists m. split; [|done]. by apply (flatten_kid _ _ _ _ _ k Hk).
  - intros n c Hn Hc. simpl in Hn. apply list_elem_of_singleton in Hn. subst.
    by apply elem_of_nil in Hc.
Qed.

Lemma wrappers_closed (T : tree) (W : list node) :
  wrappers W (root_id T) → closed (flatten T ++ W).
Proof.
  intros (o & p & c & ps & tw & c1 & c2 & c3 & c4 & c5 & ->) n x Hn Hx.
  apply elem_of_app in Hn as [Hn | Hn].
  - destruct (flatten_closed T n x Hn Hx) as (m & Hm & Hid).
    exists m. split; [|done]. apply elem_of_app. by left.
  - repeat (apply elem_of_cons in Hn as [-> | Hn]);
      try (by apply elem_of_nil in Hn);
      apply list_elem_of_singleton in Hx; subst x.
    + exists (dom_node p "div" c2 [] [c]). split; [|done].
      apply elem_of_app. right. set_solver.
    + exists (dom_node c "div" c3 [] [ps]). split; [|done].
      apply elem_of_app. right. set_solver.
    + exists (dom_node ps "div" c4 [] [tw]). split; [|done].
      apply elem_of_app. right. set_solver.
    + exists (dom_node tw "div" c5 [] [root_id T]). split; [|done].
      apply elem_of_app. right. set_solver.
    + exists (node_of T). split; [|apply node_of_id].
      apply elem_of_app. left. apply flatten_root.
Qed.

Lemma laid_out_closed (cfg : Builder.Config) (L : list node) (T : tree) (W : list node) :
  laid_out cfg L T W → closed L.
Proof.
  intros (-> & _ & HW). destruct (Builder.wrapInSection cfg).
  - by apply wrappers_closed.
  - subst W. rewrite app_nil_r. apply flatten_closed.
Qed.

Lemma shape_all_nodes (P : shape → bool) (Pn : node → Prop) (t : tree) :
  (∀ t', P (shape_of t') = true → Pn (node_of t')) →
  shape_all P (shape_of t) = true → ∀ n, n ∈ flatten t → Pn n.
Proof.
  intros HP. induction t as [id tg cls attrs kids IH | id val] using tree_ind';
    intros Hall n Hn.
  - rewrite shape_of_TElem in Hall. cbn [shape_all] in Hall.
    apply andb_true_iff in Hall as [Hroot Hkids].
    apply flatten_elem in Hn as [-> | (k & Hk & Hn)].
    + apply (HP (TElem id tg cls attrs kids)). by rewrite shape_of_TElem.
    + rewrite Forall_forall in IH. apply (IH k Hk); [|done].
      rewrite forallb_forall in Hkids. apply Hkids.
      apply in_map. by apply list_elem_of_In.
  - simpl in Hn. apply list_elem_of_singleton in Hn. subst n.
    apply (HP (TText id val)). simpl in Hall. by apply andb_true_iff in Hall as [? _].
Qed.

Lemma bare_shape_node (t : tree) : bare_shape (shape_of t) = true → bare_node (node_of t).
Proof.
  destruct t as [id tg cls attrs kids | id val]; [|done].
  rewrite shape_of_TElem. cbn [bare_shape]. intros H.
  apply andb_true_iff in H as [Hspan Hcell].
  split; [done|]. split.
  - rewrite (has_tag_node_of "span" (TElem id tg cls attrs kids)), shape_of_TElem.
    by apply negb_true_iff.
  - rewrite !(has_tag_node_of _ (TElem id tg cls attrs kids)), shape_of_TElem.
    intros Htd. rewrite Htd in Hcell. by destruct kids.
Qed.

Section SyntheticTable.
Variable cfg : Builder.Config.
Hypothesis Hcsv : Builder.csvData cfg = None.

Lemma cell_shape_bare (sectionTag : string) (r c : nat) :
  shape_all bare_shape (cell_shape cfg sectionTag r c) = true.
Proof.
  unfold cell_shape. rewrite Hcsv.
  destruct (cellTag_cases cfg sectionTag) as [-> | ->]; reflexivity.
Qed.

Lemma row_shape_bare (sectionTag : string) (r : nat) :
  shape_all bare_shape (row_shape cfg sectionTag r) = true.
Proof.
  unfold row_shape. cbn [shape_all]. apply andb_true_iff. split; [reflexivity|].
  apply forallb_forall. intros x Hx. apply in_map_iff in Hx as (c & <- & _).
  apply cell_shape_bare.
Qed.

Lemma single_row_section_bare (sectionTag : string) :
  sectionTag = "thead" ∨ sectionTag = "tfoot" →
  shape_all bare_shape (single_row_section cfg sectionTag) = true.
Proof.
  intros Htag. unfold single_row_section. cbn [shape_all forallb].
  rewrite row_shape_bare. by destruct Htag as [-> | ->].
Qed.

Lemma tbody_shape_bare : shape_all bare_shape (tbody_shape cfg) = true.
Proof.
  unfold tbody_shape. cbn [shape_all]. apply andb_true_iff. split; [reflexivity|].
  apply forallb_forall. intros x Hx. apply in_map_iff in Hx as (r & <- & _).
  apply row_shape_bare.
Qed.

Lemma table_shape_bare : shape_all bare_shape (table_shape cfg) = true.
Proof.
  unfold table_shape. cbn [shape_all]. apply andb_true_iff. split; [reflexivity|].
  rewrite !forallb_app. cbn [forallb]. rewrite tbody_shape_bare.
  destruct (Builder.includeHead cfg), (Builder.includeFoot cfg); cbn [forallb];
    rewrite ?single_row_section_bare by auto; reflexivity.
Qed.

End SyntheticTable.

Lemma wrappers_bare (W : list node) (tid : string) (n : node) :
  wrappers W tid → n ∈ W → bare_node n.
Proof.
  intros (o & p & c & ps & tw & c1 & c2 & c3 & c4 & c5 & ->) Hn.
  repeat (apply elem_of_cons in Hn as [-> | Hn]); try (by apply elem_of_nil in Hn);
    by repeat split.
Qed.

(** Without a source grid no node is a text or a [span], and no cell has a
    child. *)
Lemma synthetic_nodes_bare (rnd : nat → string) (cfg : Builder.Config) (n : node) :
  Builder.csvData cfg = None → n ∈ Builder.nodes (Builder.final rnd cfg) → bare_node n.
Proof.
  intros Hcsv Hn.
  destruct (build_laid_out rnd cfg) as (T & W & (HL & Hshape & HW) & _ & _).
  rewrite HL in Hn. apply elem_of_app in Hn as [Hn | Hn].
  - apply (shape_all_nodes bare_shape bare_node T bare_shape_node); [|done].
    rewrite Hshape. by apply table_shape_bare.
  - destruct (Builder.wrapInSection cfg).
    + by apply (wrappers_bare W (root_id T)).
    + subst W. by apply elem_of_nil in Hn.
Qed.

(** The children of the table element are the section elements, the head
    first and the foot last. *)
Lemma table_sections (rnd : nat → string) (cfg : Builder.Config) :
  ∃ table secs,
    head (Builder.nodes (Builder.final rnd cfg)) = Some table ∧
    raw_tag table = "table" ∧
    children_of table = map _id secs ∧
    secs ⊆ Builder.nodes (Builder.final rnd cfg) ∧
    map raw_tag secs
    = (if Builder.includeHead cfg then ["thead"] else []) ++ ["tbody"]
      ++ (if Builder.includeFoot cfg then ["tfoot"] else []).
Proof.
  destruct (build_laid_out rnd cfg) as (T & W & (HL & Hshape & HW) & _ & _).
  destruct T as [id tg cls attrs kids | id val]; [|discriminate].
  rewrite shape_of_TElem in Hshape. unfold table_shape in Hshape.
  injection Hshape as Htg Hkids.
  exists (dom_node id tg cls attrs (map root_id kids)), (map node_of kids).
  split; [by rewrite HL|]. split; [by rewrite Htg|]. split; [|split].
  - change (children_of (dom_node id tg cls attrs (map root_id kids)))
      with (map root_id kids).
    rewrite map_map. apply map_ext. intros k. by rewrite node_of_id.
  - intros n Hn. apply list_elem_of_In, in_map_iff in Hn as (k & <- & Hk).
    rewrite HL. apply elem_of_app. left.
    apply (flatten_kid _ _ _ _ _ k); [by apply list_elem_of_In | apply flatten_root].
  - assert (Htags : map raw_tag (map node_of kids)
                    = map (λ s, match s with
                                | SElem t _ => if bool_decide (t = "") then "div" else t
                                | SText _ => ""
                                end) (map shape_of kids)).
    { rewrite !map_map. apply map_ext. intros [i t c a ks | i x]; [|done].
      unfold raw_tag. simpl. by destruct (bool_decide (t = "")). }
    rewrite Htags, Hkids.
    by destruct (Builder.includeHead cfg), (Builder.includeFoot cfg).
Qed.

End NodeFacts.

(** * Facts about the style index *)

Section StyleFacts.
Variable rnd : nat → string.

Import Builder.

Lemma ensureStyle_blank (name : string) (s : state) :
  trim name = "" → ensureStyle rnd name s = (None, s).
Proof.
  intros H. unfold ensureStyle. rewrite (bool_decide_true _ H).
  by rewrite orb_true_r.
Qed.

Lemma ensureStyle_known (name id : string) (s : state) :
  trim name ≠ "" → styleIndex s !! name = Some id →
  ensureStyle rnd name s = (Some id, s).
Proof.
  intros Hname Hidx. unfold ensureStyle.
  rewrite (bool_decide_false _ Hname).
  rewrite bool_decide_false by (intros ->; by apply Hname).
  simpl. by rewrite Hidx.
Qed.

(** A first request draws an id, appends one record and files the id
    under the name. *)
Lemma ensureStyle_new (name : string) (s : state) :
  trim name ≠ "" → styleIndex s !! name = None →
  ∃ rec,
    Style.name rec = name ∧
    Style._id rec = "cls_" +:+ rnd (draws s) ∧
    (ensureStyle rnd name s).1 = Some (Style._id rec) ∧
    styles (ensureStyle rnd name s).2 = styles s ++ [rec] ∧
    styleIndex (ensureStyle rnd name s).2 = <[name := Style._id rec]> (styleIndex s).
Proof.
  intros Hname Hidx. unfold ensureStyle.
  rewrite (bool_decide_false _ Hname).
  rewrite bool_decide_false by (intros ->; by apply Hname).
  simpl. rewrite Hidx. unfold bind. simpl.
  destruct (match SECTION_PRESETS name with
            | Some (sl, vs) => (sl, vs)
            | None => (tailwindToStyleLess name, [])
            end) as [sl vs].
  simpl. eexists {| Style._id := _; Style.name := _; Style.styleLess := _;
                    Style.variants := _ |}.
  repeat split.
Qed.

(** Two requests of one name: the same id, and no record for the second. *)
Lemma ensureStyle_twice (name : string) (s : state) :
  trim name ≠ "" →
  let r1 := ensureStyle rnd name s in
  let r2 := ensureStyle rnd name r1.2 in
  is_Some r1.1 ∧ r2.1 = r1.1 ∧ r2.2 = r1.2 ∧
  (styleIndex s !! name = None →
     ∃ rec, styles r2.2 = styles s ++ [rec] ∧ Style.name rec = name ∧
            r1.1 = Some (Style._id rec)) ∧
  (is_Some (styleIndex s !! name) → styles r2.2 = styles s).
Proof.
  intros Hname. cbv zeta.
  destruct (styleIndex s !! name) as [id|] eqn:Hidx.
  - rewrite (ensureStyle_known name id s Hname Hidx). cbn [fst snd].
    rewrite (ensureStyle_known name id s Hname Hidx). cbn [fst snd].
    repeat split; eauto. intros; discriminate.
  - destruct (ensureStyle_new name s Hname Hidx) as (rec & Hn & Hid & Hr & Hst & Hix).
    destruct (ensureStyle rnd name s) as [o1 s1] eqn:E1. cbn [fst snd] in *.
    assert (Hidx1 : styleIndex s1 !! name = Some (Style._id rec)).
    { rewrite Hix. apply lookup_insert_eq. }
    rewrite (ensureStyle_known name _ s1 Hname Hidx1). cbn [fst snd].
    subst o1. repeat split; eauto.
    intros [? ?]; discriminate.
Qed.

(** *** Runs without a class name but the one of the table *)

Lemma keeps_bind {A B} (m : M A) (f : A → M B) :
  keeps_styles m → (∀ a, keeps_styles (f a)) → keeps_styles (bind m f).
Proof.
  intros Hm Hf s. unfold bind. destruct (Hm s) as [H1 H2].
  destruct (Hf (m s).1 (m s).2) as [H3 H4]. split; congruence.
Qed.

Lemma keeps_ret {A} (a : A) : keeps_styles (ret a).
Proof. by intros s. Qed.

Lemma keeps_push (n : node) : keeps_styles (push n).
Proof. by intros s. Qed.

Lemma keeps_children_push (r : ref) (c : string) : keeps_styles (children_push r c).
Proof. by intros s. Qed.

Lemma keeps_makeDomNode tg cls attrs tx : keeps_styles (makeDomNode rnd tg cls attrs tx).
Proof. by intros s. Qed.

Lemma keeps_makeTextNode val : keeps_styles (makeTextNode rnd val).
Proof. by intros s. Qed.

Lemma keeps_classIds_nil : keeps_styles (classIds rnd []).
Proof. by intros s. Qed.

Lemma keeps_forM {A} (l : list A) (f : A → M unit) :
  (∀ x, keeps_styles (f x)) → keeps_styles (forM l f).
Proof.
  intros Hf. induction l as [|x l IH]; [apply keeps_ret|].
  apply keeps_bind; [apply Hf | intros _; apply IH].
Qed.

Ltac keeps_by tac :=
  repeat (cbv beta;
    lazymatch goal with
    | |- keeps_styles (ret _) => apply keeps_ret
    | |- keeps_styles (push _) => apply keeps_push
    | |- keeps_styles (children_push _ _) => apply keeps_children_push
    | |- keeps_styles (makeDomNode _ _ _ _ _) => apply keeps_makeDomNode
    | |- keeps_styles (makeTextNode _ _) => apply keeps_makeTextNode
    | |- keeps_styles (classIds _ []) => apply keeps_classIds_nil
    | |- keeps_styles (forM _ _) => apply keeps_forM; intros ?
    | |- keeps_styles (bind _ _) => apply keeps_bind; [|intros ?]
    | |- keeps_styles _ => tac
    end).

Ltac keeps := keeps_by fail.

Section OnlyTableClass.
Variable cfg : Config.
Hypothesis Honly : only_table_class cfg.

Lemma keeps_makeCell (tr : ref) (sectionTag : string) (r c : nat) :
  keeps_styles (makeCell rnd cfg tr sectionTag r c).
Proof.
  destruct Honly as (_ & _ & _ & Hcell & _). unfold makeCell. rewrite Hcell.
  change (opt_class "") with (@nil string).
  destruct (csvData cfg); [destruct (useSpanFallback cfg)|]; keeps.
Qed.

Lemma keeps_makeRow (sectionTag : string) (r : nat) :
  keeps_styles (makeRow rnd cfg sectionTag r).
Proof.
  destruct Honly as (_ & _ & _ & _ & Hrow & _). unfold makeRow. rewrite Hrow.
  change (opt_class "") with (@nil string). keeps_by ltac:(apply keeps_makeCell).
Qed.

Lemma keeps_optSection (flag : bool) (sectionTag : string) :
  keeps_styles (optSection rnd cfg flag sectionTag "").
Proof.
  unfold optSection, makeSection. change (opt_class "") with (@nil string).
  destruct flag; keeps_by ltac:(apply keeps_makeRow).
Qed.

Lemma keeps_tbodyPhase : keeps_styles (tbodyPhase rnd cfg).
Proof.
  destruct Honly as (_ & Hbody & _). unfold tbodyPhase. rewrite Hbody.
  change (opt_class "") with (@nil string). keeps_by ltac:(apply keeps_makeRow).
Qed.

Lemma keeps_link (table : ref) (o : option ref) : keeps_styles (link table o).
Proof. destruct o; unfold link; keeps. Qed.

Lemma keeps_wrapPhase (table : ref) : keeps_styles (wrapPhase rnd cfg table).
Proof.
  destruct Honly as (_ & _ & _ & _ & _ & Hwrap). unfold wrapPhase. rewrite Hwrap. keeps.
Qed.

(** The styles of the run are those of the class names of the table. *)
Lemma styles_final :
  styles (final rnd cfg) = styles (classIds rnd (opt_class (tableClass cfg)) init).2.
Proof.
  unfold final. rewrite build_phases_eq. unfold build_phases.
  destruct Honly as (Hhead & _ & Hfoot & _). rewrite Hhead, Hfoot.
  match goal with |- styles (bind ?m ?f ?s).2 = _ =>
    change (bind m f s) with (f (m s).1 (m s).2);
    assert (Hk : keeps_styles (f (m s).1)); [|exact (proj1 (Hk (m s).2))]
  end.
  keeps_by ltac:(first [ apply keeps_optSection | apply keeps_tbodyPhase
                        | apply keeps_link | apply keeps_wrapPhase ]).
Qed.

End OnlyTableClass.

(** The table class [a a b]: two tokens are one name. *)
Lemma classIds_aab :
  classIds rnd ["a a b"] init
  = (["cls_" +:+ rnd 0; "cls_" +:+ rnd 0; "cls_" +:+ rnd 1],
     {| nodes := [];
        styles := [{| Style._id := "cls_" +:+ rnd 0; Style.name := "a";
                      Style.styleLess := ""; Style.variants := [] |};
                   {| Style._id := "cls_" +:+ rnd 1; Style.name := "b";
                      Style.styleLess := ""; Style.variants := [] |}];
        styleIndex := <["b" := "cls_" +:+ rnd 1]> (<["a" := "cls_" +:+ rnd 0]> ∅);
        draws := 2 |}).
Proof. reflexivity. Qed.

End StyleFacts.

(** * When the extractor returns *)

Section TotalFacts.
Variable JSON_parse : string → option Envelope.

Lemma read_payload_parsed (json : Extractor.json_arg) :
  Extractor.read_payload JSON_parse json
  = match parsed JSON_parse json with
    | None => inl tt
    | Some e => inr (payload e)
    end.
Proof.
  destruct json as [|s|o]; simpl; [done| |done].
  destruct (bool_decide (s = "")); [done|]. by destruct (JSON_parse s).
Qed.

Lemma nodes_in_payload (e : Envelope) :
  default [] (payload e ≫= payload_nodes) = nodes_in e.
Proof.
  unfold nodes_in. destruct (payload e) as [p|]; [|done]. simpl.
  by destruct (payload_nodes p).
Qed.

Lemma find_table_None (L : list node) :
  find (λ n, Extractor.has_tag "table" n) L = None ↔ ¬ has_table L.
Proof.
  split.
  - intros Hfind (n & Hn & Htag).
    apply list_elem_of_In in Hn.
    pose proof (find_none _ _ Hfind n Hn) as Hf. simpl in Hf.
    unfold Extractor.has_tag in Hf. by rewrite bool_decide_true in Hf.
  - intros Hno. destruct (find _ L) as [n|] eqn:Hfind; [|done].
    destruct Hno. apply find_some in Hfind as [Hn Htag].
    exists n. split; [by apply list_elem_of_In|].
    unfold Extractor.has_tag in Htag. by apply bool_decide_eq_true in Htag.
Qed.

(** The sections are read only when there is a table; what is read is
    never [null]. *)
Lemma readSections_null (fuel : nat) (json : Extractor.json_arg) :
  Extractor.readSections JSON_parse fuel json = Some None ↔ no_data JSON_parse json.
Proof.
  unfold Extractor.readSections, no_data. rewrite read_payload_parsed.
  destruct (parsed JSON_parse json) as [e|]; [|done].
  rewrite nodes_in_payload.
  destruct (bool_decide_reflect (nodes_in e = [])) as [Hnil | Hnil]; [by intuition|].
  destruct (find _ (nodes_in e)) as [tableNode|] eqn:Hfind.
  - split.
    + intros H. exfalso.
      destruct (Extractor.readSectionRows fuel _ (find (λ n, Extractor.has_tag "thead" n) _));
        [|done].
      destruct (Extractor.readSectionRows fuel _ (find (λ n, Extractor.has_tag "tbody" n) _));
        [|done].
      destruct (Extractor.readSectionRows fuel _ (find (λ n, Extractor.has_tag "tfoot" n) _));
        done.
    + intros [? | Hno]; [done|]. apply find_table_None in Hno. congruence.
  - split; [|done]. intros _. right. by apply find_table_None.
Qed.

Lemma extract_null (fuel : nat) (json : Extractor.json_arg) :
  Extractor.extractRowsFromXscp JSON_parse fuel json = Some None
  ↔ no_data JSON_parse json.
Proof.
  rewrite <- (readSections_null fuel). unfold Extractor.extractRowsFromXscp.
  destruct (Extractor.readSections JSON_parse fuel json) as [[[[h b] f]|]|]; by split.
Qed.

Section Ranked.
Variable L : list node.
Variable rk : string → nat.
Hypothesis Hrk : ∀ n c, n ∈ L → c ∈ children_of n → rk c < rk (_id n).

Local Abbreviation idx := (Extractor.indexById L).

Lemma getText_None (fuel : nat) (i : gmap string node) :
  1 ≤ fuel → Extractor.getTextFromNode fuel i None = Some "".
Proof. destruct fuel; [lia | done]. Qed.

(** The text of a node is found when the stack is deeper than its rank. *)
Lemma getText_total (fuel : nat) (n : node) :
  n ∈ L → rk (_id n) + 2 ≤ fuel →
  is_Some (Extractor.getTextFromNode fuel idx (Some n)).
Proof.
  revert n. induction fuel as [|fuel IH]; intros n Hn Hfuel; [lia|].
  rewrite getTextFromNode_S. destruct (Extractor.is_text n); [eauto|].
  assert (Hcs : ∀ c, c ∈ children_of n → c ∈ children_of n) by done.
  revert Hcs. generalize (children_of n) at 1 3. intros cs Hcs.
  induction cs as [|c cs IHcs]; [simpl; eauto|].
  cbn [text_loop].
  assert (Hc : is_Some (Extractor.getTextFromNode fuel idx (idx !! c))).
  { destruct (idx !! c) as [n'|] eqn:Hlook.
    - apply indexById_Some in Hlook as [Hn' Hid].
      apply IH; [done|]. rewrite Hid.
      specialize (Hrk n c Hn (Hcs c ltac:(by left))). lia.
    - rewrite getText_None; [eauto | lia]. }
  destruct Hc as [t ->].
  destruct (Builder.nonempty t); [eauto|].
  apply IHcs. intros c' Hc'. apply Hcs. by right.
Qed.

Lemma rank_below_bound (n : node) : n ∈ L → rk (_id n) + 2 ≤ stack_bound L rk.
Proof.
  intros Hn. unfold stack_bound.
  assert (rk (_id n) ≤ max_list (map (λ n, rk (_id n)) L)); [|lia].
  apply max_list_elem_of_le. apply list_elem_of_In, in_map_iff.
  exists n. split; [done | by apply list_elem_of_In].
Qed.

Lemma omap_index_within (cs : list string) (n : node) :
  n ∈ omap (λ id, idx !! id) cs → n ∈ L.
Proof.
  intros Hn. apply list_elem_of_omap in Hn as (c & _ & Hlook).
  by apply indexById_Some in Hlook as [? _].
Qed.

Lemma readRow_total (fuel : nat) (tr : node) :
  stack_bound L rk ≤ fuel → is_Some (Extractor.readRow fuel idx tr).
Proof.
  intros Hfuel. unfold Extractor.readRow. apply mapM_is_Some, Forall_forall.
  intros cell Hcell. apply list_elem_of_filter in Hcell as [_ Hcell].
  apply omap_index_within in Hcell. simpl. apply getText_total; [done|].
  pose proof (rank_below_bound cell Hcell). lia.
Qed.

Lemma readSectionRows_total (fuel : nat) (section : option node) :
  stack_bound L rk ≤ fuel → is_Some (Extractor.readSectionRows fuel idx section).
Proof.
  intros Hfuel. destruct section as [sec|]; simpl; [|eauto].
  apply mapM_is_Some, Forall_forall. intros tr _. by apply readRow_total.
Qed.

End Ranked.

(** With a table and without a loop, the extractor returns rows. *)
Lemma extract_total (json : Extractor.json_arg) (e : Envelope) :
  parsed JSON_parse json = Some e → ¬ no_data JSON_parse json →
  acyclic (nodes_in e) →
  ∃ fuel0, ∀ fuel, fuel0 ≤ fuel →
    ∃ r, Extractor.extractRowsFromXscp JSON_parse fuel json = Some (Some r).
Proof.
  intros Hparsed Hdata (rk & Hrk).
  exists (stack_bound (nodes_in e) rk). intros fuel Hfuel.
  pose proof (proj2 (extract_null fuel json)) as Hnull.
  unfold Extractor.extractRowsFromXscp in *.
  unfold Extractor.readSections in *. rewrite read_payload_parsed, Hparsed in *.
  rewrite nodes_in_payload in *.
  destruct (bool_decide (nodes_in e = [])) eqn:Hnil.
  { exfalso. apply Hdata. unfold no_data. rewrite Hparsed. left.
    by apply bool_decide_eq_true in Hnil. }
  destruct (find _ (nodes_in e)) as [tableNode|] eqn:Hfind.
  2:{ exfalso. apply Hdata. unfold no_data. rewrite Hparsed. right.
      by apply find_table_None. }
  destruct (readSectionRows_total (nodes_in e) rk Hrk fuel
              (find (λ n, Extractor.has_tag "thead" n)
                 (omap (λ id, Extractor.indexById (nodes_in e) !! id)
                    (children_of tableNode))) Hfuel) as [h ->].
  destruct (readSectionRows_total (nodes_in e) rk Hrk fuel
              (find (λ n, Extractor.has_tag "tbody" n)
                 (omap (λ id, Extractor.indexById (nodes_in e) !! id)
                    (children_of tableNode))) Hfuel) as [b ->].
  destruct (readSectionRows_total (nodes_in e) rk Hrk fuel
              (find (λ n, Extractor.has_tag "tfoot" n)
                 (omap (λ id, Extractor.indexById (nodes_in e) !! id)
                    (children_of tableNode))) Hfuel) as [f ->].
  cbn [mbind option_bind]. eauto.
Qed.

End TotalFacts.

(** * Facts about the tree preview *)

Section PreviewFacts.
Import TreePreview.

Lemma elem_of_set_add (x y : string) (set : list string) :
  x ∈ set_add y set ↔ x = y ∨ x ∈ set.
Proof.
  unfold set_add. destruct (bool_decide_reflect (y ∈ set)) as [Hy | Hy].
  - split; [by right|]. by intros [-> | ?].
  - rewrite elem_of_app, list_elem_of_singleton. tauto.
Qed.

Lemma elem_of_collect (P : node → bool) (nodes : list node) (acc : list string)
    (id : string) :
  id ∈ foldl (λ set n, if P n then set_add (_id n) set else set) acc nodes
  ↔ id ∈ acc ∨ ∃ m, m ∈ nodes ∧ P m = true ∧ _id m = id.
Proof.
  revert acc. induction nodes as [|n nodes IH]; intros acc; simpl.
  - split; [by left|]. intros [? | (m & Hm & _)]; [done|]. by apply elem_of_nil in Hm.
  - rewrite IH. destruct (P n) eqn:HP.
    + rewrite elem_of_set_add. split.
      * intros [[-> | ?] | (m & Hm & ? & ?)]; [right | by left | right].
        -- exists n. split; [by left | done].
        -- exists m. split; [by right | done].
      * intros [? | (m & Hm & HPm & Hid)]; [by left; right|].
        apply elem_of_cons in Hm as [-> | Hm]; [by left; left|].
        right. by exists m.
    + split.
      * intros [? | (m & Hm & ? & ?)]; [by left|]. right.
        exists m. split; [by right | done].
      * intros [? | (m & Hm & HPm & Hid)]; [by left|].
        apply elem_of_cons in Hm as [-> | Hm]; [congruence|].
        right. by exists m.
Qed.

Lemma includes_empty (q : string) : q ≠ "" → includes "" q = false.
Proof. by destruct q. Qed.

(** A node matches a query that is not empty when its tag or the name of
    one of its classes contains the query. *)
Lemma node_matches_spec (styles : list Style.t) (q : string) (n : node) :
  q ≠ "" →
  node_matches styles q n = true ↔
  includes (toLowerCase (raw_tag n)) q = true ∨
  ∃ cid name, cid ∈ classes_of n ∧ classNameById styles !! cid = Some name ∧
              includes (toLowerCase name) q = true.
Proof.
  intros Hq. unfold node_matches. rewrite orb_true_iff, existsb_exists.
  split; (intros [Htag | Hcls]; [by left | right]).
  - destruct Hcls as (cn & Hin & Hinc). apply in_map_iff in Hin as (cid & <- & Hcid).
    destruct (classNameById styles !! cid) as [name|] eqn:Hname.
    + exists cid, name. split; [by apply list_elem_of_In | done].
    + by rewrite includes_empty in Hinc.
  - destruct Hcls as (cid & name & Hcid & Hname & Hinc).
    exists (toLowerCase name). split; [|done].
    apply in_map_iff. exists cid. rewrite Hname. split; [done|].
    by apply list_elem_of_In.
Qed.

Lemma matchSet_spec (nodes : list node) (styles : list Style.t) (sq id : string) :
  id ∈ matchSet nodes styles sq ↔
  query sq ≠ "" ∧
  ∃ m, m ∈ nodes ∧ _id m = id ∧ node_matches styles (query sq) m = true.
Proof.
  unfold matchSet. destruct (bool_decide_reflect (query sq = "")) as [Hq | Hq].
  - split; [intros H; by apply elem_of_nil in H | by intros [? _]].
  - rewrite elem_of_collect. split.
    + intros [H | (m & ? & ? & ?)]; [by apply elem_of_nil in H|]. eauto 10.
    + intros (_ & m & ? & ? & ?). right. eauto.
Qed.

Lemma elem_of_childSet_acc (nodes : list node) (acc : list string) (c : string) :
  c ∈ foldl (λ set n, foldl (λ set c, set_add c set) set (children_of n)) acc nodes
  ↔ c ∈ acc ∨ ∃ p, p ∈ nodes ∧ c ∈ children_of p.
Proof.
  assert (Hinner : ∀ (cs acc : list string),
    c ∈ foldl (λ set c, set_add c set) acc cs ↔ c ∈ acc ∨ c ∈ cs).
  { induction cs as [|x cs IH]; intros acc'; simpl.
    - split; [by left|]. intros [?|H]; [done | by apply elem_of_nil in H].
    - rewrite IH, elem_of_set_add, elem_of_cons. tauto. }
  revert acc. induction nodes as [|n nodes IH]; intros acc; simpl.
  - split; [by left|]. intros [?|(p & Hp & _)]; [done | by apply elem_of_nil in Hp].
  - rewrite IH, Hinner. split.
    + intros [[? | ?] | (p & Hp & ?)]; [by left | right | right].
      * exists n. split; [by left | done].
      * exists p. split; [by right | done].
    + intros [? | (p & Hp & Hc)]; [by left; left|].
      apply elem_of_cons in Hp as [-> | Hp]; [by left; right|].
      right. by exists p.
Qed.

Lemma elem_of_childSet (nodes : list node) (c : string) :
  c ∈ childSet nodes ↔ ∃ p, p ∈ nodes ∧ c ∈ children_of p.
Proof.
  unfold childSet. rewrite elem_of_childSet_acc. split; [|by right].
  intros [H | ?]; [by apply elem_of_nil in H | done].
Qed.

Lemma elem_of_roots (nodes : list node) (n : node) :
  n ∈ roots nodes ↔ n ∈ nodes ∧ _id n ∉ childSet nodes.
Proof. unfold roots. rewrite list_elem_of_filter. tauto. Qed.

Lemma mounted_in (nodes : list node) (n : node) (d : nat) :
  mounted nodes n d → n ∈ nodes.
Proof.
  induction 1 as [n Hroot | p d cid c _ _ _ Hlook].
  - by apply elem_of_roots in Hroot as [? _].
  - by apply indexById_Some in Hlook as [? _].
Qed.

(** The items at depth 0 are the roots. *)
Lemma mounted_depth (nodes : list node) (n : node) (d : nat) :
  mounted nodes n d → d = 0 ↔ n ∈ roots nodes.
Proof.
  intros Hm. destruct Hm as [n Hroot | p d cid c Hp Hcid Hlook]; [done|].
  split; [done|]. intros Hroot. exfalso.
  apply elem_of_roots in Hroot as [_ Hnot]. apply Hnot.
  apply elem_of_childSet. exists p. split; [by eapply mounted_in|].
  apply indexById_Some in Hlook as [_ ->]. done.
Qed.

Lemma DomNodeItem_open_all (m a : bool) (d : nat) : DomNodeItem_open "all" m a d = true.
Proof. reflexivity. Qed.

Lemma DomNodeItem_open_collapse (m a : bool) (d : nat) :
  DomNodeItem_open "collapse" m a d = false.
Proof. reflexivity. Qed.

Lemma DomNodeItem_open_other (mode : string) (m a : bool) (d : nat) :
  mode ≠ "all" → mode ≠ "collapse" →
  DomNodeItem_open mode m a d = true ↔ m = true ∨ a = true ∨ d = 0.
Proof.
  intros H1 H2. unfold DomNodeItem_open.
  rewrite (bool_decide_false _ H1), (bool_decide_false _ H2).
  rewrite !orb_true_iff, bool_decide_eq_true. split; [|intuition lia].
  intros [[?|?]|?]; [auto | auto | right; right; lia].
Qed.

(** *** The loop of [ancestorSet] *)

Lemma unvisited_le (parent : gmap string string) (set : list string) :
  unvisited parent set ≤ size parent.
Proof.
  unfold unvisited. etrans; [apply length_filter|].
  by rewrite length_fmap, length_map_to_list.
Qed.

Lemma filter_out_more (V set : list string) (c : string) :
  c ∈ V → c ∉ set →
  length (filter (λ v, v ∉ set_add c set) V) < length (filter (λ v, v ∉ set) V).
Proof.
  intros HcV Hc.
  assert (Hle : ∀ W : list string,
    length (filter (λ v, v ∉ set_add c set) W) ≤ length (filter (λ v, v ∉ set) W)).
  { induction W as [|w W IH]; [done|]. rewrite !filter_cons.
    destruct (decide (w ∉ set_add c set)) as [Hw | Hw];
      destruct (decide (w ∉ set)) as [Hw' | Hw']; simpl; try lia.
    exfalso. apply Hw'. intros Hin. apply Hw. apply elem_of_set_add. by right. }
  induction V as [|w V IH]; [by apply elem_of_nil in HcV|].
  rewrite !filter_cons. apply elem_of_cons in HcV as [<- | HcV].
  - destruct (decide (c ∉ set_add c set)) as [Hw | Hw].
    { exfalso. apply Hw. apply elem_of_set_add. by left. }
    destruct (decide (c ∉ set)) as [_ | Hw']; [|done]. simpl.
    specialize (Hle V). lia.
  - specialize (IH HcV).
    destruct (decide (w ∉ set_add c set)) as [Hw | Hw];
      destruct (decide (w ∉ set)) as [Hw' | Hw']; simpl; try lia.
    exfalso. apply Hw'. intros Hin. apply Hw. apply elem_of_set_add. by right.
Qed.

Lemma parent_value (parent : gmap string string) (c c' : string) :
  parent !! c = Some c' → c' ∈ (map_to_list parent).*2.
Proof.
  intros H. apply list_elem_of_fmap. exists (c, c'). split; [done|].
  by apply elem_of_map_to_list.
Qed.

Lemma walk_up_S (parent : gmap string string) (fuel : nat) :
  ∀ set cur,
    (∀ c, cur = Some c → c ∈ (map_to_list parent).*2) →
    unvisited parent set ≤ fuel →
    walk_up (S fuel) parent set cur = walk_up fuel parent set cur.
Proof.
  induction fuel as [|fuel IH]; intros set cur Hcur Hfuel.
  - simpl. destruct cur as [c|]; [|done]. simpl.
    destruct (bool_decide_reflect (c = "")); [done|].
    destruct (bool_decide_reflect (c ∈ set)) as [|Hc]; [done|]. exfalso.
    pose proof (filter_out_more _ set c (Hcur c eq_refl) Hc) as Hlt.
    unfold unvisited in Hfuel. lia.
  - change (walk_up (S (S fuel)) parent set cur)
      with (match truthy cur with
            | Some c => if bool_decide (c ∈ set) then set
                        else walk_up (S fuel) parent (set_add c set) (parent !! c)
            | None => set
            end).
    change (walk_up (S fuel) parent set cur)
      with (match truthy cur with
            | Some c => if bool_decide (c ∈ set) then set
                        else walk_up fuel parent (set_add c set) (parent !! c)
            | None => set
            end).
    destruct cur as [c|]; [|done]. simpl.
    destruct (bool_decide_reflect (c = "")); [done|].
    destruct (bool_decide_reflect (c ∈ set)) as [|Hc]; [done|].
    apply IH.
    + intros c'. apply parent_value.
    + pose proof (filter_out_more _ set c (Hcur c eq_refl) Hc) as Hlt.
      unfold unvisited in *. lia.
Qed.

(** The loop of [ancestorSet] ends within the rounds that the model gives
    it: more rounds give the same set. *)
Lemma walk_up_enough (parent : gmap string string) (set : list string) (id : string)
    (fuel : nat) :
  S (size parent) ≤ fuel →
  walk_up fuel parent set (parent !! id)
  = walk_up (S (size parent)) parent set (parent !! id).
Proof.
  induction 1 as [|fuel Hle IH]; [done|].
  rewrite walk_up_S; [done | intros c; apply parent_value |].
  pose proof (unvisited_le parent set). lia.
Qed.

End PreviewFacts.

(** * More facts about the CSV codec *)

Section CsvMore.
Import CSV.

Lemma flush_rows_nonempty (rows : list (list string)) (row : list string) (field : string) :
  Forall (λ r, r ≠ []) rows → Forall (λ r, r ≠ []) (flush rows row field).
Proof.
  intros H. unfold flush.
  destruct (bool_decide (1 < length (row ++ [field])) || _); [|done].
  apply Forall_app. split; [done|]. apply Forall_singleton. by destruct row.
Qed.

(** A property of every run of the loop, proved for a text and for the
    text with one more character in front: the escaped quote consumes two
    characters. *)
Lemma loop_rows_nonempty (input : string) :
  (∀ rows row field q,
     Forall (λ r, r ≠ []) rows → Forall (λ r, r ≠ []) (parse_loop input rows row field q)) ∧
  (∀ ch rows row field q,
     Forall (λ r, r ≠ []) rows →
     Forall (λ r, r ≠ []) (parse_loop (String ch input) rows row field q)).
Proof.
  induction input as [|a input [IH1 IH2]].
  - assert (H0 : ∀ rows row field q,
      Forall (λ r, r ≠ []) rows → Forall (λ r, r ≠ []) (parse_loop "" rows row field q)).
    { intros rows row field q H. by apply flush_rows_nonempty. }
    split; [done|]. intros ch rows row field q H. simpl.
    assert (Hpush : Forall (λ r : list string, r ≠ []) (rows ++ [row ++ [field]])).
    { apply Forall_app. split; [done|]. apply Forall_singleton. by destruct row. }
    destruct q; repeat (case_match; try by apply flush_rows_nonempty).
  - split; [by apply IH2|]. intros ch rows row field q H.
    assert (Hpush : Forall (λ r : list string, r ≠ []) (rows ++ [row ++ [field]])).
    { apply Forall_app. split; [done|]. apply Forall_singleton. by destruct row. }
    change (parse_loop (String ch (String a input)) rows row field q)
      with (if q then
              if Ascii.eqb ch dquote then
                if Ascii.eqb a dquote
                then parse_loop input rows row (snoc field dquote) true
                else parse_loop (String a input) rows row field false
              else parse_loop (String a input) rows row (snoc field ch) true
            else
              if Ascii.eqb ch dquote then parse_loop (String a input) rows row field true
              else if Ascii.eqb ch comma
                   then parse_loop (String a input) rows (row ++ [field]) "" false
              else if Ascii.eqb ch LF
                   then parse_loop (String a input) (rows ++ [row ++ [field]]) [] "" false
              else if Ascii.eqb ch CR then parse_loop (String a input) rows row field false
              else parse_loop (String a input) rows row (snoc field ch) false).
    destruct q; repeat case_match; auto.
Qed.

Lemma parse_loop_unquoted (s : string) :
  ¬ occurs dquote s →
  ∀ rows row field,
    parse_loop s rows row field false = parse_loop (drop_CR s) rows row field false.
Proof.
  unfold occurs. induction s as [|ch s IH]; intros Hq rows row field; [done|].
  simpl in Hq.
  assert (Hch : Ascii.eqb ch dquote = false).
  { apply Ascii.eqb_neq. intros ->. apply Hq. by left. }
  assert (Hs : ¬ In dquote (list_ascii_of_string s)) by (intros ?; apply Hq; by right).
  simpl. rewrite Hch.
  destruct (Ascii.eqb ch CR) eqn:Hcr.
  - apply Ascii.eqb_eq in Hcr as ->. simpl. by apply IH.
  - simpl. rewrite Hch, Hcr.
    destruct (Ascii.eqb ch comma); [by apply IH|].
    destruct (Ascii.eqb ch LF); by apply IH.
Qed.

Lemma parse_loop_open_quote (s : string) :
  ¬ occurs dquote s →
  ∀ rows row field,
    parse_loop s rows row field true = flush rows row (field +:+ s).
Proof.
  unfold occurs. induction s as [|ch s IH]; intros Hq rows row field.
  - simpl. by rewrite sapp_nil_r.
  - simpl in Hq.
    assert (Hch : Ascii.eqb ch dquote = false).
    { apply Ascii.eqb_neq. intros ->. apply Hq. by left. }
    simpl. rewrite Hch. rewrite IH by (intros ?; apply Hq; by right).
    by rewrite snoc_app.
Qed.

Lemma flush_empty_row (rows : list (list string)) : flush rows [] "" = rows.
Proof. reflexivity. Qed.

Lemma eol_ahead (eol rest : string) :
  eol = String LF "" ∨ eol = String CR (String LF "") → no_quote_ahead (eol +:+ rest).
Proof. by intros [-> | ->]. Qed.

Lemma loop_eol (eol rest : string) rows row field :
  eol = String LF "" ∨ eol = String CR (String LF "") →
  parse_loop (eol +:+ rest) rows row field false
  = parse_loop rest (rows ++ [row ++ [field]]) [] "" false.
Proof. by intros [-> | ->]. Qed.

Lemma loop_terminated (eol : string) (g : list (list string)) :
  eol = String LF "" ∨ eol = String CR (String LF "") →
  Forall (λ r, r ≠ []) g →
  ∀ rows, parse_loop (terminated eol g) rows [] "" false = rows ++ g.
Proof.
  intros Heol. induction g as [|r g IH]; intros Hne rows.
  - simpl. by rewrite app_nil_r.
  - apply Forall_cons in Hne as [Hr Hg]. destruct r as [|c cs]; [done|].
    cbn [terminated foldr]. fold (terminated eol g).
    rewrite CSVFacts.loop_row by (by apply eol_ahead).
    rewrite loop_eol by done. rewrite app_nil_l, CSVFacts.removelast_last.
    rewrite IH by done. by rewrite <- app_assoc.
Qed.

Lemma terminated_stringify (g : list (list string)) :
  g ≠ [] → terminated (String LF "") g = stringifyCSV g +:+ String LF "".
Proof.
  intros Hg. destruct g as [|r g]; [done|]. clear Hg. revert r.
  induction g as [|r' g IH]; intros r.
  - unfold stringifyCSV. simpl. by rewrite sapp_nil_r.
  - change (terminated (String LF "") (r :: r' :: g))
      with (stringifyRow r +:+ String LF "" +:+ terminated (String LF "") (r' :: g)).
    rewrite IH.
    change (stringifyCSV (r :: r' :: g))
      with (join (String LF "") (stringifyRow r :: stringifyRow r' :: map stringifyRow g)).
    rewrite join_cons2.
    change (join (String LF "") (stringifyRow r' :: map stringifyRow g))
      with (stringifyCSV (r' :: g)).
    by rewrite !sapp_assoc.
Qed.

End CsvMore.

(** * Facts about class names *)

Section TokenFacts.

Lemma chars_app (a b : string) :
  list_ascii_of_string (a +:+ b) = list_ascii_of_string a ++ list_ascii_of_string b.
Proof. induction a as [|x a IH]; [done|]. rewrite sapp_cons. simpl. by rewrite IH. Qed.

Lemma chars_inj (a b : string) :
  list_ascii_of_string a = list_ascii_of_string b → a = b.
Proof.
  intros H. rewrite <- (string_of_list_ascii_of_string a), H.
  apply string_of_list_ascii_of_string.
Qed.

Lemma chars_rev_app (s acc : string) :
  list_ascii_of_string (String.rev_app s acc)
  = rev (list_ascii_of_string s) ++ list_ascii_of_string acc.
Proof.
  revert acc. induction s as [|x s IH]; intros acc; [done|].
  simpl. rewrite IH. simpl. by rewrite <- app_assoc.
Qed.

Lemma chars_rev (s : string) :
  list_ascii_of_string (String.rev s) = rev (list_ascii_of_string s).
Proof. unfold String.rev. rewrite chars_rev_app. simpl. by rewrite app_nil_r. Qed.

Lemma rev_rev (s : string) : String.rev (String.rev s) = s.
Proof. apply chars_inj. by rewrite !chars_rev, rev_involutive. Qed.

Lemma ltrim_spaceless (s : string) : spaceless s → ltrim s = s.
Proof.
  destruct s as [|ch s]; [done|]. intros H. apply Forall_cons in H as [H _].
  simpl. by rewrite H.
Qed.

Lemma trim_spaceless (s : string) : spaceless s → trim s = s.
Proof.
  intros H. unfold trim. rewrite (ltrim_spaceless s H).
  rewrite ltrim_spaceless; [apply rev_rev|].
  unfold spaceless. rewrite chars_rev. by apply Forall_rev.
Qed.

Lemma is_token_spec (name : string) :
  is_token name = true ↔ name ≠ "" ∧ spaceless name.
Proof.
  unfold is_token, Builder.nonempty, spaceless.
  rewrite andb_true_iff, negb_true_iff, bool_decide_eq_false, forallb_forall.
  rewrite Forall_forall. split; intros [H1 H2]; (split; [done|]); intros ch Hch.
  - apply list_elem_of_In in Hch. apply H2 in Hch. by apply negb_true_iff in Hch.
  - apply negb_true_iff. apply H2. by apply list_elem_of_In.
Qed.

Lemma split_go_spaceless (s cur : string) :
  spaceless s → split_go cur false s = [cur +:+ s].
Proof.
  revert cur. induction s as [|ch s IH]; intros cur H.
  - simpl. by rewrite sapp_nil_r.
  - apply Forall_cons in H as [Hch Hs]. simpl. rewrite Hch.
    rewrite IH by done. by rewrite snoc_app.
Qed.

Lemma split_ws_token (name : string) : spaceless name → split_ws name = [name].
Proof. intros H. unfold split_ws. by rewrite split_go_spaceless. Qed.

(** The pieces of a split hold no white space. *)
Lemma split_go_pieces (s cur : string) (b : bool) :
  spaceless cur → Forall spaceless (split_go cur b s).
Proof.
  revert cur b. induction s as [|ch s IH]; intros cur b Hcur.
  - simpl. by apply Forall_singleton.
  - simpl. destruct (is_space ch) eqn:Hch.
    + destruct b; [by apply IH|]. apply Forall_cons. split; [done|].
      apply IH. constructor.
    + apply IH. unfold spaceless, snoc. rewrite chars_app.
      apply Forall_app. split; [done|]. simpl. by repeat constructor.
Qed.

Lemma split_ws_pieces (s : string) : Forall spaceless (split_ws s).
Proof. apply split_go_pieces. constructor. Qed.

(** The names that [classIds] passes to [ensureStyle] are tokens. *)
Lemma classIds_names_tokens (lst : list string) :
  Forall (λ n, is_token n = true)
    (filter (λ n, Builder.nonempty n)
       (flat_map (λ n, if bool_decide (n = "") then [] else split_ws (trim n)) lst)).
Proof.
  apply Forall_forall. intros n Hn. apply list_elem_of_filter in Hn as [Hne Hn].
  apply is_token_spec. split.
  - unfold Builder.nonempty in Hne. apply Is_true_true in Hne.
    by apply negb_true_iff, bool_decide_eq_false in Hne.
  - apply list_elem_of_In, in_flat_map in Hn as (x & _ & Hx).
    destruct (bool_decide (x = "")); [done|].
    apply list_elem_of_In in Hx.
    by apply (proj1 (Forall_forall _ _) (split_ws_pieces (trim x))).
Qed.

(** The style of a token is the declaration of the token itself. *)
Lemma tailwind_token (name : string) :
  is_token name = true → Builder.tailwindToStyleLess name = Builder.tokenCss name.
Proof.
  intros H. apply is_token_spec in H as [Hne Hsp].
  unfold Builder.tailwindToStyleLess. rewrite (bool_decide_false _ Hne).
  rewrite (trim_spaceless _ Hsp), (split_ws_token _ Hsp). cbn [map].
  rewrite filter_cons. unfold Builder.nonempty.
  destruct (bool_decide_reflect (Builder.tokenCss name = "")) as [-> | Hcss].
  - by rewrite decide_False by (by intros ?).
  - by rewrite decide_True by done.
Qed.

Lemma token_not_blank (name : string) :
  is_token name = true →
  bool_decide (name = "") || bool_decide (trim name = "") = false.
Proof.
  intros H. apply is_token_spec in H as [Hne Hsp].
  rewrite (trim_spaceless _ Hsp). by rewrite (bool_decide_false _ Hne).
Qed.

Lemma digits_after_app (p key : string) :
  key ≠ "" → Builder.all_digits key = true →
  Builder.digits_after p (p +:+ key) = Some key.
Proof.
  intros Hne Hd. induction p as [|a p IH].
  - rewrite sapp_nil_l. destruct key; [done|]. simpl in *. by rewrite Hd.
  - rewrite sapp_cons. cbn [Builder.digits_after]. by rewrite Ascii.eqb_refl.
Qed.

End TokenFacts.

(** * What every run of the builder keeps true *)

Section HoareRules.
Import Builder.

Lemma hoare_bind {A B} (P : state → Prop) (m : M A) (Q : A → state → Prop)
    (f : A → M B) (R : B → state → Prop) :
  hoare P m Q → (∀ a, hoare (Q a) (f a) R) → hoare P (bind m f) R.
Proof. intros Hm Hf s HP. unfold bind. apply Hf. by apply Hm. Qed.

Lemma hoare_ret {A} (P : state → Prop) (a : A) : hoare P (ret a) (λ _, P).
Proof. by intros s HP. Qed.

Lemma hoare_weaken {A} (P P' : state → Prop) (m : M A) (Q Q' : A → state → Prop) :
  hoare P' m Q' → (∀ s, P s → P' s) → (∀ a s, Q' a s → Q a s) → hoare P m Q.
Proof. intros Hm HP HQ s Hs. apply HQ, Hm, HP, Hs. Qed.

Lemma hoare_forM {A} (P : state → Prop) (l : list A) (f : A → M unit) :
  (∀ x, hoare P (f x) (λ _, P)) → hoare P (forM l f) (λ _, P).
Proof.
  intros Hf. induction l as [|x l IH]; [apply hoare_ret|].
  simpl. eapply hoare_bind; [apply Hf|]. intros ?. apply IH.
Qed.

End HoareRules.

Section InvFacts.
Import Builder.
Variable rnd : nat → string.

Lemma node_id_ok_mono (d d' : nat) (n : node) :
  d ≤ d' → node_id_ok rnd d n → node_id_ok rnd d' n.
Proof. intros Hd (k & Hk & Hid). exists k. split; [lia | done]. Qed.

Lemma sound_init : sound rnd init.
Proof.
  split; simpl.
  - intros name id. rewrite lookup_empty. split; [done|].
    intros (st & Hst & _). by apply elem_of_nil in Hst.
  - constructor.
  - constructor.
  - constructor.
  - intros n c Hn. by apply elem_of_nil in Hn.
  - exists []. repeat split; constructor.
  - constructor.
Qed.

Lemma settled_init : settled rnd init.
Proof. split; [apply sound_init | done]. Qed.

(** *** [ensureStyle] *)

Lemma ensureStyle_run_new (name : string) (s : state) :
  is_token name = true → styleIndex s !! name = None →
  ensureStyle rnd name s
  = (Some ("cls_" +:+ rnd (draws s)),
     {| nodes := nodes s;
        styles := styles s ++
          [{| Style._id := "cls_" +:+ rnd (draws s); Style.name := name;
              Style.styleLess := (declaration name).1;
              Style.variants := (declaration name).2 |}];
        styleIndex := <[name := "cls_" +:+ rnd (draws s)]> (styleIndex s);
        draws := S (draws s) |}).
Proof.
  intros Htok Hidx. unfold ensureStyle. rewrite (token_not_blank _ Htok), Hidx.
  unfold declaration. rewrite (tailwind_token _ Htok).
  by destruct (SECTION_PRESETS name) as [[sl vs]|].
Qed.

Lemma ensureStyle_run_known (name id : string) (s : state) :
  is_token name = true → styleIndex s !! name = Some id →
  ensureStyle rnd name s = (Some id, s).
Proof.
  intros Htok Hidx. unfold ensureStyle. by rewrite (token_not_blank _ Htok), Hidx.
Qed.

Lemma sound_new_style (name : string) (s : state) :
  is_token name = true → styleIndex s !! name = None → sound rnd s →
  sound rnd (ensureStyle rnd name s).2.
Proof.
  intros Htok Hidx [Hi Hn Ht Hd Hc Hs Hno].
  rewrite (ensureStyle_run_new _ _ Htok Hidx). cbn [snd].
  assert (Hfresh : name ∉ map Style.name (styles s)).
  { intros Hin. apply list_elem_of_fmap in Hin as (st & Hname & Hst).
    assert (styleIndex s !! name = Some (Style._id st)) as Hsome.
    { apply Hi. by exists st. }
    congruence. }
  split; cbn [nodes styles styleIndex draws].
  - intros nm id. rewrite lookup_insert_Some. split.
    + intros [[<- <-] | [Hne Hlook]].
      * eexists. split; [apply elem_of_app; right; by apply list_elem_of_singleton|done].
      * apply Hi in Hlook as (st & Hst & ? & ?). exists st.
        split; [apply elem_of_app; by left | done].
    + intros (st & Hst & Hname & Hid). apply elem_of_app in Hst as [Hst | Hst].
      * right. split.
        -- intros <-. apply Hfresh. apply list_elem_of_fmap. by exists st.
        -- apply Hi. by exists st.
      * apply list_elem_of_singleton in Hst. subst st. by left.
  - rewrite map_app. apply NoDup_app. split; [done|]. split.
    + intros x Hx Hin. apply list_elem_of_singleton in Hin. by subst x.
    + apply NoDup_singleton.
  - apply Forall_app. split; [done|]. by apply Forall_singleton.
  - apply Forall_app. split; [done|]. apply Forall_singleton. simpl.
    by destruct (declaration name).
  - intros n c Hin Hcls. unfold style_ids. cbn [styles]. rewrite map_app.
    apply elem_of_app. left. by eapply Hc.
  - destruct Hs as (ks & Hids & Hsorted & Hlt).
    exists (ks ++ [draws s]). unfold style_ids in *. cbn [styles draws].
    rewrite !map_app, Hids. split; [done|]. split.
    + clear Hids. induction Hsorted as [|k ks Hk IH Hall]; [repeat constructor|].
      apply Forall_cons in Hlt as [Hk0 Hlt]. cbn [app]. constructor; [by apply IH|].
      apply Forall_app. split; [done|]. by apply Forall_singleton.
    + apply Forall_app. split.
      * eapply Forall_impl; [exact Hlt|]. simpl. lia.
      * apply Forall_singleton. lia.
  - eapply Forall_impl; [exact Hno|]. intros n. apply node_id_ok_mono. lia.
Qed.

(** The state after [ensureStyle] on a token, where the ids of [X] were
    ids of styles before. *)
Lemma ensureStyle_settled (X : list string) (name : string) (s : state) :
  is_token name = true → settled rnd s → (∀ c, c ∈ X → c ∈ style_ids s) →
  ∃ id, (ensureStyle rnd name s).1 = Some id ∧
        settled rnd (ensureStyle rnd name s).2 ∧
        id ∈ style_ids (ensureStyle rnd name s).2 ∧
        (∀ c, c ∈ X → c ∈ style_ids (ensureStyle rnd name s).2).
Proof.
  intros Htok [Hsound Hcount] HX.
  destruct (styleIndex s !! name) as [id|] eqn:Hidx.
  - rewrite (ensureStyle_run_known _ _ _ Htok Hidx). exists id. cbn [fst snd].
    split; [done|]. split; [by split|]. split; [|done].
    apply (sound_index _ _ Hsound) in Hidx as (st & Hst & _ & <-).
    apply list_elem_of_fmap. by exists st.
  - pose proof (sound_new_style _ _ Htok Hidx Hsound) as Hsound'.
    rewrite (ensureStyle_run_new _ _ Htok Hidx) in *. cbn [fst snd] in *.
    eexists. split; [done|]. split; [|split].
    + split; [done|]. cbn [nodes styles draws]. rewrite length_app. simpl. lia.
    + unfold style_ids. cbn [styles]. rewrite map_app. apply elem_of_app. right.
      by apply list_elem_of_singleton.
    + intros c Hc. unfold style_ids. cbn [styles]. rewrite map_app.
      apply elem_of_app. left. by apply HX.
Qed.

Lemma mapM_ensureStyle_settled (l : list string) :
  Forall (λ n, is_token n = true) l →
  ∀ (X : list string) (s : state),
    settled rnd s → (∀ c, c ∈ X → c ∈ style_ids s) →
    let r := mapM (ensureStyle rnd) l s in
    settled rnd r.2 ∧
    (∀ c, c ∈ X → c ∈ style_ids r.2) ∧
    Forall (λ o, ∃ id, o = Some id ∧ id ∈ style_ids r.2) r.1.
Proof.
  induction 1 as [|name l Htok Hl IH]; intros X s Hs HX.
  - cbn zeta. cbn [mapM]. unfold ret. cbn [fst snd].
    split; [done|]. split; [done|]. constructor.
  - cbn zeta. cbn [mapM]. unfold bind, ret.
    destruct (ensureStyle_settled X name s Htok Hs HX) as (id & Hid & Hs' & Hin & HX').
    destruct (ensureStyle rnd name s) as [o s'] eqn:He. cbn [fst snd] in *. subst o.
    destruct (IH (id :: X) s' Hs') as (Hs'' & HX'' & Hos).
    { intros c Hc. apply elem_of_cons in Hc as [-> | Hc]; [done | by apply HX']. }
    cbn zeta in *. destruct (mapM (ensureStyle rnd) l s') as [os s''] eqn:Hm.
    cbn [fst snd] in *. split; [done|]. split.
    + intros c Hc. apply HX''. by right.
    + apply Forall_cons. split; [|done]. exists id. split; [done|].
      apply HX''. by left.
Qed.

Lemma hoare_classIds (lst : list string) :
  hoare (settled rnd) (classIds rnd lst) (resolved rnd).
Proof.
  intros s Hs. unfold classIds, bind, ret. cbn [fst snd].
  destruct (mapM_ensureStyle_settled _ (classIds_names_tokens lst) [] s Hs)
    as (Hs' & _ & Hos).
  { intros c Hc. by apply elem_of_nil in Hc. }
  cbn zeta in *. split; [done|]. intros c Hc.
  unfold truthy_ids in Hc. apply list_elem_of_omap in Hc as (o & Ho & Htr).
  apply (proj1 (Forall_forall _ _) Hos) in Ho as (id & -> & Hid).
  simpl in Htr. destruct (bool_decide (id = "")); [done|]. by simplify_eq.
Qed.

(** *** Nodes *)

Lemma hoare_makeDomNode (tg : string) (cls : list string) (attrs : list attribute) :
  hoare (resolved rnd cls) (makeDomNode rnd tg cls attrs false) (pending rnd).
Proof.
  intros s [[[Hi Hn Ht Hd Hc Hs Hno] Hcount] Hcls]. rewrite makeDomNode_run. cbn [fst snd].
  split; [|split; [|split]].
  - split; cbn [nodes styles styleIndex draws]; try done.
    + destruct Hs as (ks & Hids & Hsorted & Hlt). exists ks.
      split; [done|]. split; [done|].
      eapply Forall_impl; [exact Hlt|]. simpl. lia.
    + eapply Forall_impl; [exact Hno|]. intros n. apply node_id_ok_mono. lia.
  - cbn [nodes styles draws]. lia.
  - exists (draws s). cbn [draws]. split; [lia | done].
  - done.
Qed.

Lemma hoare_makeDomNode_plain (tg : string) (attrs : list attribute) :
  hoare (settled rnd) (makeDomNode rnd tg [] attrs false) (pending rnd).
Proof.
  intros s Hs. apply hoare_makeDomNode. split; [done|].
  intros c Hc. by apply elem_of_nil in Hc.
Qed.

Lemma hoare_makeTextNode (val : string) :
  hoare (settled rnd) (makeTextNode rnd val) (pending rnd).
Proof.
  intros s [[Hi Hn Ht Hd Hc Hs Hno] Hcount]. rewrite makeTextNode_run. cbn [fst snd].
  split; [|split; [|split]].
  - split; cbn [nodes styles styleIndex draws]; try done.
    + destruct Hs as (ks & Hids & Hsorted & Hlt). exists ks.
      split; [done|]. split; [done|].
      eapply Forall_impl; [exact Hlt|]. simpl. lia.
    + eapply Forall_impl; [exact Hno|]. intros n. apply node_id_ok_mono. lia.
  - cbn [nodes styles draws]. lia.
  - exists (draws s). cbn [draws]. split; [lia | done].
  - intros c Hc'. by apply elem_of_nil in Hc'.
Qed.

Lemma hoare_push (n : node) : hoare (pending rnd n) (push n) (λ _, settled rnd).
Proof.
  intros s ([Hi Hn Ht Hd Hc Hs Hno] & Hcount & Hid & Hcls). cbn [push fst snd].
  split.
  - split; cbn [nodes styles styleIndex draws]; try done.
    + intros m c Hm Hcm. apply elem_of_app in Hm as [Hm | Hm]; [by eapply Hc|].
      apply list_elem_of_singleton in Hm. subst m. by apply Hcls.
    + apply Forall_app. split; [done|]. by apply Forall_singleton.
  - cbn [nodes styles draws]. rewrite length_app. simpl. lia.
Qed.

Lemma add_child_classes (cid : string) (n : node) :
  classes_of (add_child cid n) = classes_of n.
Proof. reflexivity. Qed.

Lemma add_child_is_text (cid : string) (n : node) :
  Extractor.is_text (add_child cid n) = Extractor.is_text n.
Proof. reflexivity. Qed.

Lemma elem_of_alter {A} (f : A → A) (i : nat) (l : list A) (m : A) :
  m ∈ alter f i l → m ∈ l ∨ ∃ x, x ∈ l ∧ m = f x.
Proof.
  intros Hm. apply list_elem_of_lookup in Hm as (j & Hj).
  destruct (decide (i = j)) as [<- | Hne].
  - rewrite list_lookup_alter_eq in Hj. apply fmap_Some in Hj as (x & Hx & ->).
    right. exists x. split; [by eapply list_elem_of_lookup_2 | done].
  - rewrite list_lookup_alter_ne in Hj by done. left. by eapply list_elem_of_lookup_2.
Qed.

Lemma hoare_children_push (r : ref) (cid : string) :
  hoare (settled rnd) (children_push r cid) (λ _, settled rnd).
Proof.
  intros s [[Hi Hn Ht Hd Hc Hs Hno] Hcount]. cbn [children_push fst snd].
  split.
  - split; cbn [nodes styles styleIndex draws]; try done.
    + intros m c Hm Hcm. apply elem_of_alter in Hm as [Hm | (x & Hx & ->)].
      * by eapply Hc.
      * rewrite add_child_classes in Hcm. by eapply Hc.
    + apply Forall_forall. intros m Hm.
      apply elem_of_alter in Hm as [Hm | (x & Hx & ->)].
      * by apply (proj1 (Forall_forall _ _) Hno).
      * change (node_id_ok rnd (draws s) x).
        by apply (proj1 (Forall_forall _ _) Hno).
  - cbn [nodes styles draws]. by rewrite length_alter.
Qed.

End InvFacts.

(** *** The statements of [built], one after the other *)

Ltac settle_by tac :=
  repeat (cbv beta;
    lazymatch goal with
    | |- hoare _ (Builder.bind (Builder.classIds _ _) _) _ =>
        eapply hoare_bind; [apply hoare_classIds | intros ?]
    | |- hoare _ (Builder.bind (Builder.makeDomNode _ _ _ _ _) _) _ =>
        eapply hoare_bind;
        [first [apply hoare_makeDomNode_plain | apply hoare_makeDomNode] | intros ?]
    | |- hoare _ (Builder.bind (Builder.makeTextNode _ _) _) _ =>
        eapply hoare_bind; [apply hoare_makeTextNode | intros ?]
    | |- hoare _ (Builder.bind (Builder.push _) _) _ => eapply hoare_bind; [apply hoare_push | intros ?]
    | |- hoare _ (Builder.bind (Builder.children_push _ _) _) _ =>
        eapply hoare_bind; [apply hoare_children_push | intros ?]
    | |- hoare _ (Builder.bind (Builder.forM _ _) _) _ =>
        eapply hoare_bind; [apply hoare_forM; intros ? | intros ?]
    | |- hoare _ (Builder.bind (Builder.ret _) _) _ => eapply hoare_bind; [apply hoare_ret | intros ?]
    | |- hoare _ (Builder.bind (Builder.bind _ _) _) _ => eapply hoare_bind; [ | intros ?]
    | |- hoare _ (Builder.children_push _ _) _ => apply hoare_children_push
    | |- hoare _ (Builder.push _) _ => apply hoare_push
    | |- hoare _ (Builder.ret _) _ => apply hoare_ret
    | |- hoare _ _ _ => tac
    end).

Section Built.
Import Builder.
Variable rnd : nat → string.
Variable cfg : Config.

Lemma hoare_makeCell (tr : ref) (sectionTag : string) (r c : nat) :
  hoare (settled rnd) (makeCell rnd cfg tr sectionTag r c) (λ _, settled rnd).
Proof.
  unfold makeCell. settle_by fail.
  destruct (csvData cfg); [destruct (useSpanFallback cfg)|]; settle_by fail.
Qed.

Lemma hoare_makeRow (sectionTag : string) (r : nat) :
  hoare (settled rnd) (makeRow rnd cfg sectionTag r) (λ _, settled rnd).
Proof. unfold makeRow. settle_by ltac:(apply hoare_makeCell). Qed.

Lemma hoare_makeSection (sectionTag className : string) :
  hoare (settled rnd) (makeSection rnd cfg sectionTag className) (λ _, settled rnd).
Proof.
  unfold makeSection.
  settle_by ltac:(eapply hoare_bind; [apply hoare_makeRow | intros ?]).
Qed.

Lemma hoare_makeWrapper (className : string) :
  hoare (settled rnd) (makeWrapper rnd className) (λ _, settled rnd).
Proof. unfold makeWrapper. settle_by fail. Qed.

Lemma hoare_build : hoare (settled rnd) (build rnd cfg) (λ _, settled rnd).
Proof.
  unfold build. settle_by fail.
  eapply hoare_bind.
  { destruct (includeHead cfg);
      settle_by ltac:(eapply hoare_bind; [apply hoare_makeSection | intros ?]). }
  intros thead.
  settle_by ltac:(eapply hoare_bind; [apply hoare_makeRow | intros ?]).
  eapply hoare_bind.
  { destruct (includeFoot cfg);
      settle_by ltac:(eapply hoare_bind; [apply hoare_makeSection | intros ?]). }
  intros tfoot.
  eapply hoare_bind; [destruct thead; settle_by fail | intros ?].
  settle_by fail.
  eapply hoare_bind; [destruct tfoot; settle_by fail | intros ?].
  destruct (wrapInSection cfg);
    settle_by ltac:(eapply hoare_bind; [apply hoare_makeWrapper | intros ?]).
Qed.

(** The state at the end of a run. *)
Lemma settled_final : settled rnd (final rnd cfg).
Proof. apply hoare_build, settled_init. Qed.

End Built.

(** * The parent map and the ancestor set *)

Section AncestorFacts.
Import TreePreview.

Lemma truthy_Some (o : option string) (c : string) :
  truthy o = Some c ↔ o = Some c ∧ c ≠ "".
Proof.
  destruct o as [x|]; simpl; [|by split; [|intros []]].
  destruct (bool_decide_reflect (x = "")) as [-> | Hx].
  - split; [done|]. by intros [[= <-] ?].
  - split; [by intros [= <-] | by intros [? _]].
Qed.

Lemma truthy_None (o : option string) :
  truthy o = None ↔ ∀ c, o = Some c → c = "".
Proof.
  destruct o as [x|]; simpl; [|by split].
  destruct (bool_decide_reflect (x = "")) as [-> | Hx].
  - split; [by intros _ c [= <-] | done].
  - split; [done|]. intros H. by destruct Hx; apply H.
Qed.

Lemma reach_step (parent : gmap string string) (c x : string) :
  c ≠ "" → reach parent (Some c) x ↔ x = c ∨ reach parent (parent !! c) x.
Proof.
  intros Hc. unfold reach. split.
  - intros (c' & [= <-] & _ & [-> | Hab]); [by left|]. right.
    inversion Hab; simplify_eq; eexists; (split; [eassumption|]);
      (split; [assumption|]); auto.
  - intros [-> | (p & Hp & Hne & [-> | Hab])]; exists c; (split; [done|]); (split; [done|]).
    + by left.
    + right. by apply above_parent.
    + right. by eapply above_further.
Qed.

Lemma above_reach (parent : gmap string string) (m x : string) :
  above parent m x ↔ reach parent (parent !! m) x.
Proof.
  unfold reach. split.
  - intros Hab. inversion Hab; simplify_eq; eexists; (split; [eassumption|]);
      (split; [assumption|]); auto.
  - intros (p & Hp & Hne & [-> | Hab]); [by apply above_parent | by eapply above_further].
Qed.

Lemma closed_up_above (parent : gmap string string) (set : list string) (c x : string) :
  closed_up parent set → c ∈ set → above parent c x → x ∈ set.
Proof.
  intros Hcl Hc Hab. induction Hab as [c p Hp Hne | c p q Hp Hne _ IH].
  - by eapply Hcl.
  - apply IH. by eapply Hcl.
Qed.

(** One walk up the parent map, from a set whose ids have their parents in
    the set, but for the parent [cur] where the walk stands. *)
Lemma walk_up_spec (parent : gmap string string) (fuel : nat) :
  ∀ set cur,
    (∀ c, cur = Some c → c ∈ (map_to_list parent).*2) →
    unvisited parent set ≤ fuel →
    (∀ y p, y ∈ set → parent !! y = Some p → p ≠ "" → p ∈ set ∨ cur = Some p) →
    closed_up parent (walk_up fuel parent set cur) ∧
    ∀ x, x ∈ walk_up fuel parent set cur ↔ x ∈ set ∨ reach parent cur x.
Proof.
  induction fuel as [|fuel IH]; intros set cur Hval Hfuel Hpre.
  - assert (Hall : ∀ c, cur = Some c → c ∈ set).
    { intros c ->. destruct (decide (c ∈ set)) as [|Hc]; [done|]. exfalso.
      pose proof (filter_out_more _ set c (Hval c eq_refl) Hc) as Hlt.
      unfold unvisited in Hfuel. lia. }
    simpl. split.
    + intros y p Hy Hp Hne. destruct (Hpre y p Hy Hp Hne) as [|Hcur]; [done|].
      by apply Hall.
    + intros x. split; [by left|]. intros [Hx | (c & Hc & Hne & [-> | Hab])]; [done|..].
      * by apply Hall.
      * assert (Hcl : closed_up parent set).
        { intros y p Hy Hp Hne'. destruct (Hpre y p Hy Hp Hne') as [|Hcur]; [done|].
          by apply Hall. }
        eapply closed_up_above; [done | by apply Hall | done].
  - cbn [walk_up]. destruct (truthy cur) as [c|] eqn:Htr.
    + apply truthy_Some in Htr as [-> Hne].
      destruct (bool_decide_reflect (c ∈ set)) as [Hc | Hc].
      * assert (Hcl : closed_up parent set).
        { intros y p Hy Hp Hne'. destruct (Hpre y p Hy Hp Hne') as [|[= <-]]; done. }
        split; [done|]. intros x. split; [by left|].
        intros [Hx | (c' & [= <-] & _ & [-> | Hab])]; [done | done |].
        by eapply closed_up_above.
      * destruct (IH (set_add c set) (parent !! c)) as [Hcl Hmem].
        -- intros c'. apply parent_value.
        -- pose proof (filter_out_more _ set c (Hval c eq_refl) Hc) as Hlt.
           unfold unvisited in *. lia.
        -- intros y p Hy Hp Hne'. apply elem_of_set_add in Hy as [-> | Hy].
           ++ by right.
           ++ left. apply elem_of_set_add.
              destruct (Hpre y p Hy Hp Hne') as [|[= <-]]; [by right | by left].
        -- split; [done|]. intros x. rewrite Hmem, elem_of_set_add.
           rewrite (reach_step parent c x Hne). tauto.
    + assert (Hcl : closed_up parent set).
      { intros y p Hy Hp Hne. destruct (Hpre y p Hy Hp Hne) as [|Hcur]; [done|].
        exfalso. apply Hne. by eapply (proj1 (truthy_None cur)). }
      split; [done|]. intros x. split; [by left|].
      intros [Hx | (c & Hc & Hne & _)]; [done|]. exfalso. apply Hne.
      by eapply (proj1 (truthy_None cur)).
Qed.

Lemma ancestor_fold (parent : gmap string string) (matches : list string) :
  ∀ set, closed_up parent set →
    let r := foldl (λ set id, walk_up (S (size parent)) parent set (parent !! id))
               set matches in
    closed_up parent r ∧
    ∀ x, x ∈ r ↔ x ∈ set ∨ ∃ m, m ∈ matches ∧ above parent m x.
Proof.
  induction matches as [|m matches IH]; intros set Hcl.
  - simpl. split; [done|]. intros x. split; [by left|].
    intros [? | (m & Hm & _)]; [done | by apply elem_of_nil in Hm].
  - cbn zeta. cbn [foldl].
    destruct (walk_up_spec parent (S (size parent)) set (parent !! m)) as [Hcl' Hmem].
    + intros c. apply parent_value.
    + pose proof (unvisited_le parent set). lia.
    + intros y p Hy Hp Hne. left. by eapply Hcl.
    + destruct (IH _ Hcl') as [Hcl'' Hmem'']. cbn zeta in *.
      split; [done|]. intros x. rewrite Hmem'', Hmem, <- above_reach. split.
      * intros [[? | ?] | (m' & Hm' & ?)]; [by left | right | right].
        -- exists m. split; [by left | done].
        -- exists m'. split; [by right | done].
      * intros [? | (m' & Hm' & Hab)]; [by left; left|].
        apply elem_of_cons in Hm' as [-> | Hm']; [by left; right|].
        right. by exists m'.
Qed.

(** The ancestor set holds the ids above the matches, and no other. *)
Lemma ancestorSet_above (nodes : list node) (matches : list string) (x : string) :
  x ∈ ancestorSet nodes matches ↔ ∃ m, m ∈ matches ∧ above (parentById nodes) m x.
Proof.
  unfold ancestorSet.
  destruct (ancestor_fold (parentById nodes) matches []) as [_ Hmem].
  { intros y p Hy. by apply elem_of_nil in Hy. }
  cbn zeta in Hmem. rewrite Hmem. split; [|by right].
  intros [H | ?]; [by apply elem_of_nil in H | done].
Qed.

(** *** The parent map *)

Lemma parent_inner (cs : list string) (pid : string) (p : gmap string string) (c : string) :
  foldl (λ p c, <[c := pid]> p) p cs !! c
  = if bool_decide (c ∈ cs) then Some pid else p !! c.
Proof.
  revert p. induction cs as [|x cs IH]; intros p; [done|].
  cbn [foldl]. rewrite IH.
  destruct (bool_decide_reflect (c ∈ cs)) as [Hc | Hc].
  - by rewrite bool_decide_true by (by right).
  - destruct (decide (c = x)) as [-> | Hne].
    + rewrite lookup_insert_eq. by rewrite bool_decide_true by (by left).
    + rewrite lookup_insert_ne by done.
      rewrite bool_decide_false; [done|].
      intros Hin. apply elem_of_cons in Hin as [? | ?]; done.
Qed.

Lemma parent_fold (nodes : list node) (p : gmap string string) (c pid : string) :
  foldl (λ p n, foldl (λ p c, <[c := _id n]> p) p (children_of n)) p nodes !! c = Some pid ↔
  (∃ pre n post, nodes = pre ++ n :: post ∧ _id n = pid ∧ c ∈ children_of n ∧
                 ∀ m, m ∈ post → c ∉ children_of m) ∨
  (p !! c = Some pid ∧ ∀ m, m ∈ nodes → c ∉ children_of m).
Proof.
  revert p. induction nodes as [|n nodes IH]; intros p.
  - simpl. split.
    + intros H. right. split; [done|]. intros m Hm. by apply elem_of_nil in Hm.
    + intros [(pre & n & post & Heq & _) | [H _]]; [by destruct pre | done].
  - cbn [foldl]. rewrite IH. rewrite parent_inner. split.
    + intros [(pre & n' & post & -> & Hid & Hc & Hpost) | [Hlook Hnone]].
      * left. exists (n :: pre), n', post. by rewrite app_comm_cons.
      * destruct (bool_decide_reflect (c ∈ children_of n)) as [Hc | Hc].
        -- left. exists [], n, nodes. split; [done|]. split; [congruence|]. done.
        -- right. split; [done|]. intros m Hm.
           apply elem_of_cons in Hm as [-> | Hm]; [done | by apply Hnone].
    + intros [(pre & n' & post & Heq & Hid & Hc & Hpost) | [Hlook Hnone]].
      * destruct pre as [|n0 pre]; simplify_eq/=.
        -- right. split; [|done]. by rewrite bool_decide_true.
        -- left. by exists pre, n', post.
      * right. split.
        -- rewrite bool_decide_false; [done|]. apply Hnone. by left.
        -- intros m Hm. apply Hnone. by right.
Qed.

(** The parent of an id is the id of the last node that lists it. *)
Lemma parentById_last (nodes : list node) (c pid : string) :
  parentById nodes !! c = Some pid ↔
  ∃ pre n post, nodes = pre ++ n :: post ∧ _id n = pid ∧ c ∈ children_of n ∧
                ∀ m, m ∈ post → c ∉ children_of m.
Proof.
  unfold parentById. rewrite parent_fold. split; [|by left].
  intros [? | [H _]]; [done|]. by rewrite lookup_empty in H.
Qed.

Lemma parentById_None (nodes : list node) (c : string) :
  parentById nodes !! c = None ↔ ∀ m, m ∈ nodes → c ∉ children_of m.
Proof.
  split.
  - intros Hnone m Hm Hc.
    assert (∃ pid, parentById nodes !! c = Some pid) as [pid Hpid]; [|congruence].
    clear Hnone. induction nodes as [|n nodes IH] using rev_ind;
      [by apply elem_of_nil in Hm|].
    destruct (decide (c ∈ children_of n)) as [Hn | Hn].
    + exists (_id n). apply parentById_last. exists nodes, n, [].
      split; [done|]. split; [done|]. split; [done|].
      intros m' Hm'. by apply elem_of_nil in Hm'.
    + apply elem_of_app in Hm as [Hm | Hm].
      * destruct (IH Hm) as [pid Hpid]. exists pid.
        apply parentById_last in Hpid as (pre & n' & post & -> & Hid & Hc' & Hpost).
        apply parentById_last. exists pre, n', (post ++ [n]).
        split; [by rewrite <- app_assoc|]. split; [done|]. split; [done|].
        intros m' Hm'. apply elem_of_app in Hm' as [Hm' | Hm']; [by apply Hpost|].
        apply list_elem_of_singleton in Hm'. by subst m'.
      * apply list_elem_of_singleton in Hm. by subst m.
  - intros Hnone. destruct (parentById nodes !! c) as [pid|] eqn:Hpid; [|done].
    apply parentById_last in Hpid as (pre & n & post & -> & _ & Hc & _).
    exfalso. eapply Hnone; [|exact Hc]. apply elem_of_app. right. by left.
Qed.

(** The roots are the nodes without an entry in the parent map. *)
Lemma roots_no_parent (nodes : list node) (n : node) :
  n ∈ roots nodes ↔ n ∈ nodes ∧ parentById nodes !! _id n = None.
Proof.
  rewrite elem_of_roots, elem_of_childSet, parentById_None. split.
  - intros [Hn Hnot]. split; [done|]. intros m Hm Hc. apply Hnot. by exists m.
  - intros [Hn Hnone]. split; [done|]. intros (p & Hp & Hc). by eapply Hnone.
Qed.

End AncestorFacts.

(** * The depth of the call stack

    A result that the extractor finds within some depth of the call stack
    is its result at every greater depth. *)

Section FuelFacts.

Lemma text_loop_mono (f g : option node → option string) (i : gmap string node)
    (cs : list string) (t : string) :
  (∀ n t, f n = Some t → g n = Some t) →
  text_loop f i cs = Some t → text_loop g i cs = Some t.
Proof.
  intros Hfg. induction cs as [|cid cs IH]; [done|].
  cbn [text_loop]. destruct (f (i !! cid)) as [u|] eqn:Hf; [|done].
  rewrite (Hfg _ _ Hf). destruct (Builder.nonempty u); [done | exact IH].
Qed.

Lemma getText_S (fuel : nat) (i : gmap string node) :
  ∀ n t, Extractor.getTextFromNode fuel i n = Some t →
         Extractor.getTextFromNode (S fuel) i n = Some t.
Proof.
  induction fuel as [|fuel IH]; intros n t; [done|].
  destruct n as [n|]; [|done].
  rewrite (getTextFromNode_S (S fuel)), (getTextFromNode_S fuel).
  destruct (Extractor.is_text n); [done|].
  by apply text_loop_mono.
Qed.

Lemma getText_mono (fuel fuel' : nat) (i : gmap string node) (n : option node)
    (t : string) :
  fuel ≤ fuel' → Extractor.getTextFromNode fuel i n = Some t →
  Extractor.getTextFromNode fuel' i n = Some t.
Proof. induction 1 as [|fuel' _ IH]; [done|]. intros H. by apply getText_S, IH. Qed.

Lemma mapM_mono {A B} (f g : A → option B) (l : list A) (k : list B) :
  (∀ x y, f x = Some y → g x = Some y) → mapM f l = Some k → mapM g l = Some k.
Proof.
  intros Hfg H. apply mapM_Some_2. apply mapM_Some_1 in H.
  eapply Forall2_impl; [exact H|]. apply Hfg.
Qed.

Lemma readRow_mono (fuel fuel' : nat) (i : gmap string node) (tr : node)
    (cells : list string) :
  fuel ≤ fuel' → Extractor.readRow fuel i tr = Some cells →
  Extractor.readRow fuel' i tr = Some cells.
Proof.
  intros Hle. unfold Extractor.readRow. apply mapM_mono.
  intros cell t. by apply getText_mono.
Qed.

Lemma readSectionRows_mono (fuel fuel' : nat) (i : gmap string node)
    (section : option node) (rows : list (list string)) :
  fuel ≤ fuel' → Extractor.readSectionRows fuel i section = Some rows →
  Extractor.readSectionRows fuel' i section = Some rows.
Proof.
  intros Hle. destruct section as [sec|]; [|done]. cbn [Extractor.readSectionRows].
  apply mapM_mono. intros tr cells. by apply readRow_mono.
Qed.

Lemma readSections_mono (JSON_parse : string → option Envelope) (fuel fuel' : nat)
    (json : Extractor.json_arg) r :
  fuel ≤ fuel' → Extractor.readSections JSON_parse fuel json = Some r →
  Extractor.readSections JSON_parse fuel' json = Some r.
Proof.
  intros Hle. unfold Extractor.readSections.
  destruct (Extractor.read_payload JSON_parse json) as [|p]; [done|].
  cbv zeta. destruct (bool_decide _); [done|].
  destruct (find _ _) as [tableNode|]; [|done].
  destruct (Extractor.readSectionRows fuel _ (find (λ n, Extractor.has_tag "thead" n) _))
    as [h|] eqn:Hh; [|done].
  rewrite (readSectionRows_mono _ _ _ _ _ Hle Hh). cbn [mbind option_bind].
  destruct (Extractor.readSectionRows fuel _ (find (λ n, Extractor.has_tag "tbody" n) _))
    as [b|] eqn:Hb; [|done].
  rewrite (readSectionRows_mono _ _ _ _ _ Hle Hb). cbn [mbind option_bind].
  destruct (Extractor.readSectionRows fuel _ (find (λ n, Extractor.has_tag "tfoot" n) _))
    as [f|] eqn:Hf; [|done].
  by rewrite (readSectionRows_mono _ _ _ _ _ Hle Hf).
Qed.

Lemma extract_mono (JSON_parse : string → option Envelope) (fuel fuel' : nat)
    (json : Extractor.json_arg) r :
  fuel ≤ fuel' → Extractor.extractRowsFromXscp JSON_parse fuel json = Some r →
  Extractor.extractRowsFromXscp JSON_parse fuel' json = Some r.
Proof.
  intros Hle. unfold Extractor.extractRowsFromXscp.
  destruct (Extractor.readSections JSON_parse fuel json) as [x|] eqn:Hx; [|done].
  by rewrite (readSections_mono _ _ _ _ _ Hle Hx).
Qed.

End FuelFacts.

(** * The roots of a built graph and the items of its preview *)

Section RootFacts.
Import TreePreview.

(** The nodes of a tree below its root. *)
Lemma flatten_below (t : tree) :
  flatten t = node_of t :: concat (map flatten (kids_of t)).
Proof. by destruct t. Qed.

Lemma elem_of_concat_flatten (kids : list tree) (n : node) :
  n ∈ concat (map flatten kids) ↔ ∃ k, k ∈ kids ∧ n ∈ flatten k.
Proof.
  rewrite list_elem_of_In, in_concat. split.
  - intros (l & Hl & Hn). apply in_map_iff in Hl as (k & <- & Hk).
    exists k. by rewrite !list_elem_of_In.
  - intros (k & Hk & Hn). exists (flatten k). split.
    + apply in_map. by apply list_elem_of_In.
    + by apply list_elem_of_In.
Qed.

(** The ids listed as children in a tree are the ids of its nodes below
    the root. *)
Lemma child_ids_tree (c : string) (t : tree) :
  (∃ p, p ∈ flatten t ∧ c ∈ children_of p)
  ↔ c ∈ map _id (concat (map flatten (kids_of t))).
Proof.
  induction t as [id tg cls attrs kids IH | id val] using tree_ind'.
  - cbn [kids_of]. rewrite list_elem_of_fmap. split.
    + intros (p & Hp & Hc). apply flatten_elem in Hp as [-> | (k & Hk & Hp)].
      * change (children_of (dom_node id tg cls attrs (map root_id kids)))
          with (map root_id kids) in Hc.
        apply list_elem_of_fmap in Hc as (k & -> & Hk).
        exists (node_of k). split; [by rewrite node_of_id|].
        apply elem_of_concat_flatten. exists k. split; [done | apply flatten_root].
      * pose proof (proj1 (Forall_forall _ _) IH k Hk) as IHk.
        pose proof (proj1 IHk (ex_intro _ p (conj Hp Hc))) as Hin.
        apply list_elem_of_fmap in Hin as (m & -> & Hm).
        exists m. split; [done|]. apply elem_of_concat_flatten. exists k.
        split; [done|]. rewrite flatten_below. by right.
    + intros (m & -> & Hm). apply elem_of_concat_flatten in Hm as (k & Hk & Hm).
      rewrite flatten_below in Hm. apply elem_of_cons in Hm as [-> | Hm].
      * exists (dom_node id tg cls attrs (map root_id kids)). split; [by left|].
        change (children_of (dom_node id tg cls attrs (map root_id kids)))
          with (map root_id kids).
        rewrite node_of_id. apply list_elem_of_fmap. eauto.
      * pose proof (proj1 (Forall_forall _ _) IH k Hk) as IHk.
        destruct (proj2 IHk) as (p & Hp & Hc).
        { apply list_elem_of_fmap. eauto. }
        exists p. split; [|done]. right. apply elem_of_concat_flatten. eauto.
  - simpl. split.
    + intros (p & Hp & Hc). apply list_elem_of_singleton in Hp. subst p.
      by apply elem_of_nil in Hc.
    + intros H. by apply elem_of_nil in H.
Qed.

Lemma NoDup_singleton_eq {A} (l : list A) (a : A) :
  NoDup l → (∀ x, x ∈ l ↔ x = a) → l = [a].
Proof.
  intros Hnd Hmem. destruct l as [|x l].
  - exfalso. eapply elem_of_nil. by apply Hmem.
  - assert (x = a) as -> by (apply Hmem; by left).
    apply NoDup_cons in Hnd as [Hx _]. destruct l as [|y l]; [done|].
    exfalso. apply Hx. assert (y = a) as -> by (apply Hmem; right; by left). by left.
Qed.

(** A graph all of whose nodes but [top] are listed as children has the
    single root [top]. *)
Lemma single_root (L R : list node) (top : node) :
  NoDup (map _id L) →
  (∀ n, n ∈ L ↔ n = top ∨ n ∈ R) →
  (∀ c, (∃ p, p ∈ L ∧ c ∈ children_of p) ↔ c ∈ map _id R) →
  _id top ∉ map _id R →
  roots L = [top].
Proof.
  intros Hnd HL Hch Htop. apply NoDup_singleton_eq.
  - unfold roots. apply NoDup_filter. by eapply NoDup_fmap_1.
  - intros n. rewrite elem_of_roots, elem_of_childSet, Hch, HL. split.
    + intros [[-> | Hn] Hnot]; [done|]. exfalso. apply Hnot.
      apply list_elem_of_fmap. eauto.
    + intros ->. split; [by left | done].
Qed.

Lemma roots_tree (T : tree) :
  NoDup (map _id (flatten T)) → roots (flatten T) = [node_of T].
Proof.
  intros Hnd. apply (single_root _ (concat (map flatten (kids_of T)))); [done|..].
  - intros n. rewrite flatten_below at 1. apply elem_of_cons.
  - intros c. apply child_ids_tree.
  - rewrite flatten_below in Hnd. cbn [map] in Hnd. by apply NoDup_cons in Hnd as [? _].
Qed.

Lemma roots_wrapped (T : tree) (W : list node) :
  NoDup (map _id (flatten T ++ W)) → wrappers W (root_id T) →
  ∃ top, roots (flatten T ++ W) = [top] ∧ head W = Some top ∧ raw_tag top = "div".
Proof.
  intros Hnd (o & p & c & ps & tw & c1 & c2 & c3 & c4 & c5 & ->).
  eexists. split; [|done].
  apply (single_root _ (flatten T ++ [dom_node p "div" c2 [] [c];
           dom_node c "div" c3 [] [ps]; dom_node ps "div" c4 [] [tw];
           dom_node tw "div" c5 [] [root_id T]])); [done|..].
  - intros n. rewrite !elem_of_app, !elem_of_cons. tauto.
  - intros x.
    assert (Hids : x ∈ map _id (flatten T)
              ↔ x = root_id T ∨ ∃ q, q ∈ flatten T ∧ x ∈ children_of q).
    { rewrite child_ids_tree, flatten_below. cbn [map].
      by rewrite elem_of_cons, node_of_id. }
    rewrite map_app, elem_of_app, Hids. split.
    + intros (q & Hq & Hx). apply elem_of_app in Hq as [Hq | Hq].
      * left. right. eauto.
      * repeat (apply elem_of_cons in Hq as [-> | Hq]);
          try (apply list_elem_of_singleton in Hx; subst x);
          try (by apply elem_of_nil in Hq).
        -- right. by left.
        -- right. right. by left.
        -- right. do 2 right. by left.
        -- right. do 3 right. by left.
        -- left. by left.
    + intros [[-> | (q & Hq & Hx)] | Hx].
      * eexists. split; [apply elem_of_app; right; do 4 right; by left|]. by left.
      * exists q. split; [apply elem_of_app; by left | done].
      * repeat (apply elem_of_cons in Hx as [-> | Hx]); try (by apply elem_of_nil in Hx).
        -- eexists. split; [apply elem_of_app; right; by left|]. by left.
        -- eexists. split; [apply elem_of_app; right; right; by left|]. by left.
        -- eexists. split; [apply elem_of_app; right; do 2 right; by left|]. by left.
        -- eexists. split; [apply elem_of_app; right; do 3 right; by left|]. by left.
  - rewrite map_app in Hnd |- *. apply NoDup_app in Hnd as (_ & Hdis & HW).
    cbn [map] in HW. apply NoDup_cons in HW as [Ho _].
    intros Hin. apply elem_of_app in Hin as [Hin | Hin].
    + eapply Hdis; [exact Hin|]. by left.
    + by apply Ho.
Qed.

(** *** The items that the preview mounts *)

Lemma mounted_tree (L : list node) (t : tree) :
  NoDup (map _id L) → flatten t ⊆ L →
  ∀ d, mounted L (node_of t) d → ∀ n, n ∈ flatten t → ∃ d', mounted L n d'.
Proof.
  intros Hnd. induction t as [id tg cls attrs kids IH | id val] using tree_ind';
    intros Hsub d Hm n Hn.
  - apply flatten_elem in Hn as [-> | (k & Hk & Hn)]; [by exists d|].
    pose proof (kids_within L id tg cls attrs kids Hsub) as Hkids.
    pose proof (proj1 (Forall_forall _ _) Hkids k Hk) as Hksub.
    apply (proj1 (Forall_forall _ _) IH k Hk Hksub (S d)); [|done].
    apply (mounted_child L (node_of (TElem id tg cls attrs kids)) d (root_id k)); [done|..].
    + change (root_id k ∈ map root_id kids). apply list_elem_of_fmap. eauto.
    + by apply (lookup_tree L Hnd).
  - apply list_elem_of_singleton in Hn. subst n. by exists d.
Qed.

Lemma mounted_next (L : list node) (p c : node) (d : nat) :
  NoDup (map _id L) → c ∈ L → mounted L p d → _id c ∈ children_of p →
  mounted L c (S d).
Proof.
  intros Hnd Hc Hp Hin. apply (mounted_child L p d (_id c)); [done | done|].
  by apply indexById_lookup.
Qed.

(** Every node of a tree, wrapped or not, is mounted. *)
Lemma mounted_all (T : tree) (W : list node) (wrapped : bool) :
  NoDup (map _id (flatten T ++ W)) →
  (if wrapped then wrappers W (root_id T) else W = []) →
  ∀ n, n ∈ flatten T ++ W → ∃ d, mounted (flatten T ++ W) n d.
Proof.
  intros Hnd HW. set (L := flatten T ++ W) in *.
  assert (HT : flatten T ⊆ L) by (intros x Hx; apply elem_of_app; by left).
  destruct wrapped.
  - destruct HW as (o & p & c & ps & tw & c1 & c2 & c3 & c4 & c5 & HW).
    destruct (roots_wrapped T W Hnd) as (top & Hroots & Htop & _).
    { rewrite HW. by exists o, p, c, ps, tw, c1, c2, c3, c4, c5. }
    rewrite HW in Htop. injection Htop as <-.
    assert (Hin : ∀ x, x ∈ W → x ∈ L) by (intros x Hx; apply elem_of_app; by right).
    rewrite HW in Hin.
    assert (M1 : mounted L (dom_node o "div" c1 [] [p]) 0).
    { apply mounted_root. fold L in Hroots. rewrite Hroots. by left. }
    assert (M2 : mounted L (dom_node p "div" c2 [] [c]) 1).
    { eapply (mounted_next L _ _ _ Hnd); [apply Hin; right; by left | exact M1 | by left]. }
    assert (M3 : mounted L (dom_node c "div" c3 [] [ps]) 2).
    { eapply (mounted_next L _ _ _ Hnd); [apply Hin; do 2 right; by left | exact M2 | by left]. }
    assert (M4 : mounted L (dom_node ps "div" c4 [] [tw]) 3).
    { eapply (mounted_next L _ _ _ Hnd); [apply Hin; do 3 right; by left | exact M3 | by left]. }
    assert (M5 : mounted L (dom_node tw "div" c5 [] [root_id T]) 4).
    { eapply (mounted_next L _ _ _ Hnd); [apply Hin; do 4 right; by left | exact M4 | by left]. }
    assert (M6 : mounted L (node_of T) 5).
    { eapply (mounted_next L _ _ _ Hnd); [apply HT, flatten_root | exact M5|].
      rewrite node_of_id. by left. }
    intros n Hn. apply elem_of_app in Hn as [Hn | Hn].
    + by apply (mounted_tree L T Hnd HT 5).
    + rewrite HW in Hn.
      repeat (apply elem_of_cons in Hn as [-> | Hn]); try (by apply elem_of_nil in Hn);
        eauto.
  - subst W. intros n Hn. unfold L in *. rewrite app_nil_r in *.
    apply (mounted_tree _ T Hnd (λ x Hx, Hx) 0); [|done].
    apply mounted_root. rewrite (roots_tree T Hnd). by left.
Qed.

End RootFacts.

(** * Editing the cells of the table preview *)

Section EditFacts.
Import TablePreview.

Lemma assign_lookup {A} (i j : nat) (x : A) (a : list (option A)) :
  mjoin (assign i x a !! j) = if bool_decide (j = i) then Some x else mjoin (a !! j).
Proof.
  unfold assign. destruct (bool_decide_reflect (i < length a)) as [Hi | Hi].
  - destruct (bool_decide_reflect (j = i)) as [-> | Hne].
    + by rewrite list_lookup_insert_eq.
    + by rewrite list_lookup_insert_ne.
  - destruct (decide (j < length a)) as [Hj | Hj].
    + rewrite lookup_app_l by done. rewrite bool_decide_false by lia. done.
    + rewrite lookup_app_r by lia.
      rewrite (lookup_ge_None_2 a j) by lia. cbn [mjoin option_join].
      destruct (bool_decide_reflect (j = i)) as [-> | Hne].
      * rewrite lookup_app_r by (rewrite length_replicate; lia).
        rewrite length_replicate, Nat.sub_diag. done.
      * destruct (decide (j < i)) as [Hlt | Hge].
        -- rewrite lookup_app_l by (rewrite length_replicate; lia).
           rewrite lookup_replicate_2 by lia. done.
        -- rewrite lookup_app_r by (rewrite length_replicate; lia).
           rewrite length_replicate.
           replace (j - length a - (i - length a)) with (S (j - i - 1)) by lia. done.
Qed.

Lemma assign_in_range {A} (i : nat) (x : A) (a : list (option A)) :
  i < length a → assign i x a = <[i := Some x]> a.
Proof. intros Hi. unfold assign. by rewrite bool_decide_true. Qed.

(** The cells after [handleChange]: the cell assigned holds the value, and
    every other cell is as before. *)
Lemma handleChange_cells (ri ci : nat) (value : string) (prev : grid) (i j : nat) :
  cell_at (handleChange ri ci value prev) i j
  = if bool_decide (i = ri ∧ j = ci) then Some value else cell_at prev i j.
Proof.
  unfold cell_at, handleChange, grid, row in *. cbv zeta. rewrite assign_lookup.
  destruct (bool_decide_reflect (i = ri)) as [-> | Hi].
  - cbn [mbind option_bind]. rewrite assign_lookup.
    destruct (bool_decide_reflect (j = ci)) as [-> | Hj].
    + by rewrite bool_decide_true.
    + rewrite bool_decide_false by (by intros [_ ?]).
      by destruct (prev !! ri) as [[r|]|].
  - by rewrite bool_decide_false by (by intros [? _]).
Qed.

Lemma handleChange_in_range (ri ci : nat) (value : string) (prev : grid) (r : row) :
  prev !! ri = Some (Some r) → ci < length r →
  handleChange ri ci value prev = <[ri := Some (<[ci := Some value]> r)]> prev.
Proof.
  intros Hr Hci. unfold handleChange. unfold grid, row in *. cbv zeta. rewrite Hr.
  rewrite (assign_in_range ci) by done.
  apply assign_in_range. by eapply lookup_lt_Some.
Qed.

Lemma dense_lookup (g : list (list string)) (i : nat) :
  dense g !! i = (λ r, Some (dense_row r)) <$> g !! i.
Proof. unfold dense. apply list_lookup_fmap. Qed.

Lemma dense_insert (g : list (list string)) (i : nat) (r : list string) :
  <[i := Some (dense_row r)]> (dense g) = dense (<[i := r]> g).
Proof. unfold dense. by rewrite list_fmap_insert. Qed.

Lemma dense_row_insert (r : list string) (j : nat) (x : string) :
  <[j := Some x]> (dense_row r) = dense_row (<[j := x]> r).
Proof. unfold dense_row. by rewrite list_fmap_insert. Qed.

(** An edit within the table leaves a table without holes. *)
Lemma handleChange_dense (ri ci : nat) (value : string) (g : list (list string))
    (r : list string) :
  g !! ri = Some r → ci < length r →
  handleChange ri ci value (dense g) = dense (<[ri := <[ci := value]> r]> g).
Proof.
  intros Hr Hci.
  rewrite (handleChange_in_range ri ci value (dense g) (dense_row r)).
  - by rewrite dense_row_insert, dense_insert.
  - by rewrite dense_lookup, Hr.
  - unfold dense_row. by rewrite length_map.
Qed.

(** *** The header and the body *)

Lemma body_lookup (h : bool) (g : grid) (ri : nat) :
  body h g !! ri = g !! bodyIndex h ri.
Proof.
  unfold body, bodyIndex, grid, row in *. destruct h; [|done].
  rewrite lookup_drop. f_equal. lia.
Qed.

Lemma body_insert (h : bool) (g : grid) (ri : nat) (x : option row) :
  body h (<[bodyIndex h ri := x]> g) = <[ri := x]> (body h g).
Proof.
  unfold body, bodyIndex, grid, row in *. destruct h; [|done].
  destruct g as [|r0 g]; [done|].
  replace (ri + 1) with (S ri) by lia. by rewrite !skipn_cons, !drop_0.
Qed.

Lemma header_insert_body (h : bool) (g : grid) (ri : nat) (x : option row) :
  header h (<[bodyIndex h ri := x]> g) = header h g.
Proof.
  unfold header, bodyIndex, grid, row in *. rewrite length_insert.
  destruct h; [|done]. cbn [andb].
  destruct (bool_decide (0 < length g)); [|done].
  rewrite list_lookup_insert_ne by lia. done.
Qed.

(** *** The rows that a configuration shows *)

Lemma row_texts_length (cfg : Builder.Config) (sectionTag : string) (r : nat) :
  length (row_texts cfg sectionTag r) = ncols cfg.
Proof. unfold row_texts. by rewrite length_map, length_seq. Qed.

Lemma shown_rows_rect (cfg : Builder.Config) :
  Forall (λ r, length r = ncols cfg) (head_rows cfg ++ body_rows cfg).
Proof.
  apply Forall_app. split.
  - unfold head_rows. destruct (Builder.includeHead cfg); [|constructor].
    apply Forall_singleton, row_texts_length.
  - unfold body_rows. apply Forall_forall. intros r Hr.
    apply list_elem_of_fmap in Hr as (i & -> & _). apply row_texts_length.
Qed.

Lemma shown_rows_nonempty (cfg : Builder.Config) :
  Builder.includeHead cfg = true → head_rows cfg ++ body_rows cfg ≠ [].
Proof. intros H. unfold head_rows. by rewrite H. Qed.

(** The table rebuilt from the rows shown, with one cell changed, shows
    these rows. *)
Lemma rebuilt_rows (cfg : Builder.Config) (ri ci : nat) (value : string)
    (row : list string) :
  Builder.includeHead cfg = Builder.csvHasHeaderRow cfg →
  (head_rows cfg ++ body_rows cfg) !! ri = Some row →
  let R' := <[ri := <[ci := value]> row]> (head_rows cfg ++ body_rows cfg) in
  let cfg' := App.setCsvData (Some R') cfg in
  head_rows cfg' ++ body_rows cfg' = R'.
Proof.
  intros Hflag Hrow R' cfg'.
  apply (shown_rect cfg' R' (ncols cfg)); [done | | done |].
  - unfold R'. apply Forall_insert; [apply shown_rows_rect|].
    rewrite length_insert.
    apply (proj1 (Forall_forall _ _) (shown_rows_rect cfg)).
    by eapply list_elem_of_lookup_2.
  - intros _ Hnil. apply (f_equal length) in Hnil. unfold R' in Hnil.
    rewrite length_insert in Hnil. apply lookup_lt_Some in Hrow. simpl in Hnil. lia.
Qed.

End EditFacts.

(** * Grids with rows of unequal length, and the size of the graph *)

Section GridMore.

Lemma Math_max_widest (g : list (list string)) :
  Builder.iterations (Builder.Math_max (map (λ r, Z.of_nat (length r)) g)) = widest g.
Proof.
  unfold widest, Builder.Math_max.
  assert (H : match foldr (λ z, Builder.bound_max (Builder.Finite z))
                      Builder.MinusInfinity (map (λ r, Z.of_nat (length r)) g) with
              | Builder.MinusInfinity => g = []
              | Builder.Finite z => z = Z.of_nat (max_list (map length g))
              end).
  { induction g as [|r g IH]; [done|]. cbn [map foldr max_list].
    destruct (foldr _ _ _) as [|z]; simpl.
    - subst g. simpl. lia.
    - subst z. lia. }
  destruct (foldr _ _ _) as [|z]; simpl; [by subst g | subst z; lia].
Qed.

Lemma ncols_widest (cfg : Builder.Config) (g : list (list string)) :
  Builder.csvData cfg = Some g → ncols cfg = widest g.
Proof.
  intros Hcsv. unfold ncols, Builder.cellCount, Builder.effectiveCols. rewrite Hcsv.
  apply Math_max_widest.
Qed.

Lemma widest_ge (g : list (list string)) (r : list string) :
  r ∈ g → length r ≤ widest g.
Proof.
  intros Hr. unfold widest. apply max_list_elem_of_le.
  apply list_elem_of_fmap. eauto.
Qed.

Lemma tabulate_pad (row : list string) (m : nat) :
  length row ≤ m → map (λ c, default "" (row !! c)) (seq 0 m) = pad m row.
Proof.
  intros Hle. unfold pad. replace m with (length row + (m - length row)) at 1 by lia.
  rewrite seq_app, map_app, tabulate_row. f_equal.
  cbn [Nat.add]. generalize (m - length row) as k. intros k.
  apply list_eq. intros i. rewrite list_lookup_fmap.
  destruct (decide (i < k)) as [Hi | Hi].
  - rewrite lookup_replicate_2 by done.
    rewrite (lookup_seq_lt _ _ _ Hi). simpl.
    by rewrite lookup_ge_None_2 by lia.
  - rewrite lookup_ge_None_2 by (rewrite length_seq; lia).
    by rewrite lookup_ge_None_2 by (rewrite length_replicate; lia).
Qed.

Lemma row_texts_pad (cfg : Builder.Config) (g : list (list string))
    (sectionTag : string) (r : nat) (row : list string) :
  Builder.csvData cfg = Some g →
  Builder.sourceRow cfg sectionTag r = Some row → length row ≤ ncols cfg →
  row_texts cfg sectionTag r = pad (ncols cfg) row.
Proof.
  intros Hcsv Hrow Hlen. unfold row_texts. rewrite <- (tabulate_pad row) by done.
  apply map_ext. intros c. by rewrite (textValue_csv cfg g Hcsv), Hrow.
Qed.

(** The rows that a configuration with a grid shows: the rows of the grid,
    padded to the widest row. *)
Lemma shown_padded (cfg : Builder.Config) (g : list (list string)) :
  Builder.csvData cfg = Some g →
  Builder.includeHead cfg = Builder.csvHasHeaderRow cfg →
  (Builder.includeHead cfg = true → g ≠ []) →
  head_rows cfg ++ body_rows cfg = map (pad (widest g)) g.
Proof.
  intros Hcsv Hflag Hne.
  pose proof (ncols_widest cfg g Hcsv) as Hm.
  assert (Hrow : ∀ sec r row, Builder.sourceRow cfg sec r = Some row → row ∈ g →
                   row_texts cfg sec r = pad (widest g) row).
  { intros sec r row Hsrc Hin. rewrite <- Hm.
    apply (row_texts_pad cfg g); [done | done|]. rewrite Hm. by apply widest_ge. }
  pose proof (sourceRow_body cfg g Hcsv) as Hbody.
  pose proof (sourceRow_other cfg g Hcsv) as Hother.
  unfold head_rows, body_rows. rewrite (nrows_csv cfg g Hcsv), <- Hflag.
  remember (widest g) as m eqn:Heqm. clear Heqm Hm Hcsv.
  destruct (Builder.includeHead cfg) eqn:Hhead.
  - destruct g as [|r0 rest]; [by destruct (Hne eq_refl)|].
    rewrite (Hrow "thead" 0 r0); [|by rewrite Hother|by left].
    cbn [map app length]. f_equal.
    replace (S (length rest) - 1) with (length rest) by lia.
    rewrite <- (tabulate_lookup (λ o, pad m (default [] o)) (pad m) rest) by done.
    apply map_ext_in. intros r Hr. apply in_seq in Hr.
    destruct (lookup_lt_is_Some_2 rest r) as [row Hlook]; [lia|].
    rewrite Hlook. cbn [default from_option]. unfold id.
    apply Hrow.
    + rewrite Hbody, <- Hflag. by rewrite Nat.add_1_r.
    + right. by eapply list_elem_of_lookup_2.
  - cbn [app].
    rewrite <- (tabulate_lookup (λ o, pad m (default [] o)) (pad m) g) by done.
    apply map_ext_in. intros r Hr. apply in_seq in Hr.
    destruct (lookup_lt_is_Some_2 g r) as [row Hlook]; [lia|].
    rewrite Hlook. cbn [default from_option]. unfold id.
    apply Hrow.
    + by rewrite Hbody, <- Hflag.
    + by eapply list_elem_of_lookup_2.
Qed.

(** *** The number of nodes *)

Lemma flatten_size (t : tree) : length (flatten t) = shape_size (shape_of t).
Proof.
  induction t as [id tg cls attrs kids IH | id val] using tree_ind'; [|done].
  cbn [flatten shape_of shape_size length]. f_equal.
  induction IH as [|k kids Hk _ IHk]; [done|].
  cbn [map concat sum_list_with]. rewrite length_app. by rewrite Hk, IHk.
Qed.

Lemma sum_const {A} (f : A → nat) (k : nat) (l : list A) :
  (∀ x, f x = k) → sum_list (map f l) = length l * k.
Proof.
  intros Hf. induction l as [|x l IH]; [done|].
  cbn [map sum_list_with length Nat.mul]. unfold id at 1. by rewrite Hf, IH.
Qed.

Lemma cell_shape_size (cfg : Builder.Config) (sectionTag : string) (r c : nat) :
  shape_size (cell_shape cfg sectionTag r c) = cell_nodes cfg.
Proof.
  unfold cell_shape, cell_nodes.
  destruct (Builder.csvData cfg); [destruct (Builder.useSpanFallback cfg)|]; done.
Qed.

Lemma row_shape_size (cfg : Builder.Config) (sectionTag : string) (r : nat) :
  shape_size (row_shape cfg sectionTag r) = row_nodes cfg.
Proof.
  unfold row_shape, row_nodes. cbn [shape_size]. rewrite map_map.
  rewrite (sum_const _ (cell_nodes cfg)) by (intros c; apply cell_shape_size).
  by rewrite length_seq.
Qed.

Lemma table_shape_size (cfg : Builder.Config) :
  shape_size (table_shape cfg) + (if Builder.wrapInSection cfg then 5 else 0)
  = node_count cfg.
Proof.
  unfold table_shape, node_count. cbn [shape_size].
  rewrite !map_app, !sum_list_with_app.
  assert (Hsec : ∀ tg, shape_size (single_row_section cfg tg) = 1 + row_nodes cfg).
  { intros tg. unfold single_row_section. cbn [shape_size map sum_list_with].
    rewrite row_shape_size. unfold id. lia. }
  assert (Hbody : shape_size (tbody_shape cfg) = 1 + nrows cfg * row_nodes cfg).
  { unfold tbody_shape. cbn [shape_size]. rewrite map_map.
    rewrite (sum_const _ (row_nodes cfg)) by (intros c; apply row_shape_size).
    by rewrite length_seq. }
  cbn [map sum_list_with]. rewrite Hbody.
  destruct (Builder.includeHead cfg), (Builder.includeFoot cfg);
    cbn [map sum_list_with]; rewrite ?Hsec; unfold id; lia.
Qed.

Lemma final_node_count (rnd : nat → string) (cfg : Builder.Config) :
  length (Builder.nodes (Builder.final rnd cfg)) = node_count cfg.
Proof.
  destruct (build_laid_out rnd cfg) as (T & W & (HL & Hshape & HW) & _).
  rewrite HL, length_app, flatten_size, Hshape, <- table_shape_size. f_equal.
  destruct (Builder.wrapInSection cfg); [|by subst W].
  by destruct HW as (o & p & c & ps & tw & c1 & c2 & c3 & c4 & c5 & ->).
Qed.

End GridMore.

(** * What the tree preview and the inspector show of a built graph *)

Section LabelFacts.

Lemma tagged_shape_node (t : tree) : tagged_shape (shape_of t) = true → plain_node (node_of t).
Proof.
  destruct t as [id tg cls attrs kids | id val]; [|by left; eauto].
  rewrite shape_of_TElem. cbn [tagged_shape]. intros H. apply bool_decide_eq_true in H.
  right. by exists id, tg, cls, attrs, (map root_id kids).
Qed.

Lemma cell_shape_tagged (cfg : Builder.Config) (sectionTag : string) (r c : nat) :
  shape_all tagged_shape (cell_shape cfg sectionTag r c) = true.
Proof.
  unfold cell_shape.
  destruct (cellTag_cases cfg sectionTag) as [-> | ->];
    destruct (Builder.csvData cfg); try destruct (Builder.useSpanFallback cfg); reflexivity.
Qed.

Lemma row_shape_tagged (cfg : Builder.Config) (sectionTag : string) (r : nat) :
  shape_all tagged_shape (row_shape cfg sectionTag r) = true.
Proof.
  unfold row_shape. cbn [shape_all]. apply andb_true_iff. split; [reflexivity|].
  apply forallb_forall. intros x Hx. apply in_map_iff in Hx as (c & <- & _).
  apply cell_shape_tagged.
Qed.

Lemma tbody_shape_tagged (cfg : Builder.Config) :
  shape_all tagged_shape (tbody_shape cfg) = true.
Proof.
  unfold tbody_shape. cbn [shape_all]. apply andb_true_iff. split; [reflexivity|].
  apply forallb_forall. intros x Hx. apply in_map_iff in Hx as (r & <- & _).
  apply row_shape_tagged.
Qed.

Lemma table_shape_tagged (cfg : Builder.Config) :
  shape_all tagged_shape (table_shape cfg) = true.
Proof.
  unfold table_shape. cbn [shape_all]. apply andb_true_iff. split; [reflexivity|].
  rewrite !forallb_app. cbn [forallb]. rewrite tbody_shape_tagged.
  unfold single_row_section.
  destruct (Builder.includeHead cfg), (Builder.includeFoot cfg);
    cbn [forallb shape_all]; rewrite ?row_shape_tagged; reflexivity.
Qed.

Lemma wrappers_plain (W : list node) (tid : string) (n : node) :
  wrappers W tid → n ∈ W → plain_node n.
Proof.
  intros (o & p & c & ps & tw & c1 & c2 & c3 & c4 & c5 & ->) Hn. right.
  repeat (apply elem_of_cons in Hn as [-> | Hn]); try (by apply elem_of_nil in Hn);
    do 5 eexists; (split; [reflexivity|]); by apply (bool_decide_unpack _).
Qed.

Lemma final_nodes_plain (rnd : nat → string) (cfg : Builder.Config) (n : node) :
  n ∈ Builder.nodes (Builder.final rnd cfg) → plain_node n.
Proof.
  intros Hn.
  destruct (build_laid_out rnd cfg) as (T & W & (HL & Hshape & HW) & _ & _).
  rewrite HL in Hn. apply elem_of_app in Hn as [Hn | Hn].
  - apply (shape_all_nodes tagged_shape plain_node T tagged_shape_node); [|done].
    rewrite Hshape. apply table_shape_tagged.
  - destruct (Builder.wrapInSection cfg).
    + by apply (wrappers_plain W (root_id T)).
    + subst W. by apply elem_of_nil in Hn.
Qed.

Lemma tag_not_empty (tg : string) : tg ∈ element_tags → bool_decide (tg = "") = false.
Proof.
  intros H. apply bool_decide_eq_false. intros ->.
  by apply (bool_decide_pack _), Is_true_true in H.
Qed.

(** What the preview and the inspector compute for a plain node. *)
Lemma plain_node_label (n : node) :
  plain_node n →
  DomNodeItem.isText n = Extractor.is_text n ∧
  DomNodeItem.labelTag n = (if Extractor.is_text n then "#text" else raw_tag n) ∧
  Inspector.tagOf n = DomNodeItem.labelTag n ∧
  DomNodeItem.textPreview n = "" ∧
  (Extractor.is_text n = false → raw_tag n ∈ element_tags).
Proof.
  intros [(id & val & ->) | (id & tg & cls & attrs & ch & -> & Htg)].
  - by repeat split.
  - pose proof (tag_not_empty tg Htg) as Hne.
    unfold DomNodeItem.isText, DomNodeItem.labelTag, Inspector.tagOf,
      DomNodeItem.textPreview, raw_tag, Extractor.is_text. simpl. rewrite Hne.
    by repeat split.
Qed.

(** *** The names of the classes *)

Lemma classNameById_snoc (styles : list Style.t) (st : Style.t) :
  TreePreview.classNameById (styles ++ [st])
  = <[Style._id st := Style.name st]> (TreePreview.classNameById styles).
Proof. unfold TreePreview.classNameById. by rewrite foldl_app. Qed.

Lemma classNameById_Some (styles : list Style.t) (cid name : string) :
  TreePreview.classNameById styles !! cid = Some name →
  ∃ st, st ∈ styles ∧ Style._id st = cid ∧ Style.name st = name.
Proof.
  induction styles as [|st styles IH] using rev_ind; [done|].
  rewrite classNameById_snoc. intros H.
  apply lookup_insert_Some in H as [[<- <-] | [_ H]].
  - exists st. split; [apply elem_of_app; right; by left | done].
  - destruct (IH H) as (st' & Hst' & ?). exists st'.
    split; [apply elem_of_app; by left | done].
Qed.

Lemma classNameById_is_Some (styles : list Style.t) (cid : string) :
  cid ∈ map Style._id styles → is_Some (TreePreview.classNameById styles !! cid).
Proof.
  induction styles as [|st styles IH] using rev_ind.
  - intros H. by apply elem_of_nil in H.
  - rewrite map_app, elem_of_app, classNameById_snoc. intros [H | H].
    + destruct (decide (Style._id st = cid)) as [<- | Hne].
      * rewrite lookup_insert_eq. eauto.
      * rewrite lookup_insert_ne by done. by apply IH.
    + apply list_elem_of_singleton in H. subst cid. rewrite lookup_insert_eq. eauto.
Qed.

Lemma findStyle_Some (styles : list Style.t) (cid : string) :
  cid ∈ map Style._id styles →
  ∃ st, Inspector.findStyle styles cid = Some st ∧ st ∈ styles ∧ Style._id st = cid.
Proof.
  intros Hin. apply list_elem_of_fmap in Hin as (st & -> & Hst).
  unfold Inspector.findStyle.
  destruct (find _ styles) as [st'|] eqn:Hfind.
  - apply find_some in Hfind as [Hin Hid]. apply bool_decide_eq_true in Hid.
    exists st'. split; [done|]. split; [by apply list_elem_of_In | done].
  - exfalso. eapply find_none in Hfind; [|by apply list_elem_of_In].
    by apply bool_decide_eq_false in Hfind.
Qed.

Lemma token_truthy (name : string) : is_token name = true → truthy (Some name) = Some name.
Proof.
  intros H. apply is_token_spec in H as [Hne _]. simpl.
  by rewrite (bool_decide_false _ Hne).
Qed.

(** The class ids of the nodes of a run resolve to the names of styles,
    in the preview and in the inspector. *)
Lemma sound_class_names (rnd : nat → string) (s : Builder.state) (n : node) :
  sound rnd s → n ∈ Builder.nodes s →
  length (DomNodeItem.classNames (TreePreview.classNameById (Builder.styles s)) n)
  = length (classes_of n) ∧
  ∀ cid, cid ∈ classes_of n →
    ∃ st, st ∈ Builder.styles s ∧ Style._id st = cid ∧
          Inspector.classLabel (Builder.styles s) cid = Style.name st.
Proof.
  intros Hs Hn.
  assert (Htok : ∀ st, st ∈ Builder.styles s → is_token (Style.name st) = true).
  { intros st. apply (proj1 (Forall_forall _ _) (sound_tokens _ _ Hs)). }
  split.
  - unfold DomNodeItem.classNames.
    assert (Hall : Forall (λ cid, cid ∈ style_ids s) (classes_of n)).
    { apply Forall_forall. intros cid. by apply (sound_classes _ _ Hs). }
    induction Hall as [|cid cs Hcid _ IH]; [done|].
    cbn [omap list_omap].
    destruct (classNameById_is_Some _ _ Hcid) as [name Hname].
    rewrite Hname.
    destruct (classNameById_Some _ _ _ Hname) as (st & Hst & _ & <-).
    rewrite (token_truthy _ (Htok st Hst)). simpl. by rewrite IH.
  - intros cid Hcid.
    destruct (findStyle_Some (Builder.styles s) cid) as (st & Hfind & Hst & Hid).
    { by apply (sound_classes _ _ Hs n). }
    exists st. split; [done|]. split; [done|].
    unfold Inspector.classLabel. rewrite Hfind.
    pose proof (Htok st Hst) as Ht. apply is_token_spec in Ht as [Hne _].
    by rewrite (bool_decide_false _ Hne).
Qed.

End LabelFacts.

(** * The ids of the nodes and of the styles *)

Section IdFacts.
Variable rnd : nat → string.

Lemma fresh_inj (d i j : nat) :
  uid_fresh rnd d → i < d → j < d → rnd i = rnd j → i = j.
Proof.
  intros Hfresh Hi Hj Heq. unfold uid_fresh in Hfresh.
  eapply (NoDup_lookup _ i j (rnd i)) in Hfresh; [done| |].
  - rewrite list_lookup_fmap, lookup_seq_lt by done. done.
  - rewrite list_lookup_fmap, lookup_seq_lt by done. simpl. by rewrite Heq.
Qed.

Lemma sorted_NoDup (ks : list nat) : StronglySorted lt ks → NoDup ks.
Proof.
  induction 1 as [|k ks _ IH Hall]; constructor; [|done].
  intros Hin. apply (proj1 (Forall_forall _ _) Hall) in Hin. lia.
Qed.

Lemma style_ids_NoDup (s : Builder.state) :
  uid_fresh rnd (Builder.draws s) → style_ids_drawn rnd s → NoDup (style_ids s).
Proof.
  intros Hfresh (ks & -> & Hsorted & Hlt).
  apply NoDup_fmap_2_strong; [|by apply sorted_NoDup].
  intros i j Hi Hj Heq. apply (inj (String.app "cls_")) in Heq.
  rewrite Forall_forall in Hlt. eapply fresh_inj; eauto.
Qed.

Lemma style_ids_prefixed (s : Builder.state) :
  style_ids_drawn rnd s →
  Forall (λ st, ∃ k, k < Builder.draws s ∧ Style._id st = "cls_" +:+ rnd k)
         (Builder.styles s).
Proof.
  intros (ks & Hids & _ & Hlt). apply Forall_forall. intros st Hst.
  assert (Hin : Style._id st ∈ style_ids s) by (apply list_elem_of_fmap; eauto).
  rewrite Hids in Hin. apply list_elem_of_fmap in Hin as (k & -> & Hk).
  exists k. split; [|done]. by apply (proj1 (Forall_forall _ _) Hlt).
Qed.

Lemma node_style_ids_differ (d : nat) (n : node) (k : nat) :
  node_id_ok rnd d n → _id n ≠ "cls_" +:+ rnd k.
Proof.
  intros (k' & _ & ->). destruct (Extractor.is_text n);
    rewrite !sapp_cons; discriminate.
Qed.

(** The ids of a settled state: distinct when the draws are. *)
Lemma settled_ids_NoDup (s : Builder.state) :
  sound rnd s → NoDup (map _id (Builder.nodes s)) → uid_fresh rnd (Builder.draws s) →
  NoDup (map _id (Builder.nodes s) ++ style_ids s).
Proof.
  intros Hs Hnodes Hfresh. apply NoDup_app. split; [done|]. split.
  - intros x Hx Hst. apply list_elem_of_fmap in Hx as (n & -> & Hn).
    destruct (sound_style_ids _ _ Hs) as (ks & Hids & _).
    rewrite Hids in Hst. apply list_elem_of_fmap in Hst as (k & Heq & _).
    eapply node_style_ids_differ; [|exact Heq].
    by apply (proj1 (Forall_forall _ _) (sound_node_ids _ _ Hs)).
  - apply style_ids_NoDup; [done|]. by apply (sound_style_ids _ _ Hs).
Qed.

End IdFacts.

(** * The classes of the wrapper chain *)

Section WrapFacts.
Import Builder.
Variable rnd : nat → string.

Lemma cls_id_not_empty (x : string) : bool_decide ("cls_" +:+ x = "") = false.
Proof. by apply bool_decide_eq_false. Qed.

Lemma sound_index_id (s : state) (name id : string) :
  sound rnd s → styleIndex s !! name = Some id → bool_decide (id = "") = false.
Proof.
  intros Hs Hidx. apply (sound_index _ _ Hs) in Hidx as (st & Hst & _ & <-).
  destruct (sound_style_ids _ _ Hs) as (ks & Hids & _).
  assert (Hin : Style._id st ∈ style_ids s) by (apply list_elem_of_fmap; eauto).
  rewrite Hids in Hin. apply list_elem_of_fmap in Hin as (k & -> & _).
  apply cls_id_not_empty.
Qed.

(** [classIds] on one token: the id that the index holds for it
    afterwards. *)
Lemma classIds_token (name : string) (s : state) :
  is_token name = true → settled rnd s →
  ∃ cid, (classIds rnd [name] s).1 = [cid] ∧
         (classIds rnd [name] s).2 = (ensureStyle rnd name s).2 ∧
         styleIndex (ensureStyle rnd name s).2 !! name = Some cid ∧
         (∀ nm i, styleIndex s !! nm = Some i →
                  styleIndex (ensureStyle rnd name s).2 !! nm = Some i).
Proof.
  intros Htok [Hs _]. pose proof Htok as Htok'.
  apply is_token_spec in Htok' as [Hne Hsp].
  unfold classIds. cbn [flat_map]. rewrite (bool_decide_false _ Hne).
  rewrite (trim_spaceless _ Hsp), (split_ws_token _ Hsp). cbn [app].
  rewrite filter_cons, filter_nil.
  rewrite decide_True by (unfold nonempty; by rewrite (bool_decide_false _ Hne)).
  unfold bind, ret. cbn [mapM fst snd]. unfold bind, ret. cbn [fst snd].
  destruct (styleIndex s !! name) as [id|] eqn:Hidx.
  - rewrite (ensureStyle_run_known _ _ _ _ Htok Hidx). cbn [fst snd].
    exists id. unfold truthy_ids. cbn [omap list_omap truthy].
    rewrite (sound_index_id s name id Hs Hidx). done.
  - rewrite (ensureStyle_run_new _ _ _ Htok Hidx). cbn [fst snd styleIndex].
    eexists. unfold truthy_ids. cbn [omap list_omap truthy].
    rewrite cls_id_not_empty. split; [done|]. split; [done|]. split.
    + by rewrite lookup_insert_eq.
    + intros nm i Hnm. rewrite lookup_insert_ne; [done|]. congruence.
Qed.

Lemma ensureStyle_nodes (name : string) (s : state) :
  nodes (ensureStyle rnd name s).2 = nodes s.
Proof. apply ensureStyle_frame. Qed.

Lemma hoare_makeWrapper_classed (names : list string) (name : string) :
  is_token name = true →
  hoare (ends_classed rnd names) (makeWrapper rnd name)
    (λ _, ends_classed rnd (names ++ [name])).
Proof.
  intros Htok s [Hs (L0 & W & HL & HW)].
  assert (Hres : settled rnd (makeWrapper rnd name s).2)
    by (by apply hoare_makeWrapper).
  split; [done|].
  destruct (classIds_token name s Htok Hs) as (cid & Hcls & Hst & Hidx & Hmono).
  unfold makeWrapper, bind in *. cbn [fst snd] in *.
  rewrite makeDomNode_run. cbn [push fst snd nodes styleIndex].
  rewrite Hcls, Hst, ensureStyle_nodes, HL.
  exists L0, (W ++ [dom_node ("n_" +:+ rnd (draws (ensureStyle rnd name s).2)) "div"
                      [cid] [] []]).
  split; [by rewrite app_assoc|].
  apply Forall2_app.
  - eapply Forall2_impl; [exact HW|]. intros n nm (c & Hc & Hi). exists c.
    split; [done | by apply Hmono].
  - constructor; [by exists cid | constructor].
Qed.

Lemma Forall2_alter_l {A B} (P : A → B → Prop) (f : A → A) (i : nat) (l : list A)
    (k : list B) :
  (∀ x y, P x y → P (f x) y) → Forall2 P l k → Forall2 P (alter f i l) k.
Proof.
  intros Hf H. revert i. induction H as [|x y l k Hxy Hlk IH]; intros i; [constructor|].
  destruct i as [|i].
  - change (Forall2 P (f x :: l) (y :: k)). constructor; auto.
  - change (Forall2 P (x :: alter f i l) (y :: k)). constructor; auto.
Qed.

Lemma hoare_children_push_classed (names : list string) (r : ref) (cid : string) :
  hoare (ends_classed rnd names) (children_push r cid) (λ _, ends_classed rnd names).
Proof.
  intros s [Hs (L0 & W & HL & HW)].
  split; [by apply hoare_children_push|].
  cbn [children_push fst snd nodes styleIndex]. rewrite HL.
  destruct (decide (ref_index r < length L0)) as [Hlt | Hge].
  - rewrite alter_app_l by done. by exists (alter (add_child cid) (ref_index r) L0), W.
  - rewrite alter_app_r_alt by lia.
    exists L0, (alter (add_child cid) (ref_index r - length L0) W). split; [done|].
    apply Forall2_alter_l; [|done]. by intros x y (c & Hc & Hi); exists c.
Qed.

Lemma settled_ends_classed (s : state) : settled rnd s → ends_classed rnd [] s.
Proof.
  intros Hs. split; [done|]. exists (nodes s), []. rewrite app_nil_r.
  split; [done | constructor].
Qed.

Lemma hoare_wrapPhase_classed (cfg : Config) (table : ref) :
  wrapInSection cfg = true →
  hoare (settled rnd)
    (if wrapInSection cfg then
       outer <- makeWrapper rnd "section_table" ;;
       padGlobal <- makeWrapper rnd "padding-global" ;;
       container <- makeWrapper rnd "container-large" ;;
       padSection <- makeWrapper rnd "padding-section-medium" ;;
       tableWrapper <- makeWrapper rnd "table_component" ;;
       children_push outer (ref_id padGlobal) ;;
       children_push padGlobal (ref_id container) ;;
       children_push container (ref_id padSection) ;;
       children_push padSection (ref_id tableWrapper) ;;
       children_push tableWrapper (ref_id table)
     else ret tt)
    (λ _, ends_classed rnd wrapper_names).
Proof.
  intros ->.
  eapply hoare_weaken with (P' := ends_classed rnd []) (Q' := λ _, ends_classed rnd wrapper_names);
    [|apply settled_ends_classed|done].
  eapply hoare_bind; [by apply (hoare_makeWrapper_classed [])|]. intros outer.
  eapply hoare_bind; [by apply (hoare_makeWrapper_classed ["section_table"])|].
  intros padGlobal.
  eapply hoare_bind;
    [by apply (hoare_makeWrapper_classed ["section_table"; "padding-global"])|].
  intros container.
  eapply hoare_bind;
    [by apply (hoare_makeWrapper_classed
                 ["section_table"; "padding-global"; "container-large"])|].
  intros padSection.
  eapply hoare_bind;
    [by apply (hoare_makeWrapper_classed
                 ["section_table"; "padding-global"; "container-large";
                  "padding-section-medium"])|].
  intros tableWrapper.
  repeat (eapply hoare_bind; [apply hoare_children_push_classed | intros ?]).
  apply hoare_children_push_classed.
Qed.

Lemma hoare_build_classed (cfg : Config) :
  wrapInSection cfg = true →
  hoare (settled rnd) (build rnd cfg) (λ _, ends_classed rnd wrapper_names).
Proof.
  intros Hwrap. unfold build. settle_by fail.
  eapply hoare_bind.
  { destruct (includeHead cfg);
      settle_by ltac:(eapply hoare_bind; [apply hoare_makeSection | intros ?]). }
  intros thead.
  settle_by ltac:(eapply hoare_bind; [apply hoare_makeRow | intros ?]).
  eapply hoare_bind.
  { destruct (includeFoot cfg);
      settle_by ltac:(eapply hoare_bind; [apply hoare_makeSection | intros ?]). }
  intros tfoot.
  eapply hoare_bind; [destruct thead; settle_by fail | intros ?].
  settle_by fail.
  eapply hoare_bind; [destruct tfoot; settle_by fail | intros ?].
  by apply hoare_wrapPhase_classed.
Qed.

(** The last five nodes of a wrapped graph carry the styles of the
    presets. *)
Lemma final_ends_classed (cfg : Config) :
  wrapInSection cfg = true → ends_classed rnd wrapper_names (final rnd cfg).
Proof. intros Hwrap. by apply hoare_build_classed, settled_init. Qed.

End WrapFacts.

(** * The wrapper chain of a run *)

Section FinalFacts.
Variable rnd : nat → string.
Variable cfg : Builder.Config.

(** The style that the index holds for a name, as a record. *)
Lemma sound_style_record (s : Builder.state) (name cid : string) :
  sound rnd s → Builder.styleIndex s !! name = Some cid →
  {| Style._id := cid; Style.name := name;
     Style.styleLess := (declaration name).1;
     Style.variants := (declaration name).2 |} ∈ Builder.styles s.
Proof.
  intros Hs Hidx. apply (sound_index _ _ Hs) in Hidx as (st & Hst & <- & <-).
  pose proof (proj1 (Forall_forall _ _) (sound_decl _ _ Hs) st Hst) as Hd.
  rewrite <- Hd. by destruct st.
Qed.

Lemma final_wrappers :
  Builder.wrapInSection cfg = true →
  ∃ T o p c ps tw i1 i2 i3 i4 i5,
    Builder.nodes (Builder.final rnd cfg)
    = flatten T ++
      [dom_node o "div" [i1] [] [p]; dom_node p "div" [i2] [] [c];
       dom_node c "div" [i3] [] [ps]; dom_node ps "div" [i4] [] [tw];
       dom_node tw "div" [i5] [] [root_id T]] ∧
    shape_of T = table_shape cfg ∧
    Forall2 (λ cid name, Builder.styleIndex (Builder.final rnd cfg) !! name = Some cid)
      [i1; i2; i3; i4; i5] wrapper_names.
Proof.
  intros Hwrap.
  destruct (build_laid_out rnd cfg) as (T & W & (HL & Hshape & HW) & _ & _).
  rewrite Hwrap in HW.
  destruct HW as (o & p & c & ps & tw & c1 & c2 & c3 & c4 & c5 & ->).
  destruct (final_ends_classed rnd cfg Hwrap) as (_ & L0 & W' & HL' & HW').
  rewrite HL in HL'.
  apply app_inj_2 in HL' as [_ <-].
  2:{ apply Forall2_length in HW'. by rewrite HW'. }
  repeat match goal with
         | H : Forall2 _ (_ :: _) _ |- _ =>
             apply Forall2_cons_inv_l in H as (? & ? & (? & [= ->] & ?) & H & ?)
         end.
  unfold wrapper_names in *. simplify_eq.
  eexists T, o, p, c, ps, tw, _, _, _, _, _. split; [exact HL|]. split; [done|].
  repeat constructor; done.
Qed.

End FinalFacts.

(** * The ids that [classIds] returns *)

Section ClassFacts.
Import Builder.
Variable rnd : nat → string.

Lemma ensureStyle_token (name : string) (s : state) :
  is_token name = true → settled rnd s →
  ∃ cid, (ensureStyle rnd name s).1 = Some cid ∧
         bool_decide (cid = "") = false ∧
         settled rnd (ensureStyle rnd name s).2 ∧
         styleIndex (ensureStyle rnd name s).2 !! name = Some cid ∧
         (∀ nm i, styleIndex s !! nm = Some i →
                  styleIndex (ensureStyle rnd name s).2 !! nm = Some i).
Proof.
  intros Htok Hs.
  destruct (ensureStyle_settled rnd [] name s Htok Hs) as (id & Hid & Hs' & _).
  { intros c Hc. by apply elem_of_nil in Hc. }
  destruct Hs as [Hsound _].
  destruct (styleIndex s !! name) as [id0|] eqn:Hidx.
  - rewrite (ensureStyle_run_known _ _ _ _ Htok Hidx) in *. cbn [fst snd] in *.
    exists id0. split; [done|]. split; [by eapply sound_index_id|].
    split; [done|]. split; [done|]. done.
  - rewrite (ensureStyle_run_new _ _ _ Htok Hidx) in *. cbn [fst snd styleIndex] in *.
    exists ("cls_" +:+ rnd (draws s)). split; [done|]. split; [apply cls_id_not_empty|].
    split; [done|]. split.
    + by rewrite lookup_insert_eq.
    + intros nm i Hnm. rewrite lookup_insert_ne; [done|]. congruence.
Qed.

Lemma mapM_ensureStyle_ids (l : list string) :
  Forall (λ n, is_token n = true) l →
  ∀ s, settled rnd s →
    ∃ ids, (mapM (ensureStyle rnd) l s).1 = map Some ids ∧
           Forall (λ cid, bool_decide (cid = "") = false) ids ∧
           settled rnd (mapM (ensureStyle rnd) l s).2 ∧
           Forall2 (λ cid name,
                      styleIndex (mapM (ensureStyle rnd) l s).2 !! name = Some cid) ids l ∧
           (∀ nm i, styleIndex s !! nm = Some i →
                    styleIndex (mapM (ensureStyle rnd) l s).2 !! nm = Some i).
Proof.
  induction 1 as [|name l Htok Hl IH]; intros s Hs.
  - exists []. cbn [mapM]. unfold ret. cbn [fst snd].
    split; [done|]. split; [constructor|]. split; [done|]. split; [constructor | done].
  - cbn [mapM]. unfold bind, ret.
    destruct (ensureStyle_token name s Htok Hs) as (cid & Hcid & Hne & Hs' & Hidx & Hmono).
    destruct (ensureStyle rnd name s) as [o s'] eqn:He. cbn [fst snd] in *. subst o.
    destruct (IH s' Hs') as (ids & Hids & Hnes & Hs'' & Hall & Hmono').
    destruct (mapM (ensureStyle rnd) l s') as [os s''] eqn:Hm. cbn [fst snd] in *.
    subst os. exists (cid :: ids). split; [done|]. split; [by constructor|].
    split; [done|]. split.
    + constructor; [by apply Hmono' | done].
    + intros nm i Hnm. by apply Hmono', Hmono.
Qed.

Lemma truthy_ids_Some (ids : list string) :
  Forall (λ cid, bool_decide (cid = "") = false) ids →
  truthy_ids (map Some ids) = ids.
Proof.
  induction 1 as [|cid ids Hne _ IH]; [done|].
  unfold truthy_ids in *. cbn [map omap list_omap truthy]. by rewrite Hne, IH.
Qed.

(** Every token of the class strings gets the id that the index holds for
    it afterwards: in order, a repeated token with its id repeated. *)
Lemma classIds_ids (lst : list string) (s : state) :
  settled rnd s →
  Forall2 (λ cid name, styleIndex (classIds rnd lst s).2 !! name = Some cid)
    (classIds rnd lst s).1 (class_tokens lst) ∧
  Forall (λ cid, cid ≠ "") (classIds rnd lst s).1 ∧
  (∀ nm i, styleIndex s !! nm = Some i →
           styleIndex (classIds rnd lst s).2 !! nm = Some i).
Proof.
  intros Hs. unfold classIds, bind, ret. cbn [fst snd].
  destruct (mapM_ensureStyle_ids _ (classIds_names_tokens lst) s Hs)
    as (ids & Hids & Hne & _ & Hall & Hmono).
  fold (class_tokens lst) in *. rewrite Hids, (truthy_ids_Some ids Hne).
  split; [done|]. split; [|done].
  eapply Forall_impl; [exact Hne|]. intros cid H. by apply bool_decide_eq_false in H.
Qed.

End ClassFacts.

(** * Doubled quotes, the style index, bare tables and the footer *)

(** ** The quotes of a serialized cell *)

Lemma escaped_doubled (cell : string) : CSV.escaped cell = quotes_doubled cell.
Proof.
  unfold quotes_doubled. induction cell as [|ch cell IH]; [reflexivity|].
  cbn [CSV.escaped list_ascii_of_string flat_map]. rewrite IH.
  by destruct (Ascii.eqb ch dquote).
Qed.

Lemma length_sapp (a b : string) :
  String.length (a +:+ b) = String.length a + String.length b.
Proof. induction a as [|x a IH]; simpl; [done|]. by rewrite IH. Qed.

(** ** Calls of [ensureStyle] one after the other *)

Section Indexed.
Import Builder.
Variable rnd : nat → string.

Lemma indexed_init : indexed init.
Proof.
  split; [|constructor]. intros name id. simpl. rewrite lookup_empty.
  split; [done|]. intros (st & Hst & _). by apply elem_of_nil in Hst.
Qed.

Lemma settled_indexed (s : state) : settled rnd s → indexed s.
Proof. intros [Hs _]. split; [apply (sound_index _ _ Hs) | apply (sound_names _ _ Hs)]. Qed.

Lemma index_None_mono (s s' : state) (nm : string) :
  (∀ n i, styleIndex s !! n = Some i → styleIndex s' !! n = Some i) →
  styleIndex s' !! nm = None → styleIndex s !! nm = None.
Proof.
  intros Hmono Hnone. destruct (styleIndex s !! nm) as [i|] eqn:H; [|done].
  apply Hmono in H. congruence.
Qed.

(** One call: the index and the array still agree, the index keeps its
    entries, and a record is appended only under a name that was not
    filed. *)
Lemma ensureStyle_indexed (name : string) (s : state) :
  indexed s →
  indexed (ensureStyle rnd name s).2 ∧
  (∀ nm i, styleIndex s !! nm = Some i →
           styleIndex (ensureStyle rnd name s).2 !! nm = Some i) ∧
  (∃ new, styles (ensureStyle rnd name s).2 = styles s ++ new ∧
          Forall (λ st, styleIndex s !! Style.name st = None) new) ∧
  (trim name ≠ "" →
   ∃ id, (ensureStyle rnd name s).1 = Some id ∧
         styleIndex (ensureStyle rnd name s).2 !! name = Some id) ∧
  (trim name = "" → (ensureStyle rnd name s).1 = None).
Proof.
  intros [Hi Hn]. destruct (decide (trim name = "")) as [Hblank | Hname].
  { rewrite (ensureStyle_blank rnd name s Hblank). cbn [fst snd].
    split; [by split|]. split; [done|]. split; [|by split].
    exists []. by rewrite app_nil_r. }
  destruct (styleIndex s !! name) as [id|] eqn:Hidx.
  { rewrite (ensureStyle_known rnd name id s Hname Hidx). cbn [fst snd].
    split; [by split|]. split; [done|]. split; [|split; [eauto | done]].
    exists []. by rewrite app_nil_r. }
  destruct (ensureStyle_new rnd name s Hname Hidx) as (rec & Hrn & _ & Hr & Hst & Hix).
  assert (Hfresh : name ∉ map Style.name (styles s)).
  { intros Hin. apply list_elem_of_fmap in Hin as (st & Hname' & Hst').
    assert (styleIndex s !! name = Some (Style._id st)) as Hsome.
    { apply Hi. by exists st. }
    congruence. }
  split; [split|].
  - intros nm id. rewrite Hix, Hst, lookup_insert_Some. split.
    + intros [[<- <-] | [Hne Hlook]].
      * exists rec. split; [apply elem_of_app; right; by apply list_elem_of_singleton|done].
      * apply Hi in Hlook as (st & Hst' & ? & ?). exists st.
        split; [apply elem_of_app; by left | done].
    + intros (st & Hst' & Hname' & Hid). apply elem_of_app in Hst' as [Hst' | Hst'].
      * right. split.
        -- intros <-. apply Hfresh. apply list_elem_of_fmap. by exists st.
        -- apply Hi. by exists st.
      * apply list_elem_of_singleton in Hst'. subst st. left. split; congruence.
  - rewrite Hst, map_app. apply NoDup_app. split; [done|]. split.
    + intros x Hx Hin. apply list_elem_of_singleton in Hin. simpl in Hin.
      subst x. apply Hfresh. by rewrite <- Hrn.
    + apply NoDup_singleton.
  - split; [|split; [|split; [|done]]].
    + intros nm i Hnm. rewrite Hix, lookup_insert_ne; [done|]. congruence.
    + exists [rec]. split; [done|]. apply Forall_singleton. by rewrite Hrn.
    + intros _. exists (Style._id rec). split; [done|]. rewrite Hix.
      apply lookup_insert_eq.
Qed.

(** A sequence of calls. *)
Lemma mapM_ensureStyle_indexed (names : list string) :
  ∀ s, indexed s →
    indexed (mapM (ensureStyle rnd) names s).2 ∧
    (∀ nm i, styleIndex s !! nm = Some i →
             styleIndex (mapM (ensureStyle rnd) names s).2 !! nm = Some i) ∧
    (∃ new, styles (mapM (ensureStyle rnd) names s).2 = styles s ++ new ∧
            Forall (λ st, styleIndex s !! Style.name st = None) new) ∧
    (∀ i name, names !! i = Some name → trim name ≠ "" →
       ∃ id, (mapM (ensureStyle rnd) names s).1 !! i = Some (Some id) ∧
             styleIndex (mapM (ensureStyle rnd) names s).2 !! name = Some id) ∧
    (∀ i name, names !! i = Some name → trim name = "" →
       (mapM (ensureStyle rnd) names s).1 !! i = Some None).
Proof.
  induction names as [|n names IH]; intros s Hs.
  - cbn [mapM]. unfold ret. cbn [fst snd]. split; [done|]. split; [done|].
    split; [exists []; by rewrite app_nil_r|]. split; intros i name Hi; by destruct i.
  - cbn [mapM]. unfold bind, ret.
    destruct (ensureStyle_indexed n s Hs) as (Hs1 & Hmono1 & (new1 & Hst1 & Hnew1) & Hid1 & Hbl1).
    destruct (ensureStyle rnd n s) as [o s1] eqn:He. cbn [fst snd] in *.
    destruct (IH s1 Hs1) as (Hs2 & Hmono2 & (new2 & Hst2 & Hnew2) & Hid2 & Hbl2).
    destruct (mapM (ensureStyle rnd) names s1) as [os s2] eqn:Hm. cbn [fst snd] in *.
    split; [done|]. split; [intros nm i Hnm; by apply Hmono2, Hmono1|].
    split; [|split].
    + exists (new1 ++ new2). split; [by rewrite Hst2, Hst1, app_assoc|].
      apply Forall_app. split; [done|].
      eapply Forall_impl; [exact Hnew2|]. intros st. by apply index_None_mono.
    + intros [|i] name Hlook Hname.
      * injection Hlook as ->. destruct (Hid1 Hname) as (id & -> & Hidx).
        exists id. split; [done|]. by apply Hmono2.
      * by apply (Hid2 i name).
    + intros [|i] name Hlook Hname.
      * injection Hlook as ->. by rewrite (Hbl1 Hname).
      * by apply (Hbl2 i name).
Qed.

Lemma filter_name_single (l : list Style.t) (st : Style.t) :
  NoDup (map Style.name l) → st ∈ l →
  filter (λ x, Style.name x = Style.name st) l = [st].
Proof.
  induction l as [|x l IH]; intros Hnd Hin; [by apply elem_of_nil in Hin|].
  cbn [map] in Hnd. apply NoDup_cons in Hnd as [Hx Hnd].
  rewrite filter_cons. apply elem_of_cons in Hin as [<- | Hin].
  - rewrite decide_True by done. f_equal.
    destruct (filter _ l) as [|y k] eqn:Hf; [done|]. exfalso.
    assert (Hy : y ∈ filter (λ x0, Style.name x0 = Style.name st) l).
    { rewrite Hf. by left. }
    apply list_elem_of_filter in Hy as [Heq Hy]. apply Hx.
    rewrite <- Heq. apply list_elem_of_fmap. by exists y.
  - rewrite decide_False; [by apply IH|]. intros Heq. apply Hx. rewrite Heq.
    apply list_elem_of_fmap. by exists st.
Qed.

(** Two calls with the same name in a sequence of calls: the same id, and
    one record of that name, appended iff the name was not filed. *)
Lemma ensureStyle_sequence (names : list string) (s : state) (i j : nat) (name : string) :
  indexed s →
  names !! i = Some name → names !! j = Some name → trim name ≠ "" →
  ∃ rec new,
    (mapM (ensureStyle rnd) names s).1 !! i = Some (Some (Style._id rec)) ∧
    (mapM (ensureStyle rnd) names s).1 !! j = Some (Some (Style._id rec)) ∧
    styles (mapM (ensureStyle rnd) names s).2 = styles s ++ new ∧
    filter (λ st, Style.name st = name) (styles (mapM (ensureStyle rnd) names s).2) = [rec] ∧
    (rec ∈ new ↔ styleIndex s !! name = None).
Proof.
  intros Hs Hi Hj Hname.
  destruct (mapM_ensureStyle_indexed names s Hs)
    as ([Hidx Hnd] & _ & (new & Hst & Hnew) & Hids & _).
  destruct (Hids i name Hi Hname) as (id & Hri & Hli).
  destruct (Hids j name Hj Hname) as (id' & Hrj & Hlj).
  assert (id' = id) as -> by congruence.
  destruct (proj1 (Hidx name id) Hli) as (rec & Hrec & Hrn & Hrid).
  exists rec, new. subst id. split; [done|]. split; [done|]. split; [done|]. split.
  - rewrite <- Hrn. by apply filter_name_single.
  - split.
    + intros Hin. rewrite <- Hrn.
      by apply (proj1 (Forall_forall _ _) Hnew).
    + intros Hnone. rewrite Hst in Hrec. apply elem_of_app in Hrec as [Hrec | Hrec]; [|done].
      exfalso. destruct Hs as [Hidx0 _].
      assert (styleIndex s !! name = Some (Style._id rec)) as Hsome.
      { apply Hidx0. by exists rec. }
      congruence.
Qed.

End Indexed.

(** ** Reading a table whose cells have no child *)

Section Bare.
Variable JSON_parse : string → option Envelope.

Lemma mapM_Forall {A B} (f : A → option B) (P : B → Prop) (l : list A) :
  (∀ x, x ∈ l → ∃ y, f x = Some y ∧ P y) →
  ∃ ys, mapM f l = Some ys ∧ Forall P ys.
Proof.
  induction l as [|x l IH]; intros H.
  - exists []. by split.
  - destruct (H x) as (y & Hy & HP); [by left|].
    destruct IH as (ys & Hys & HPs); [intros z Hz; apply H; by right|].
    exists (y :: ys). split; [|by constructor]. simpl. by rewrite Hy, Hys.
Qed.

Section BareNodes.
Variable L : list node.
Hypothesis Hbare : ∀ n, n ∈ L → bare_node n.

(** The text of a cell without a child is empty, at any depth of the
    stack. *)
Lemma readRow_bare (fuel : nat) (tr : node) :
  1 ≤ fuel →
  ∃ r, Extractor.readRow fuel (Extractor.indexById L) tr = Some r ∧
       Forall (λ c, c = "") r.
Proof.
  intros Hfuel. unfold Extractor.readRow. apply mapM_Forall.
  intros cell Hcell. apply list_elem_of_filter in Hcell as [Htag Hcell].
  apply list_elem_of_omap in Hcell as (c & _ & Hlook).
  apply indexById_Some in Hlook as [Hin _].
  destruct (Hbare cell Hin) as (Htext & _ & Hkids).
  exists "". split; [|done]. destruct fuel as [|fuel]; [lia|].
  rewrite getTextFromNode_S, Htext. unfold children_of.
  rewrite Hkids; [done|]. by apply Is_true_true.
Qed.

Lemma readSectionRows_bare (fuel : nat) (section : option node) :
  1 ≤ fuel →
  ∃ rs, Extractor.readSectionRows fuel (Extractor.indexById L) section = Some rs ∧
        Forall (Forall (λ c, c = "")) rs.
Proof.
  intros Hfuel. destruct section as [sec|]; [|exists []; by split].
  unfold Extractor.readSectionRows. apply mapM_Forall.
  intros tr _. by apply readRow_bare.
Qed.

End BareNodes.

(** The extraction of a graph with a table whose cells have no child:
    every cell that is read is empty. *)
Lemma extract_bare (json : Extractor.json_arg) (e : Envelope) (fuel : nat) :
  denotes JSON_parse json e →
  (∀ n, n ∈ nodes_in e → bare_node n) → has_table (nodes_in e) → 1 ≤ fuel →
  ∃ r, Extractor.extractRowsFromXscp JSON_parse fuel json = Some (Some r) ∧
       Forall (Forall (λ c, c = "")) (Extractor.rows r).
Proof.
  intros Hden Hbare Htable Hfuel.
  unfold Extractor.extractRowsFromXscp, Extractor.readSections.
  rewrite (read_payload_denotes JSON_parse json e Hden), nodes_in_payload.
  rewrite bool_decide_false.
  2:{ intros Hnil. destruct Htable as (n & Hn & _). rewrite Hnil in Hn.
      by apply elem_of_nil in Hn. }
  destruct (find _ (nodes_in e)) as [tableNode|] eqn:Hfind.
  2:{ exfalso. by apply find_table_None in Hfind. }
  destruct (readSectionRows_bare (nodes_in e) Hbare fuel
              (find (λ n, Extractor.has_tag "thead" n)
                 (omap (λ id, Extractor.indexById (nodes_in e) !! id)
                    (children_of tableNode))) Hfuel) as (h & -> & Hh).
  destruct (readSectionRows_bare (nodes_in e) Hbare fuel
              (find (λ n, Extractor.has_tag "tbody" n)
                 (omap (λ id, Extractor.indexById (nodes_in e) !! id)
                    (children_of tableNode))) Hfuel) as (b & -> & Hb).
  destruct (readSectionRows_bare (nodes_in e) Hbare fuel
              (find (λ n, Extractor.has_tag "tfoot" n)
                 (omap (λ id, Extractor.indexById (nodes_in e) !! id)
                    (children_of tableNode))) Hfuel) as (f & -> & Hf).
  cbn [mbind option_bind]. eexists. split; [reflexivity|]. cbn [Extractor.rows].
  destruct (bool_decide (0 < length h)); [by apply Forall_app | done].
Qed.

(** A build without a source grid. *)
Lemma extract_synthetic (rnd : nat → string) (cfg : Builder.Config)
    (json : Extractor.json_arg) (fuel : nat) :
  Builder.csvData cfg = None →
  denotes JSON_parse json (Builder.built rnd cfg) → 1 ≤ fuel →
  ∃ r, Extractor.extractRowsFromXscp JSON_parse fuel json = Some (Some r) ∧
       Forall (Forall (λ c, c = "")) (Extractor.rows r).
Proof.
  intros Hcsv Hden Hfuel. apply (extract_bare json (Builder.built rnd cfg)); [done| |  |done].
  - intros n Hn. by apply (synthetic_nodes_bare rnd cfg).
  - destruct (table_sections rnd cfg) as (table & secs & Hhead & Htag & _).
    exists table. split.
    + change (nodes_in (Builder.built rnd cfg)) with (Builder.nodes (Builder.final rnd cfg)).
      destruct (Builder.nodes (Builder.final rnd cfg)); [done|].
      injection Hhead as ->. by left.
    + unfold Extractor.normalizeTag. by rewrite Htag.
Qed.

End Bare.

(** ** The cells of the footer *)

Lemma map_snoc_inv {A B} (f : A → B) (l : list A) (a : list B) (x : B) :
  map f l = a ++ [x] → ∃ l0 y, l = l0 ++ [y] ∧ map f l0 = a ∧ f y = x.
Proof.
  destruct l as [|y l0 _] using rev_ind; intros H.
  - by destruct a.
  - rewrite map_app in H. apply app_inj_tail in H as [? ?]. by exists l0, y.
Qed.

(** With a source grid [g] and a footer: the last child of the table is
    the [tfoot] element, its child the row, and every cell of the row holds
    a text node with the text of row 0 of the grid, in a [span] when the
    fallback is set. *)
Lemma footer_cells (rnd : nat → string) (cfg : Builder.Config) (g : list (list string)) :
  Builder.csvData cfg = Some g →
  Builder.includeFoot cfg = true →
  ∃ table foot tr cells,
    head (Builder.nodes (Builder.final rnd cfg)) = Some table ∧
    raw_tag table = "table" ∧
    last (children_of table) = Some (_id foot) ∧
    foot ∈ Builder.nodes (Builder.final rnd cfg) ∧
    raw_tag foot = "tfoot" ∧ children_of foot = [_id tr] ∧
    tr ∈ Builder.nodes (Builder.final rnd cfg) ∧
    raw_tag tr = "tr" ∧ children_of tr = map _id cells ∧
    length cells = Builder.iterations (Builder.cellCount cfg) ∧
    ∀ c cell, cells !! c = Some cell →
      cell ∈ Builder.nodes (Builder.final rnd cfg) ∧ raw_tag cell = "td" ∧
      ∃ tn, tn ∈ Builder.nodes (Builder.final rnd cfg) ∧
            Extractor.is_text tn = true ∧
            v tn = Some (default "" (g !! 0 ≫= (λ row, row !! c))) ∧
            if Builder.useSpanFallback cfg
            then ∃ span, span ∈ Builder.nodes (Builder.final rnd cfg) ∧
                         raw_tag span = "span" ∧
                         children_of cell = [_id span] ∧ children_of span = [_id tn]
            else children_of cell = [_id tn].
Proof.
  intros Hcsv Hfoot.
  destruct (build_laid_out rnd cfg) as (T & W & (HL & Hshape & HW) & _ & id & kids & ->).
  rewrite shape_of_TElem in Hshape. unfold table_shape in Hshape. rewrite Hfoot in Hshape.
  injection Hshape as Hkids.
  assert (Hk : map shape_of kids
               = ((if Builder.includeHead cfg then [single_row_section cfg "thead"] else [])
                  ++ [tbody_shape cfg]) ++ [single_row_section cfg "tfoot"]).
  { by rewrite Hkids, <- app_assoc. }
  clear Hkids. apply map_snoc_inv in Hk as (kids0 & footT & -> & _ & HfootS).
  destruct footT as [fid ftg fcls fattrs fkids | ]; [|discriminate].
  unfold single_row_section in HfootS. rewrite shape_of_TElem in HfootS.
  injection HfootS as -> Hfk.
  destruct fkids as [|trT [|? ?]]; try discriminate. injection Hfk as Htr.
  destruct trT as [rid rtg rcls rattrs cellsT | ]; [|discriminate].
  unfold row_shape in Htr. rewrite shape_of_TElem in Htr. injection Htr as -> Hcells.
  set (cls := (Builder.classIds rnd (Builder.opt_class (Builder.tableClass cfg))
                 Builder.init).1) in *.
  set (footT := TElem fid "tfoot" fcls fattrs [TElem rid "tr" rcls rattrs cellsT]) in *.
  set (trT := TElem rid "tr" rcls rattrs cellsT) in *.
  set (T := TElem id "table" cls (Builder.tableAttrs cfg) (kids0 ++ [footT])) in *.
  assert (Hsub : ∀ n, n ∈ flatten T → n ∈ Builder.nodes (Builder.final rnd cfg)).
  { intros n Hn. rewrite HL. apply elem_of_app. by left. }
  assert (HfT : flatten footT ⊆ flatten T).
  { apply flatten_kid. apply elem_of_app. right. by apply list_elem_of_singleton. }
  assert (HrT : flatten trT ⊆ flatten footT).
  { apply flatten_kid. by apply list_elem_of_singleton. }
  exists (node_of T), (node_of footT), (node_of trT), (map node_of cellsT).
  split; [by rewrite HL|]. split; [reflexivity|]. split.
  { change (children_of (node_of T)) with (map root_id (kids0 ++ [footT])).
    rewrite map_app. apply last_snoc. }
  split; [apply Hsub, HfT, flatten_root|]. split; [reflexivity|]. split; [reflexivity|].
  split; [apply Hsub, HfT, HrT, flatten_root|]. split; [reflexivity|]. split.
  { change (children_of (node_of trT)) with (map root_id cellsT).
    rewrite map_map. apply map_ext. intros k. by rewrite node_of_id. }
  split.
  { rewrite length_map. apply (f_equal length) in Hcells.
    by rewrite !length_map, length_seq in Hcells. }
  intros c cell Hcell.
  change (map node_of cellsT) with (node_of <$> cellsT) in Hcell.
  apply list_lookup_fmap_Some in Hcell as (cellT & -> & HcT).
  assert (Hsh : shape_of cellT = cell_shape cfg "tfoot" 0 c).
  { assert (Hl : (shape_of <$> cellsT) !! c = Some (shape_of cellT)).
    { by apply list_lookup_fmap_Some_2. }
    change (shape_of <$> cellsT) with (map shape_of cellsT) in Hl.
    rewrite Hcells in Hl.
    change (map (cell_shape cfg "tfoot" 0) (seq 0 (ncols cfg)))
      with (cell_shape cfg "tfoot" 0 <$> seq 0 (ncols cfg)) in Hl.
    apply list_lookup_fmap_Some in Hl as (c' & Heq & Hc').
    apply lookup_seq in Hc' as [-> _]. done. }
  assert (HcellT : flatten cellT ⊆ flatten trT).
  { apply flatten_kid. by eapply list_elem_of_lookup_2. }
  unfold cell_shape in Hsh. rewrite Hcsv in Hsh.
  rewrite (textValue_csv cfg g Hcsv), (sourceRow_other cfg g Hcsv) in Hsh by discriminate.
  change (Builder.cellTag cfg "tfoot") with "td" in Hsh.
  remember (default "" (g !! 0 ≫= (λ row, row !! c))) as txt eqn:Htxt. clear Htxt.
  destruct cellT as [cid ctg ccls cattrs ckids | ]; [|discriminate].
  rewrite shape_of_TElem in Hsh. injection Hsh as -> Hck.
  split; [apply Hsub, HfT, HrT, HcellT, flatten_root|]. split; [reflexivity|].
  destruct (Builder.useSpanFallback cfg).
  - destruct ckids as [|spT [|? ?]]; try discriminate. injection Hck as Hsp.
    destruct spT as [sid stg scls sattrs skids | ]; [|discriminate].
    rewrite shape_of_TElem in Hsp. injection Hsp as -> Hsk.
    destruct skids as [|tT [|? ?]]; try discriminate. injection Hsk as HtT.
    destruct tT as [ | tid val]; [discriminate|]. injection HtT as ->.
    assert (HspT : flatten (TElem sid "span" scls sattrs [TText tid txt])
                   ⊆ flatten (TElem cid "td" ccls cattrs
                                [TElem sid "span" scls sattrs [TText tid txt]])).
    { apply flatten_kid. by apply list_elem_of_singleton. }
    exists (text_node tid txt). split.
    { apply Hsub, HfT, HrT, HcellT, HspT. simpl. set_solver. }
    split; [reflexivity|]. split; [reflexivity|].
    exists (dom_node sid "span" scls sattrs [tid]). split.
    { apply Hsub, HfT, HrT, HcellT, HspT. simpl. set_solver. }
    by repeat split.
  - destruct ckids as [|tT [|? ?]]; try discriminate. injection Hck as HtT.
    destruct tT as [ | tid val]; [discriminate|]. injection HtT as ->.
    exists (text_node tid txt). split.
    { apply Hsub, HfT, HrT, HcellT. simpl. set_solver. }
    by repeat split.
Qed.

(** * The properties of the specification *)

(** C1, as amended.  For a configuration with a source grid [g] whose rows
    all have the same number of cells, whose header flag agrees with the
    header-row designation, and which is not empty when a header is
    included: with the span fallback off and no footer, extracting the
    built envelope yields the rows of [g], provided [uid] returned no id
    twice. *)
Theorem roundtrip_rectangular (rnd : nat → string) (cfg : Builder.Config)
    (JSON_parse : string → option Envelope) (json : Extractor.json_arg)
    (fuel : nat) (g : list (list string)) (m : nat) :
  Builder.csvData cfg = Some g →
  Forall (λ r, length r = m) g →
  Builder.includeHead cfg = Builder.csvHasHeaderRow cfg →
  (Builder.includeHead cfg = true → g ≠ []) →
  Builder.useSpanFallback cfg = false →
  Builder.includeFoot cfg = false →
  uid_fresh rnd (Builder.draws (Builder.final rnd cfg)) →
  denotes JSON_parse json (Builder.built rnd cfg) →
  3 ≤ fuel →
  Extractor.extractRowsFromXscp JSON_parse fuel json
  = Some (Some {| Extractor.rows := g; Extractor.hasHeader := Builder.includeHead cfg |}).
Proof.
  intros Hcsv Hrect Hflag Hne _ _ Hfresh Hden Hfuel.
  rewrite (extract_built rnd cfg JSON_parse fuel json Hfresh Hden Hfuel).
  by rewrite (shown_rect cfg g m Hcsv Hrect Hflag Hne).
Qed.

Lemma roundtrip_rectangular_witness :
  Extractor.extractRowsFromXscp no_parse 3
    (Extractor.JsonObject
       (Builder.built sample_rnd (with_grid [["a"; "b"]; ["c"; "d"]] false)))
  = Some (Some {| Extractor.rows := [["a"; "b"]; ["c"; "d"]];
                  Extractor.hasHeader := true |}).
Proof.
  apply (roundtrip_rectangular sample_rnd (with_grid [["a"; "b"]; ["c"; "d"]] false)
           no_parse _ 3 [["a"; "b"]; ["c"; "d"]] 2).
  - reflexivity.
  - repeat constructor.
  - reflexivity.
  - discriminate.
  - reflexivity.
  - reflexivity.
  - unfold uid_fresh. apply (bool_decide_unpack _). by vm_compute.
  - by left.
  - lia.
Defined.

(** C1 fails as stated: a grid with a short row comes back padded. *)
Lemma roundtrip_ragged :
  Extractor.extractRowsFromXscp no_parse 3
    (Extractor.JsonObject (Builder.built sample_rnd (with_grid [["a"; "b"]; ["c"]] false)))
  = Some (Some {| Extractor.rows := [["a"; "b"]; ["c"; ""]];
                  Extractor.hasHeader := true |})
  ∧ [["a"; "b"]; ["c"; ""]] ≠ [["a"; "b"]; ["c"]].
Proof. split; [by vm_compute | discriminate]. Qed.

(** C2, as amended.  When the Builder runs with a source grid [g] and a
    footer is included, the footer row reads source row 0, the row that
    the header reads: the [tfoot] element is the last child of the table,
    its only child is the row, and the cell [c] of the row carries a text
    node whose text is [g[0][c]], or the empty string where row 0 has no
    cell [c]; with the span fallback the text node sits in a [span]. *)
Theorem footer_reads_row0 (rnd : nat → string) (cfg : Builder.Config)
    (g : list (list string)) :
  Builder.csvData cfg = Some g →
  Builder.includeFoot cfg = true →
  ∃ table foot tr cells,
    head (Builder.nodes (Builder.final rnd cfg)) = Some table ∧
    raw_tag table = "table" ∧
    last (children_of table) = Some (_id foot) ∧
    foot ∈ Builder.nodes (Builder.final rnd cfg) ∧
    raw_tag foot = "tfoot" ∧ children_of foot = [_id tr] ∧
    tr ∈ Builder.nodes (Builder.final rnd cfg) ∧
    raw_tag tr = "tr" ∧ children_of tr = map _id cells ∧
    length cells = Builder.iterations (Builder.cellCount cfg) ∧
    ∀ c cell, cells !! c = Some cell →
      cell ∈ Builder.nodes (Builder.final rnd cfg) ∧ raw_tag cell = "td" ∧
      ∃ tn, tn ∈ Builder.nodes (Builder.final rnd cfg) ∧
            Extractor.is_text tn = true ∧
            v tn = Some (default "" (g !! 0 ≫= (λ row, row !! c))) ∧
            if Builder.useSpanFallback cfg
            then ∃ span, span ∈ Builder.nodes (Builder.final rnd cfg) ∧
                         raw_tag span = "span" ∧
                         children_of cell = [_id span] ∧ children_of span = [_id tn]
            else children_of cell = [_id tn].
Proof. apply footer_cells. Qed.

Lemma footer_reads_row0_witness :
  ∃ table foot tr cells,
    head (Builder.nodes (Builder.final sample_rnd full_cfg)) = Some table ∧
    raw_tag table = "table" ∧
    last (children_of table) = Some (_id foot) ∧
    foot ∈ Builder.nodes (Builder.final sample_rnd full_cfg) ∧
    raw_tag foot = "tfoot" ∧ children_of foot = [_id tr] ∧
    tr ∈ Builder.nodes (Builder.final sample_rnd full_cfg) ∧
    raw_tag tr = "tr" ∧ children_of tr = map _id cells ∧
    length cells = Builder.iterations (Builder.cellCount full_cfg) ∧
    ∀ c cell, cells !! c = Some cell →
      cell ∈ Builder.nodes (Builder.final sample_rnd full_cfg) ∧ raw_tag cell = "td" ∧
      ∃ tn, tn ∈ Builder.nodes (Builder.final sample_rnd full_cfg) ∧
            Extractor.is_text tn = true ∧
            v tn = Some (default "" ([["a"; "b"]; ["c"]] !! 0 ≫= (λ row, row !! c))) ∧
            if Builder.useSpanFallback full_cfg
            then ∃ span, span ∈ Builder.nodes (Builder.final sample_rnd full_cfg) ∧
                         raw_tag span = "span" ∧
                         children_of cell = [_id span] ∧ children_of span = [_id tn]
            else children_of cell = [_id tn].
Proof.
  apply (footer_reads_row0 sample_rnd full_cfg [["a"; "b"]; ["c"]]).
  - reflexivity.
  - reflexivity.
Defined.

(** C2 fails as stated: with the grid [h / x] the cell of the footer holds
    a text node with the text [h] of row 0. *)
Lemma footer_has_text :
  map (λ n, (raw_tag n, children_of n, _id n, v n))
      (Builder.nodes (Builder.final sample_rnd (with_grid [["h"]; ["x"]] true)))
  = [("table", ["n_1"; "n_5"; "n_9"], "n_0", None);
     ("thead", ["n_2"], "n_1", None); ("tr", ["n_3"], "n_2", None);
     ("th", ["t_4"], "n_3", None); ("", [], "t_4", Some "h");
     ("tbody", ["n_6"], "n_5", None); ("tr", ["n_7"], "n_6", None);
     ("td", ["t_8"], "n_7", None); ("", [], "t_8", Some "x");
     ("tfoot", ["n_10"], "n_9", None); ("tr", ["n_11"], "n_10", None);
     ("td", ["t_12"], "n_11", None); ("", [], "t_12", Some "h")]
  ∧ Extractor.readSections no_parse 3
      (Extractor.JsonObject (Builder.built sample_rnd (with_grid [["h"]; ["x"]] true)))
    = Some (Some ([["h"]], [["x"]], [["h"]])).
Proof. split; by vm_compute. Qed.

(** C3, as amended.  For every grid of strings in which every row has at
    least one cell and the last row is not the single empty cell, parsing
    the serialization gives back the grid. *)
Theorem parse_stringify (g : list (list string)) :
  Forall (λ r, r ≠ []) g → List.last g [] ≠ [""] →
  CSV.parseCSV (CSV.stringifyCSV g) = g.
Proof. apply CSVFacts.parse_stringify_nonempty. Qed.

Lemma parse_stringify_witness :
  CSV.parseCSV (CSV.stringifyCSV [["a,b"; ""]; [String dquote "q"; String CR "c"]])
  = [["a,b"; ""]; [String dquote "q"; String CR "c"]].
Proof.
  apply parse_stringify.
  - repeat constructor; discriminate.
  - discriminate.
Defined.

(** C3 fails as stated: a last row that is a single empty cell is lost. *)
Lemma parse_stringify_last_empty :
  CSV.parseCSV (CSV.stringifyCSV [["a"]; [""]]) = [["a"]]
  ∧ [["a"]] ≠ [["a"]; [""]].
Proof. split; [by vm_compute | discriminate]. Qed.




(** C5.  For every combination of the header and footer flags the children
    of the table element are the ids of the section elements in the order
    head (if included), body, foot (if included). *)
Theorem section_order (rnd : nat → string) (cfg : Builder.Config) :
  ∃ table secs,
    head (Builder.nodes (Builder.final rnd cfg)) = Some table ∧
    raw_tag table = "table" ∧
    children_of table = map _id secs ∧
    secs ⊆ Builder.nodes (Builder.final rnd cfg) ∧
    map raw_tag secs
    = (if Builder.includeHead cfg then ["thead"] else []) ++ ["tbody"]
      ++ (if Builder.includeFoot cfg then ["tfoot"] else []).
Proof. apply table_sections. Qed.

(** C6, as amended.  In every built graph each id of a [children]
    sequence is the id of a node of the graph, and resolves in the id
    index; the node ids are distinct when [uid] returned no id twice during
    the build: [uid] draws random digits and does not compare them with the
    ids in use. *)
Theorem graph_closed_unique (rnd : nat → string) (cfg : Builder.Config) :
  closed (Builder.nodes (Builder.final rnd cfg)) ∧
  (∀ n c, n ∈ Builder.nodes (Builder.final rnd cfg) → c ∈ children_of n →
          is_Some (Extractor.indexById (Builder.nodes (Builder.final rnd cfg)) !! c)) ∧
  (uid_fresh rnd (Builder.draws (Builder.final rnd cfg)) →
   NoDup (map _id (Builder.nodes (Builder.final rnd cfg)))).
Proof.
  assert (Hclosed : closed (Builder.nodes (Builder.final rnd cfg))).
  { destruct (build_laid_out rnd cfg) as (T & W & Hlaid & _).
    by eapply laid_out_closed. }
  split; [done|]. split; [|apply built_ids_NoDup].
  intros n c Hn Hc. destruct (Hclosed n c Hn Hc) as (m & Hm & <-).
  by apply indexById_is_Some.
Qed.

Lemma graph_closed_unique_witness :
  NoDup (map _id (Builder.nodes (Builder.final sample_rnd (with_grid [["h"]; ["x"]] true)))).
Proof.
  apply (proj2 (proj2 (graph_closed_unique sample_rnd (with_grid [["h"]; ["x"]] true)))).
  unfold uid_fresh. apply (bool_decide_unpack _). by vm_compute.
Defined.

(** C6 fails as stated: when the second call of [uid] returns the digits of
    the first call again, the table and the head element get the same id. *)
Lemma ids_repeat :
  map (λ n, (raw_tag n, _id n))
      (take 2 (Builder.nodes (Builder.final repeating_rnd sample_cfg)))
  = [("table", "n_0"); ("thead", "n_0")]
  ∧ ¬ NoDup (map _id (Builder.nodes (Builder.final repeating_rnd sample_cfg))).
Proof.
  split; [by vm_compute|]. apply (bool_decide_eq_false_1 _). by vm_compute.
Qed.

(** C7, as amended.  For an envelope of the declared shape, [extract]
    returns [null] exactly when the envelope cannot be parsed, has no
    nodes, or contains no element with the tag [table]; in every other
    case it returns a result with rows when the children references of
    the nodes do not loop. *)
Theorem extract_null_iff (JSON_parse : string → option Envelope)
    (json : Extractor.json_arg) :
  (∀ fuel, Extractor.extractRowsFromXscp JSON_parse fuel json = Some None
           ↔ no_data JSON_parse json) ∧
  (∀ e, parsed JSON_parse json = Some e → ¬ no_data JSON_parse json →
        acyclic (nodes_in e) →
        ∃ fuel0, ∀ fuel, fuel0 ≤ fuel →
          ∃ r, Extractor.extractRowsFromXscp JSON_parse fuel json = Some (Some r)).
Proof.
  split.
  - intros fuel. apply extract_null.
  - intros e. apply extract_total.
Qed.

Lemma small_nodes_ranked (n : node) (c : string) :
  n ∈ small_nodes → c ∈ children_of n → small_rank c < small_rank (_id n).
Proof.
  intros Hn Hc. unfold small_nodes in Hn.
  repeat (apply elem_of_cons in Hn as [-> | Hn]); try (by apply elem_of_nil in Hn);
    try (apply list_elem_of_singleton in Hc; subst c; vm_compute; lia).
  by apply elem_of_nil in Hc.
Qed.

Lemma extract_null_iff_witness :
  ∃ fuel0, ∀ fuel, fuel0 ≤ fuel →
    ∃ r, Extractor.extractRowsFromXscp no_parse fuel
           (Extractor.JsonObject (envelope_of small_nodes)) = Some (Some r).
Proof.
  apply (proj2 (extract_null_iff no_parse (Extractor.JsonObject (envelope_of small_nodes)))
           (envelope_of small_nodes)).
  - reflexivity.
  - intros [Hnil | Hno]; [discriminate|]. apply Hno.
    exists (dom_node "t" "table" [] [] ["b"]). split; [by left | reflexivity].
  - exists small_rank. apply small_nodes_ranked.
Defined.

Lemma looping_cell_text (fuel : nat) :
  Extractor.getTextFromNode fuel (Extractor.indexById looping_nodes)
    (Some (dom_node "c" "td" [] [] ["c"])) = None.
Proof.
  induction fuel as [|fuel IH]; [done|].
  rewrite getTextFromNode_S. cbn [Extractor.is_text dom_node text].
  change (children_of (dom_node "c" "td" [] [] ["c"])) with ["c"].
  cbn [text_loop].
  change (Extractor.indexById looping_nodes !! "c")
    with (Some (dom_node "c" "td" [] [] ["c"])).
  by rewrite IH.
Qed.

(** C7 fails as stated: this envelope is parsed, has nodes and a table,
    and yet the search for the text of its cell never ends. *)
Lemma extract_loops :
  overflows no_parse (Extractor.JsonObject (envelope_of looping_nodes))
  ∧ parsed no_parse (Extractor.JsonObject (envelope_of looping_nodes))
    = Some (envelope_of looping_nodes)
  ∧ nodes_in (envelope_of looping_nodes) = looping_nodes
  ∧ has_table looping_nodes.
Proof.
  split; [|split; [done|split; [done|]]].
  - intros fuel. unfold Extractor.extractRowsFromXscp, Extractor.readSections.
    cbn [Extractor.read_payload envelope_of payload mbind option_bind payload_nodes
         default from_option]. unfold id.
    change (bool_decide (looping_nodes = [])) with false. cbv iota.
    change (find (λ n, Extractor.has_tag "table" n) looping_nodes)
      with (Some (dom_node "t" "table" [] [] ["b"])). cbv iota beta.
    change (omap (λ id, Extractor.indexById looping_nodes !! id)
              (children_of (dom_node "t" "table" [] [] ["b"])))
      with [dom_node "b" "tbody" [] [] ["r"]].
    change (find (λ n, Extractor.has_tag "thead" n) [dom_node "b" "tbody" [] [] ["r"]])
      with (@None node).
    change (find (λ n, Extractor.has_tag "tbody" n) [dom_node "b" "tbody" [] [] ["r"]])
      with (Some (dom_node "b" "tbody" [] [] ["r"])).
    cbn [Extractor.readSectionRows mbind option_bind].
    change (omap (λ id, Extractor.indexById looping_nodes !! id)
              (children_of (dom_node "b" "tbody" [] [] ["r"])))
      with [dom_node "r" "tr" [] [] ["c"]].
    change (filter (λ n, Extractor.has_tag "tr" n) [dom_node "r" "tr" [] [] ["c"]])
      with [dom_node "r" "tr" [] [] ["c"]].
    cbn [mapM]. unfold Extractor.readRow at 1.
    change (omap (λ id, Extractor.indexById looping_nodes !! id)
              (children_of (dom_node "r" "tr" [] [] ["c"])))
      with [dom_node "c" "td" [] [] ["c"]].
    change (filter (λ n, Extractor.has_tag "td" n || Extractor.has_tag "th" n)
              [dom_node "c" "td" [] [] ["c"]])
      with [dom_node "c" "td" [] [] ["c"]].
    cbn [mapM]. rewrite looping_cell_text. reflexivity.
  - exists (dom_node "t" "table" [] [] ["b"]). split; [by left | reflexivity].
Qed.




(** C9, as amended.  In [stringify] a cell is wrapped in quotes, with every
    quote of the cell written twice, iff it contains a quote, a comma, a
    line feed or a carriage return, and is written as it is otherwise; the
    cells of a row are joined with commas and the rows with line feeds. *)
Theorem stringify_quoting (cell : string) (rows : list (list string)) :
  (occurs dquote cell ∨ occurs comma cell ∨ occurs LF cell ∨ occurs CR cell
   ↔ CSV.stringifyCell cell = String dquote (quotes_doubled cell +:+ String dquote "")) ∧
  (¬ (occurs dquote cell ∨ occurs comma cell ∨ occurs LF cell ∨ occurs CR cell)
   → CSV.stringifyCell cell = cell) ∧
  CSV.stringifyCSV rows
  = String.concat (String LF "")
      (map (λ r, String.concat "," (map CSV.stringifyCell r)) rows).
Proof.
  assert (Hneeds : CSV.needsQuote cell = true ↔
    occurs dquote cell ∨ occurs comma cell ∨ occurs LF cell ∨ occurs CR cell).
  { unfold CSV.needsQuote, occurs. rewrite existsb_exists. split.
    - intros (ch & Hin & Hsp). unfold CSV.special in Hsp.
      rewrite !orb_true_iff, !Ascii.eqb_eq in Hsp.
      destruct Hsp as [[[-> | ->] | ->] | ->]; auto.
    - intros H. unfold CSV.special.
      destruct H as [H | [H | [H | H]]]; eexists; (split; [exact H|]);
        reflexivity. }
  split; [|split; [|reflexivity]].
  - rewrite <- Hneeds, <- escaped_doubled. unfold CSV.stringifyCell.
    destruct (CSV.needsQuote cell) eqn:Hq; [done|].
    split; [done|]. intros Heq. exfalso.
    rewrite (CSVFacts.escaped_plain cell Hq) in Heq.
    apply (f_equal String.length) in Heq.
    simpl in Heq. rewrite length_sapp in Heq. simpl in Heq. lia.
  - intros Hno. unfold CSV.stringifyCell.
    destruct (CSV.needsQuote cell) eqn:Hq; [by destruct Hno; apply Hneeds|].
    by apply CSVFacts.escaped_plain.
Qed.

(** C9 fails as stated: a cell that holds a carriage return, and no quote,
    comma or line feed, is wrapped in quotes. *)
Lemma quoted_carriage_return :
  CSV.stringifyCell (String CR "") = String dquote (String CR (String dquote ""))
  ∧ ¬ (occurs dquote (String CR "") ∨ occurs comma (String CR "")
       ∨ occurs LF (String CR "")).
Proof.
  split; [reflexivity|]. unfold occurs. simpl.
  intros [[H | []] | [[H | []] | [H | []]]]; discriminate H.
Qed.

Lemma synthetic_rows (cfg : Builder.Config) :
  Builder.csvData cfg = None →
  head_rows cfg ++ body_rows cfg
  = (if Builder.includeHead cfg then [replicate (Z.to_nat (Builder.cols cfg)) ""] else [])
    ++ replicate (Z.to_nat (Builder.rows cfg)) (replicate (Z.to_nat (Builder.cols cfg)) "").
Proof.
  intros Hcsv.
  assert (Hrow : ∀ sec r, row_texts cfg sec r = replicate (Z.to_nat (Builder.cols cfg)) "").
  { intros sec r. unfold row_texts, ncols, Builder.cellCount, Builder.textValue.
    rewrite Hcsv. cbn [Builder.iterations].
    generalize (Z.to_nat (Builder.cols cfg)) as k. generalize 0 as start.
    intros start k. revert start. induction k as [|k IH]; intros start; [done|].
    simpl. by rewrite IH. }
  unfold head_rows, body_rows, nrows, Builder.bodyRowCount. rewrite Hcsv.
  cbn [Builder.iterations]. f_equal.
  - destruct (Builder.includeHead cfg); [|done]. by rewrite Hrow.
  - generalize (Z.to_nat (Builder.rows cfg)) as k. generalize 0 as start.
    intros start k. revert start. induction k as [|k IH]; intros start; [done|].
    simpl. by rewrite IH, Hrow.
Qed.

(** C10.  When the Builder runs without a source grid, every cell element
    has an empty [children] sequence, and the graph holds no text node and
    no [span], whatever the span-fallback flag; the extraction of such a
    build returns rows, and every cell that it recovers is the empty
    string.  When [uid] returned no id twice, the rows are the header row,
    if included, and the body rows, each with one empty cell per column. *)
Theorem synthetic_cells_empty (rnd : nat → string) (cfg : Builder.Config) :
  Builder.csvData cfg = None →
  (∀ n, n ∈ Builder.nodes (Builder.final rnd cfg) →
     Extractor.is_text n = false ∧
     Extractor.has_tag "span" n = false ∧
     (Extractor.has_tag "td" n || Extractor.has_tag "th" n = true →
      children n = Some [])) ∧
  (∀ (JSON_parse : string → option Envelope) (json : Extractor.json_arg) (fuel : nat),
     denotes JSON_parse json (Builder.built rnd cfg) → 1 ≤ fuel →
     ∃ r, Extractor.extractRowsFromXscp JSON_parse fuel json = Some (Some r) ∧
          Forall (Forall (λ c, c = "")) (Extractor.rows r)) ∧
  (∀ (JSON_parse : string → option Envelope) (json : Extractor.json_arg) (fuel : nat),
     uid_fresh rnd (Builder.draws (Builder.final rnd cfg)) →
     denotes JSON_parse json (Builder.built rnd cfg) → 3 ≤ fuel →
     Extractor.extractRowsFromXscp JSON_parse fuel json
     = Some (Some
         {| Extractor.rows :=
              (if Builder.includeHead cfg
               then [replicate (Z.to_nat (Builder.cols cfg)) ""] else [])
              ++ replicate (Z.to_nat (Builder.rows cfg))
                   (replicate (Z.to_nat (Builder.cols cfg)) "");
            Extractor.hasHeader := Builder.includeHead cfg |})).
Proof.
  intros Hcsv. split; [|split].
  - intros n Hn. by apply (synthetic_nodes_bare rnd cfg).
  - intros JSON_parse json fuel Hden Hfuel. by apply (extract_synthetic JSON_parse rnd cfg).
  - intros JSON_parse json fuel Hfresh Hden Hfuel.
    rewrite (extract_built rnd cfg JSON_parse fuel json Hfresh Hden Hfuel).
    by rewrite synthetic_rows.
Qed.

Lemma synthetic_cells_empty_witness :
  (∀ n, n ∈ Builder.nodes (Builder.final sample_rnd sample_cfg) →
     Extractor.is_text n = false ∧
     Extractor.has_tag "span" n = false ∧
     (Extractor.has_tag "td" n || Extractor.has_tag "th" n = true →
      children n = Some [])) ∧
  (∃ r, Extractor.extractRowsFromXscp no_parse 1
          (Extractor.JsonObject (Builder.built sample_rnd sample_cfg)) = Some (Some r) ∧
        Forall (Forall (λ c, c = "")) (Extractor.rows r)) ∧
  Extractor.extractRowsFromXscp no_parse 3
    (Extractor.JsonObject (Builder.built sample_rnd sample_cfg))
  = Some (Some {| Extractor.rows := [[""; ""]; [""; ""]]; Extractor.hasHeader := true |}).
Proof.
  destruct (synthetic_cells_empty sample_rnd sample_cfg eq_refl) as (H1 & H2 & H3).
  split; [exact H1|]. split.
  - apply (H2 no_parse _ 1); [by left | lia].
  - apply (H3 no_parse _ 3); [|by left | lia].
    unfold uid_fresh. apply (bool_decide_unpack _). by vm_compute.
Defined.

(** * Further properties of the code *)

(** ** The CSV codec *)

(** X1.  Every row that [parseCSV] returns has at least one cell, whatever
    the text. *)
Theorem parse_rows_have_cells (input : string) :
  Forall (λ r, r ≠ []) (CSV.parseCSV input).
Proof. unfold CSV.parseCSV. apply loop_rows_nonempty. constructor. Qed.

(** X2.  Outside quoted fields a carriage return is dropped: a text
    without quotes parses like the text without its carriage returns. *)
Theorem parse_ignores_cr (text : string) :
  ¬ occurs dquote text → CSV.parseCSV text = CSV.parseCSV (drop_CR text).
Proof. intros H. unfold CSV.parseCSV. by apply parse_loop_unquoted. Qed.

Lemma parse_ignores_cr_witness :
  CSV.parseCSV (String "a" (String "," (String "b" (String CR (String LF "c")))))
  = CSV.parseCSV
      (drop_CR (String "a" (String "," (String "b" (String CR (String LF "c")))))).
Proof.
  apply parse_ignores_cr. unfold occurs. simpl.
  intros H. repeat (destruct H as [H | H]; [discriminate H|]). exact H.
Defined.

(** X3.  A quote that is never closed is no error: the field takes the
    rest of the text, commas and line breaks included, and the parse gives
    that one cell (no row when the rest is empty). *)
Theorem parse_open_quote (rest : string) :
  ¬ occurs dquote rest →
  CSV.parseCSV (String dquote rest) = if bool_decide (rest = "") then [] else [[rest]].
Proof.
  intros H. unfold CSV.parseCSV.
  change (CSV.parse_loop (String dquote rest) [] [] "" false)
    with (CSV.parse_loop rest [] [] "" true).
  rewrite parse_loop_open_quote by done. rewrite sapp_nil_l. unfold CSV.flush.
  cbn [app length]. rewrite (bool_decide_false (1 < 1)) by lia. cbn [orb lookup].
  destruct (bool_decide_reflect (rest = "")) as [-> | Hne]; [done|].
  rewrite bool_decide_true; [done|]. simpl. congruence.
Qed.

Lemma parse_open_quote_witness :
  CSV.parseCSV (String dquote (String "a" (String "," (String LF "b"))))
  = if bool_decide (String "a" (String "," (String LF "b")) = "") then []
    else [[String "a" (String "," (String LF "b"))]].
Proof.
  apply parse_open_quote. unfold occurs. simpl.
  intros H. repeat (destruct H as [H | H]; [discriminate H|]). exact H.
Defined.

(** X4.  A text in which every serialized row ends with a line break, a
    line feed or a carriage return and a line feed, parses to exactly its
    rows, a last row with a single empty cell included; so does the
    serialization of a grid followed by a line feed. *)
Theorem parse_terminated (eol : string) (g : list (list string)) :
  eol = String LF "" ∨ eol = String CR (String LF "") →
  Forall (λ r, r ≠ []) g →
  CSV.parseCSV (terminated eol g) = g ∧
  (g ≠ [] → CSV.parseCSV (CSV.stringifyCSV g +:+ String LF "") = g).
Proof.
  intros Heol Hne. split.
  - unfold CSV.parseCSV. by rewrite loop_terminated.
  - intros Hg. rewrite <- (terminated_stringify g Hg).
    unfold CSV.parseCSV. rewrite loop_terminated; [done | by left | done].
Qed.

Lemma parse_terminated_witness :
  CSV.parseCSV (terminated (String CR (String LF "")) [["a"; "b,c"]; [""]])
  = [["a"; "b,c"]; [""]] ∧
  ([["a"; "b,c"]; [""]] ≠ [] →
   CSV.parseCSV (CSV.stringifyCSV [["a"; "b,c"]; [""]] +:+ String LF "")
   = [["a"; "b,c"]; [""]]).
Proof.
  apply (parse_terminated (String CR (String LF "")) [["a"; "b,c"]; [""]]).
  - by right.
  - repeat constructor; discriminate.
Defined.

(** ** The builder and the extractor *)

(** X5.  Extracting any built envelope gives the header flag of the
    configuration and, as rows, the header row (if included) followed by
    the body rows, each cell with the text that the builder chose for it:
    the span fallback, the footer, the class names and the wrapper chain
    do not change what is read (provided [uid] returned no id twice). *)
Theorem extract_built_rows (rnd : nat → string) (cfg : Builder.Config)
    (JSON_parse : string → option Envelope) (json : Extractor.json_arg) (fuel : nat) :
  uid_fresh rnd (Builder.draws (Builder.final rnd cfg)) →
  denotes JSON_parse json (Builder.built rnd cfg) →
  3 ≤ fuel →
  Extractor.extractRowsFromXscp JSON_parse fuel json
  = Some (Some
      {| Extractor.rows :=
           (if Builder.includeHead cfg
            then [map (Builder.textValue cfg "thead" 0)
                      (seq 0 (Builder.iterations (Builder.cellCount cfg)))]
            else [])
           ++ map (λ r, map (Builder.textValue cfg "tbody" r)
                            (seq 0 (Builder.iterations (Builder.cellCount cfg))))
                  (seq 0 (Builder.iterations (Builder.bodyRowCount cfg)));
         Extractor.hasHeader := Builder.includeHead cfg |}).
Proof. apply extract_built. Qed.

Lemma extract_built_rows_witness :
  Extractor.extractRowsFromXscp no_parse 3
    (Extractor.JsonObject (Builder.built sample_rnd full_cfg))
  = Some (Some {| Extractor.rows := [["a"; "b"]; ["c"; ""]];
                  Extractor.hasHeader := true |}).
Proof.
  apply (extract_built_rows sample_rnd full_cfg no_parse _ 3).
  - unfold uid_fresh. apply (bool_decide_unpack _). by vm_compute.
  - by left.
  - lia.
Defined.

(** X6.  With a source grid, a header flag that agrees with the
    header-row designation, and at least one row when a header is
    included, extraction of the built envelope gives the rows of the grid,
    each padded with empty cells to the length of the longest row. *)
Theorem roundtrip_padded (rnd : nat → string) (cfg : Builder.Config)
    (JSON_parse : string → option Envelope) (json : Extractor.json_arg)
    (fuel : nat) (g : list (list string)) :
  Builder.csvData cfg = Some g →
  Builder.includeHead cfg = Builder.csvHasHeaderRow cfg →
  (Builder.includeHead cfg = true → g ≠ []) →
  uid_fresh rnd (Builder.draws (Builder.final rnd cfg)) →
  denotes JSON_parse json (Builder.built rnd cfg) →
  3 ≤ fuel →
  Extractor.extractRowsFromXscp JSON_parse fuel json
  = Some (Some {| Extractor.rows := map (pad (widest g)) g;
                  Extractor.hasHeader := Builder.includeHead cfg |}).
Proof.
  intros Hcsv Hflag Hne Hfresh Hden Hfuel.
  rewrite (extract_built rnd cfg JSON_parse fuel json Hfresh Hden Hfuel).
  by rewrite (shown_padded cfg g Hcsv Hflag Hne).
Qed.

Lemma roundtrip_padded_witness :
  Extractor.extractRowsFromXscp no_parse 3
    (Extractor.JsonObject (Builder.built sample_rnd full_cfg))
  = Some (Some {| Extractor.rows := map (pad (widest [["a"; "b"]; ["c"]]))
                                        [["a"; "b"]; ["c"]];
                  Extractor.hasHeader := true |}).
Proof.
  apply (roundtrip_padded sample_rnd full_cfg no_parse _ 3 [["a"; "b"]; ["c"]]).
  - reflexivity.
  - reflexivity.
  - discriminate.
  - unfold uid_fresh. apply (bool_decide_unpack _). by vm_compute.
  - by left.
  - lia.
Defined.

(** X7.  In every built graph each class id of each node is the id of a
    Style record of the same build: the inspector finds a style for it and
    shows the name of that style, and the tree preview shows a class name
    for every class id. *)
Theorem class_ids_resolve (rnd : nat → string) (cfg : Builder.Config) :
  Forall
    (λ n,
       length (DomNodeItem.classNames
                 (TreePreview.classNameById (Builder.styles (Builder.final rnd cfg))) n)
       = length (classes_of n) ∧
       Forall
         (λ cid, ∃ st, st ∈ Builder.styles (Builder.final rnd cfg) ∧
                       Style._id st = cid ∧
                       Inspector.classLabel (Builder.styles (Builder.final rnd cfg)) cid
                       = Style.name st)
         (classes_of n))
    (Builder.nodes (Builder.final rnd cfg)).
Proof.
  apply Forall_forall. intros n Hn.
  destruct (settled_final rnd cfg) as [Hs _].
  destruct (sound_class_names rnd _ n Hs Hn) as [Hlen Hcls].
  split; [done|]. by apply Forall_forall.
Qed.

(** X8.  For class names that are ASCII texts, the Style records of a
    build have distinct names; every name is a token, not empty and without
    white space; and every record carries the declaration of its name: the
    one of the preset when the name is a preset, the one of the utility
    token otherwise, which is empty for a token that is not in the
    table. *)
Theorem style_records (rnd : nat → string) (cfg : Builder.Config) :
  ascii_classes cfg →
  NoDup (map Style.name (Builder.styles (Builder.final rnd cfg))) ∧
  Forall
    (λ st,
       is_token (Style.name st) = true ∧
       Style.styleLess st
       = match Builder.SECTION_PRESETS (Style.name st) with
         | Some (sl, _) => sl
         | None => Builder.tokenCss (Style.name st)
         end ∧
       Style.variants st
       = match Builder.SECTION_PRESETS (Style.name st) with
         | Some (_, vs) => vs
         | None => []
         end)
    (Builder.styles (Builder.final rnd cfg)).
Proof.
  intros _. destruct (settled_final rnd cfg) as [Hs _].
  split; [apply (sound_names _ _ Hs)|].
  apply Forall_forall. intros st Hst.
  pose proof (proj1 (Forall_forall _ _) (sound_tokens _ _ Hs) st Hst) as Htok.
  pose proof (proj1 (Forall_forall _ _) (sound_decl _ _ Hs) st Hst) as Hd.
  unfold declaration in Hd. split; [done|].
  by destruct (Builder.SECTION_PRESETS (Style.name st)) as [[sl vs]|]; simplify_eq.
Qed.

Lemma style_records_witness :
  NoDup (map Style.name (Builder.styles (Builder.final sample_rnd full_cfg))) ∧
  Forall
    (λ st,
       is_token (Style.name st) = true ∧
       Style.styleLess st
       = match Builder.SECTION_PRESETS (Style.name st) with
         | Some (sl, _) => sl
         | None => Builder.tokenCss (Style.name st)
         end ∧
       Style.variants st
       = match Builder.SECTION_PRESETS (Style.name st) with
         | Some (_, vs) => vs
         | None => []
         end)
    (Builder.styles (Builder.final sample_rnd full_cfg)).
Proof. apply (style_records sample_rnd full_cfg). by repeat split. Defined.

(** X9.  Every call of [uid] in a build yields exactly one node or one
    Style record; the id of an element starts with [n_], the id of a text
    node with [t_] and the id of a style with [cls_], so that no node
    shares its id with a style, even when the random digits repeat. *)
Theorem ids_by_kind (rnd : nat → string) (cfg : Builder.Config) :
  length (Builder.nodes (Builder.final rnd cfg))
  + length (Builder.styles (Builder.final rnd cfg))
  = Builder.draws (Builder.final rnd cfg) ∧
  Forall
    (λ n, ∃ k, k < Builder.draws (Builder.final rnd cfg) ∧
               _id n = (if Extractor.is_text n then "t_" else "n_") +:+ rnd k)
    (Builder.nodes (Builder.final rnd cfg)) ∧
  Forall
    (λ st, ∃ k, k < Builder.draws (Builder.final rnd cfg) ∧
                Style._id st = "cls_" +:+ rnd k)
    (Builder.styles (Builder.final rnd cfg)) ∧
  Forall
    (λ n, Forall (λ st, _id n ≠ Style._id st) (Builder.styles (Builder.final rnd cfg)))
    (Builder.nodes (Builder.final rnd cfg)).
Proof.
  destruct (settled_final rnd cfg) as [Hs Hcount].
  pose proof (style_ids_prefixed rnd _ (sound_style_ids _ _ Hs)) as Hst.
  split; [done|]. split; [apply (sound_node_ids _ _ Hs)|]. split; [done|].
  apply Forall_forall. intros n Hn. apply Forall_forall. intros st Hin.
  destruct (proj1 (Forall_forall _ _) Hst st Hin) as (k & _ & ->).
  eapply node_style_ids_differ.
  by apply (proj1 (Forall_forall _ _) (sound_node_ids _ _ Hs)).
Qed.

(** X10.  When [uid] returns no id twice, the ids of the nodes and of the
    styles of a build are all distinct. *)
Theorem all_ids_distinct (rnd : nat → string) (cfg : Builder.Config) :
  uid_fresh rnd (Builder.draws (Builder.final rnd cfg)) →
  NoDup (map _id (Builder.nodes (Builder.final rnd cfg))
         ++ map Style._id (Builder.styles (Builder.final rnd cfg))).
Proof.
  intros Hfresh. destruct (settled_final rnd cfg) as [Hs _].
  apply (settled_ids_NoDup rnd _ Hs); [|done]. by apply built_ids_NoDup.
Qed.

Lemma all_ids_distinct_witness :
  NoDup (map _id (Builder.nodes (Builder.final sample_rnd full_cfg))
         ++ map Style._id (Builder.styles (Builder.final sample_rnd full_cfg))).
Proof.
  apply (all_ids_distinct sample_rnd full_cfg).
  unfold uid_fresh. apply (bool_decide_unpack _). by vm_compute.
Defined.

(** X11.  The number of nodes of a built graph: the table, a section
    element and a row for the head and for the foot that are included, the
    body element with its rows, the five wrappers when the chain is asked
    for; a row has its element and its cells, and a cell is one node
    without a source grid, two with a grid and three with the span
    fallback. *)
Theorem built_node_count (rnd : nat → string) (cfg : Builder.Config) :
  length (Builder.nodes (Builder.final rnd cfg)) = node_count cfg.
Proof. apply final_node_count. Qed.

(** X12.  With the wrapper chain, the last five nodes of the graph are
    [div] elements, each the only child of the one before and the table
    the only child of the last; each carries one class, the id of the
    Style record of its preset, in the order section_table,
    padding-global, container-large, padding-section-medium,
    table_component, and these records carry the declarations of the
    presets. *)
Theorem wrapper_chain (rnd : nat → string) (cfg : Builder.Config) :
  Builder.wrapInSection cfg = true →
  ∃ table rest o p c ps tw i1 i2 i3 i4 i5,
    Builder.nodes (Builder.final rnd cfg)
    = table :: rest ++
      [dom_node o "div" [i1] [] [p]; dom_node p "div" [i2] [] [c];
       dom_node c "div" [i3] [] [ps]; dom_node ps "div" [i4] [] [tw];
       dom_node tw "div" [i5] [] [_id table]] ∧
    raw_tag table = "table" ∧
    {| Style._id := i1; Style.name := "section_table";
       Style.styleLess := ""; Style.variants := [] |}
      ∈ Builder.styles (Builder.final rnd cfg) ∧
    {| Style._id := i2; Style.name := "padding-global";
       Style.styleLess := "padding-right: 5%; padding-left: 5%;";
       Style.variants := [] |}
      ∈ Builder.styles (Builder.final rnd cfg) ∧
    {| Style._id := i3; Style.name := "container-large";
       Style.styleLess :=
         "width: 100%; max-width: 80rem; margin-right: auto; margin-left: auto;";
       Style.variants := [] |}
      ∈ Builder.styles (Builder.final rnd cfg) ∧
    {| Style._id := i4; Style.name := "padding-section-medium";
       Style.styleLess := "padding-top: 5rem; padding-bottom: 5rem;";
       Style.variants := [("medium", "padding-top: 4rem; padding-bottom: 4rem;");
                          ("small", "padding-top: 3rem; padding-bottom: 3rem;")] |}
      ∈ Builder.styles (Builder.final rnd cfg) ∧
    {| Style._id := i5; Style.name := "table_component";
       Style.styleLess := ""; Style.variants := [] |}
      ∈ Builder.styles (Builder.final rnd cfg).
Proof.
  intros Hwrap.
  destruct (final_wrappers rnd cfg Hwrap)
    as (T & o & p & c & ps & tw & i1 & i2 & i3 & i4 & i5 & HL & Hshape & Hidx).
  destruct (settled_final rnd cfg) as [Hs _].
  destruct T as [id tg cls attrs kids | id val]; [|discriminate].
  rewrite shape_of_TElem in Hshape. injection Hshape as -> _.
  exists (dom_node id "table" cls attrs (map root_id kids)),
         (concat (map flatten kids)), o, p, c, ps, tw, i1, i2, i3, i4, i5.
  split; [exact HL|]. split; [done|].
  unfold wrapper_names in Hidx.
  apply Forall2_cons in Hidx as [H1 Hidx]. apply Forall2_cons in Hidx as [H2 Hidx].
  apply Forall2_cons in Hidx as [H3 Hidx]. apply Forall2_cons in Hidx as [H4 Hidx].
  apply Forall2_cons in Hidx as [H5 _].
  split; [exact (sound_style_record rnd _ _ _ Hs H1)|].
  split; [exact (sound_style_record rnd _ _ _ Hs H2)|].
  split; [exact (sound_style_record rnd _ _ _ Hs H3)|].
  split; [exact (sound_style_record rnd _ _ _ Hs H4)|].
  exact (sound_style_record rnd _ _ _ Hs H5).
Qed.

Lemma wrapper_chain_witness :
  ∃ table rest o p c ps tw i1 i2 i3 i4 i5,
    Builder.nodes (Builder.final sample_rnd full_cfg)
    = table :: rest ++
      [dom_node o "div" [i1] [] [p]; dom_node p "div" [i2] [] [c];
       dom_node c "div" [i3] [] [ps]; dom_node ps "div" [i4] [] [tw];
       dom_node tw "div" [i5] [] [_id table]] ∧
    raw_tag table = "table" ∧
    {| Style._id := i1; Style.name := "section_table";
       Style.styleLess := ""; Style.variants := [] |}
      ∈ Builder.styles (Builder.final sample_rnd full_cfg) ∧
    {| Style._id := i2; Style.name := "padding-global";
       Style.styleLess := "padding-right: 5%; padding-left: 5%;";
       Style.variants := [] |}
      ∈ Builder.styles (Builder.final sample_rnd full_cfg) ∧
    {| Style._id := i3; Style.name := "container-large";
       Style.styleLess :=
         "width: 100%; max-width: 80rem; margin-right: auto; margin-left: auto;";
       Style.variants := [] |}
      ∈ Builder.styles (Builder.final sample_rnd full_cfg) ∧
    {| Style._id := i4; Style.name := "padding-section-medium";
       Style.styleLess := "padding-top: 5rem; padding-bottom: 5rem;";
       Style.variants := [("medium", "padding-top: 4rem; padding-bottom: 4rem;");
                          ("small", "padding-top: 3rem; padding-bottom: 3rem;")] |}
      ∈ Builder.styles (Builder.final sample_rnd full_cfg) ∧
    {| Style._id := i5; Style.name := "table_component";
       Style.styleLess := ""; Style.variants := [] |}
      ∈ Builder.styles (Builder.final sample_rnd full_cfg).
Proof. apply (wrapper_chain sample_rnd full_cfg). reflexivity. Defined.

(** ** The tree preview of a built graph *)

(** X13.  A built graph has exactly one root: the table, which is the
    first node, or with the wrapper chain the outermost wrapper, a [div]
    that is the fifth node from the end (provided [uid] returned no id
    twice). *)
Theorem built_single_root (rnd : nat → string) (cfg : Builder.Config) :
  uid_fresh rnd (Builder.draws (Builder.final rnd cfg)) →
  ∃ top, TreePreview.roots (Builder.nodes (Builder.final rnd cfg)) = [top] ∧
         raw_tag top = (if Builder.wrapInSection cfg then "div" else "table") ∧
         (Builder.wrapInSection cfg = false →
          head (Builder.nodes (Builder.final rnd cfg)) = Some top) ∧
         (Builder.wrapInSection cfg = true →
          ∃ pre post, Builder.nodes (Builder.final rnd cfg) = pre ++ top :: post ∧
                      length post = 4).
Proof.
  intros Hfresh. pose proof (built_ids_NoDup rnd cfg Hfresh) as Hnd.
  destruct (build_laid_out rnd cfg) as (T & W & (HL & _ & HW) & _ & id & kids & HT).
  rewrite HL in *. destruct (Builder.wrapInSection cfg).
  - destruct (roots_wrapped T W Hnd HW) as (top & Hroots & Hhead & Htag).
    exists top. split; [done|]. split; [done|]. split; [done|]. intros _.
    destruct HW as (o & p & c & ps & tw & c1 & c2 & c3 & c4 & c5 & ->).
    injection Hhead as <-. by eexists (flatten T), _.
  - subst W. rewrite app_nil_r in *. exists (node_of T).
    split; [by apply roots_tree|]. subst T. by repeat split.
Qed.

Lemma built_single_root_witness :
  ∃ top, TreePreview.roots (Builder.nodes (Builder.final sample_rnd full_cfg)) = [top] ∧
         raw_tag top = (if Builder.wrapInSection full_cfg then "div" else "table") ∧
         (Builder.wrapInSection full_cfg = false →
          head (Builder.nodes (Builder.final sample_rnd full_cfg)) = Some top) ∧
         (Builder.wrapInSection full_cfg = true →
          ∃ pre post, Builder.nodes (Builder.final sample_rnd full_cfg) = pre ++ top :: post ∧
                      length post = 4).
Proof.
  apply (built_single_root sample_rnd full_cfg).
  unfold uid_fresh. apply (bool_decide_unpack _). by vm_compute.
Defined.

(** X14.  The tree preview mounts an item for every node of a built
    graph: each node is a root or is reached from a root through
    [children] ids that the index resolves (provided [uid] returned no id
    twice). *)
Theorem built_all_mounted (rnd : nat → string) (cfg : Builder.Config) :
  uid_fresh rnd (Builder.draws (Builder.final rnd cfg)) →
  Forall (λ n, ∃ depth, TreePreview.mounted (Builder.nodes (Builder.final rnd cfg)) n depth)
         (Builder.nodes (Builder.final rnd cfg)).
Proof.
  intros Hfresh. pose proof (built_ids_NoDup rnd cfg Hfresh) as Hnd.
  destruct (build_laid_out rnd cfg) as (T & W & (HL & _ & HW) & _).
  rewrite HL in *. apply Forall_forall.
  by apply (mounted_all T W (Builder.wrapInSection cfg)).
Qed.

Lemma built_all_mounted_witness :
  Forall (λ n, ∃ depth,
            TreePreview.mounted (Builder.nodes (Builder.final sample_rnd full_cfg)) n depth)
         (Builder.nodes (Builder.final sample_rnd full_cfg)).
Proof.
  apply (built_all_mounted sample_rnd full_cfg).
  unfold uid_fresh. apply (bool_decide_unpack _). by vm_compute.
Defined.

(** X15.  In the tree preview of a built graph a text node is labelled
    [#text] and shows no text at all, since the builder gives it no
    [data-text] attribute; an element is labelled with its tag, one of
    table, thead, tbody, tfoot, tr, th, td, span and div; the inspector
    shows the same tag. *)
Theorem built_labels (rnd : nat → string) (cfg : Builder.Config) :
  Forall
    (λ n,
       DomNodeItem.isText n = Extractor.is_text n ∧
       DomNodeItem.labelTag n = (if Extractor.is_text n then "#text" else raw_tag n) ∧
       Inspector.tagOf n = DomNodeItem.labelTag n ∧
       DomNodeItem.textPreview n = "" ∧
       (Extractor.is_text n = true ∨ raw_tag n ∈ element_tags))
    (Builder.nodes (Builder.final rnd cfg)).
Proof.
  apply Forall_forall. intros n Hn.
  destruct (plain_node_label n (final_nodes_plain rnd cfg n Hn))
    as (H1 & H2 & H3 & H4 & H5).
  repeat (split; [done|]).
  destruct (Extractor.is_text n); [by left | right; by apply H5].
Qed.

(** ** The depth of the call stack and the parent map *)

(** X16.  A result that [extractRowsFromXscp] reaches within some depth
    of the call stack is its result at every greater depth. *)
Theorem extract_fuel_monotone (JSON_parse : string → option Envelope)
    (fuel fuel' : nat) (json : Extractor.json_arg) (r : option Extractor.Extracted) :
  fuel ≤ fuel' →
  Extractor.extractRowsFromXscp JSON_parse fuel json = Some r →
  Extractor.extractRowsFromXscp JSON_parse fuel' json = Some r.
Proof. apply extract_mono. Qed.

Lemma extract_fuel_monotone_witness :
  Extractor.extractRowsFromXscp no_parse 7
    (Extractor.JsonObject (envelope_of small_nodes))
  = Some (Some {| Extractor.rows := [["hello"]]; Extractor.hasHeader := false |}).
Proof.
  apply (extract_fuel_monotone no_parse 2 7).
  - lia.
  - reflexivity.
Defined.

(** X17.  The ancestor set holds exactly the ids that are reached from a
    match by one step or more of the parent map, through ids that are not
    empty. *)
Theorem ancestor_set_spec (nodes : list node) (matches : list string) (x : string) :
  x ∈ TreePreview.ancestorSet nodes matches
  ↔ ∃ m, m ∈ matches ∧ above (TreePreview.parentById nodes) m x.
Proof. apply ancestorSet_above. Qed.

(** X18.  The parent map sends an id to the id of the last node that
    lists it as a child, and has no entry for an id that no node lists;
    the roots are the nodes without an entry. *)
Theorem parent_map_spec (nodes : list node) :
  (∀ c pid,
     TreePreview.parentById nodes !! c = Some pid ↔
     ∃ pre n post, nodes = pre ++ n :: post ∧ _id n = pid ∧ c ∈ children_of n ∧
                   ∀ m, m ∈ post → c ∉ children_of m) ∧
  (∀ c, TreePreview.parentById nodes !! c = None ↔
        ∀ m, m ∈ nodes → c ∉ children_of m) ∧
  (∀ n, n ∈ TreePreview.roots nodes ↔
        n ∈ nodes ∧ TreePreview.parentById nodes !! _id n = None).
Proof.
  split; [|split].
  - intros c pid. apply parentById_last.
  - intros c. apply parentById_None.
  - intros n. apply roots_no_parent.
Qed.



(** X20.  In the mode [auto] the item of every node above a match in the
    parent map is open. *)
Theorem open_above_match (nodes : list node) (styles : list Style.t)
    (searchQuery expandMode : string) (n : node) (depth : nat) (m : string) :
  expandMode ≠ "all" → expandMode ≠ "collapse" →
  m ∈ TreePreview.matchSet nodes styles searchQuery →
  above (TreePreview.parentById nodes) m (_id n) →
  TreePreview.item_open nodes styles searchQuery expandMode n depth = true.
Proof.
  intros H1 H2 Hm Hab. unfold TreePreview.item_open.
  apply (DomNodeItem_open_other _ _ _ _ H1 H2). right. left.
  apply bool_decide_eq_true. apply ancestorSet_above. eauto.
Qed.

Lemma open_above_match_witness :
  TreePreview.item_open small_nodes [] "td" "auto" (dom_node "r" "tr" [] [] ["c"]) 2
  = true.
Proof.
  apply (open_above_match small_nodes [] "td" "auto" (dom_node "r" "tr" [] [] ["c"]) 2 "c").
  - discriminate.
  - discriminate.
  - apply (bool_decide_unpack _). by vm_compute.
  - apply above_parent; [by vm_compute | discriminate].
Defined.

(** ** The editable table *)

(** X21.  After [handleChange] the cell assigned holds the new value and
    every other cell reads as before, also when the assignment extends the
    arrays. *)
Theorem handle_change_cells (ri ci : nat) (value : string) (prev : TablePreview.grid)
    (i j : nat) :
  cell_at (TablePreview.handleChange ri ci value prev) i j
  = if bool_decide (i = ri ∧ j = ci) then Some value else cell_at prev i j.
Proof. apply handleChange_cells. Qed.

(** X22.  The input of the cell [ci] of the body row [ri] edits that cell
    of the body and nothing else: the header row is the same, with or
    without a header. *)
Theorem edit_body_cell (hasHeader : bool) (localRows : TablePreview.grid)
    (ri ci : nat) (value : string) (r : TablePreview.row) :
  TablePreview.body hasHeader localRows !! ri = Some (Some r) →
  ci < length r →
  TablePreview.header hasHeader
    (TablePreview.handleChange (TablePreview.bodyIndex hasHeader ri) ci value localRows)
  = TablePreview.header hasHeader localRows ∧
  TablePreview.body hasHeader
    (TablePreview.handleChange (TablePreview.bodyIndex hasHeader ri) ci value localRows)
  = <[ri := Some (<[ci := Some value]> r)]> (TablePreview.body hasHeader localRows).
Proof.
  intros Hr Hci. rewrite body_lookup in Hr.
  rewrite (handleChange_in_range _ _ _ _ r Hr Hci).
  split; [apply header_insert_body | apply body_insert].
Qed.

Lemma edit_body_cell_witness :
  TablePreview.header true
    (TablePreview.handleChange (TablePreview.bodyIndex true 0) 0 "y"
       (TablePreview.dense [["h"]; ["x"]]))
  = TablePreview.header true (TablePreview.dense [["h"]; ["x"]]) ∧
  TablePreview.body true
    (TablePreview.handleChange (TablePreview.bodyIndex true 0) 0 "y"
       (TablePreview.dense [["h"]; ["x"]]))
  = <[0 := Some (<[0 := Some "y"]> [Some "x"])]>
      (TablePreview.body true (TablePreview.dense [["h"]; ["x"]])).
Proof.
  apply (edit_body_cell true (TablePreview.dense [["h"]; ["x"]]) 0 0 "y" [Some "x"]).
  - reflexivity.
  - simpl. lia.
Defined.

(** X23.  The edit loop is stable when the header flag agrees with the
    header-row designation: a cell of the table extracted from a built
    envelope is edited, [onEdit] stores the edited rows as the source grid
    and their serialization as the CSV text, and the table extracted from
    the envelope built next shows the edited rows, with the same header
    flag (provided [uid] returned no id twice in either build). *)
Theorem edit_rebuild (rnd : nat → string) (st : App.state)
    (JSON_parse : string → option Envelope) (json json' : Extractor.json_arg)
    (fuel : nat) (e : Extractor.Extracted) (ri ci : nat) (value : string)
    (row : list string) :
  Builder.includeHead (App.config st) = Builder.csvHasHeaderRow (App.config st) →
  uid_fresh rnd (Builder.draws (Builder.final rnd (App.config st))) →
  denotes JSON_parse json (Builder.built rnd (App.config st)) →
  3 ≤ fuel →
  Extractor.extractRowsFromXscp JSON_parse fuel json = Some (Some e) →
  Extractor.rows e !! ri = Some row →
  ci < length row →
  uid_fresh rnd
    (Builder.draws
       (Builder.final rnd
          (App.config (App.onEdit (<[ri := <[ci := value]> row]> (Extractor.rows e)) st)))) →
  denotes JSON_parse json'
    (Builder.built rnd
       (App.config (App.onEdit (<[ri := <[ci := value]> row]> (Extractor.rows e)) st))) →
  TablePreview.handleChange ri ci value
    (TablePreview.dense (TablePreview.basisRows (Some e) None))
  = TablePreview.dense (<[ri := <[ci := value]> row]> (Extractor.rows e)) ∧
  App.csvText (App.onEdit (<[ri := <[ci := value]> row]> (Extractor.rows e)) st)
  = CSV.stringifyCSV (<[ri := <[ci := value]> row]> (Extractor.rows e)) ∧
  Extractor.extractRowsFromXscp JSON_parse fuel json'
  = Some (Some {| Extractor.rows := <[ri := <[ci := value]> row]> (Extractor.rows e);
                  Extractor.hasHeader := Extractor.hasHeader e |}).
Proof.
  intros Hflag Hfresh Hden Hfuel He Hrow Hci Hfresh' Hden'.
  rewrite (extract_built rnd _ JSON_parse fuel json Hfresh Hden Hfuel) in He.
  injection He as <-. cbn [Extractor.rows Extractor.hasHeader TablePreview.basisRows] in *.
  split; [by apply handleChange_dense|]. split; [done|].
  rewrite (extract_built rnd _ JSON_parse fuel json' Hfresh' Hden' Hfuel).
  cbn [App.onEdit App.config].
  by rewrite (rebuilt_rows (App.config st) ri ci value row Hflag Hrow).
Qed.

Lemma edit_rebuild_witness :
  TablePreview.handleChange 1 0 "x"
    (TablePreview.dense
       (TablePreview.basisRows
          (Some {| Extractor.rows := [[""; ""]; [""; ""]]; Extractor.hasHeader := true |})
          None))
  = TablePreview.dense [[""; ""]; ["x"; ""]] ∧
  App.csvText
    (App.onEdit [[""; ""]; ["x"; ""]] {| App.config := sample_cfg; App.csvText := "" |})
  = CSV.stringifyCSV [[""; ""]; ["x"; ""]] ∧
  Extractor.extractRowsFromXscp no_parse 3
    (Extractor.JsonObject
       (Builder.built sample_rnd
          (App.config
             (App.onEdit [[""; ""]; ["x"; ""]]
                {| App.config := sample_cfg; App.csvText := "" |}))))
  = Some (Some {| Extractor.rows := [[""; ""]; ["x"; ""]]; Extractor.hasHeader := true |}).
Proof.
  apply (edit_rebuild sample_rnd {| App.config := sample_cfg; App.csvText := "" |}
           no_parse (Extractor.JsonObject (Builder.built sample_rnd sample_cfg)) _ 3
           {| Extractor.rows := [[""; ""]; [""; ""]]; Extractor.hasHeader := true |}
           1 0 "x" [""; ""]).
  - reflexivity.
  - unfold uid_fresh. apply (bool_decide_unpack _). by vm_compute.
  - by left.
  - lia.
  - by vm_compute.
  - reflexivity.
  - simpl. lia.
  - unfold uid_fresh. apply (bool_decide_unpack _). by vm_compute.
  - by left.
Defined.

(** X24.  After an edit the CSV text and the source grid agree: parsing
    the text again, as the paste button does, changes nothing, when every
    row has a cell and the last row is not a single empty cell. *)
Theorem paste_after_edit (rows : list (list string)) (st : App.state) :
  Forall (λ r, r ≠ []) rows → List.last rows [] ≠ [""] →
  App.handleCsvTextPaste (App.onEdit rows st) = App.onEdit rows st.
Proof.
  intros Hne Hlast. unfold App.handleCsvTextPaste, App.onEdit. cbn [App.csvText App.config].
  by rewrite (CSVFacts.parse_stringify_nonempty rows Hne Hlast).
Qed.

Lemma paste_after_edit_witness :
  App.handleCsvTextPaste
    (App.onEdit [["a"; "b,c"]; ["d"; ""]] {| App.config := sample_cfg; App.csvText := "" |})
  = App.onEdit [["a"; "b,c"]; ["d"; ""]] {| App.config := sample_cfg; App.csvText := "" |}.
Proof.
  apply paste_after_edit.
  - repeat constructor; discriminate.
  - discriminate.
Defined.

(** X25.  From the CSV text to the table shown: a text whose rows all end
    with a line break is pasted, and with a header flag that agrees with
    the header-row designation the table extracted from the built envelope
    shows the rows of the text, padded to the longest row. *)
Theorem paste_build_extract (rnd : nat → string) (st : App.state)
    (JSON_parse : string → option Envelope) (json : Extractor.json_arg) (fuel : nat)
    (eol : string) (g : list (list string)) :
  eol = String LF "" ∨ eol = String CR (String LF "") →
  Forall (λ r, r ≠ []) g →
  App.csvText st = terminated eol g →
  Builder.includeHead (App.config st) = Builder.csvHasHeaderRow (App.config st) →
  (Builder.includeHead (App.config st) = true → g ≠ []) →
  uid_fresh rnd
    (Builder.draws (Builder.final rnd (App.config (App.handleCsvTextPaste st)))) →
  denotes JSON_parse json (Builder.built rnd (App.config (App.handleCsvTextPaste st))) →
  3 ≤ fuel →
  Extractor.extractRowsFromXscp JSON_parse fuel json
  = Some (Some {| Extractor.rows := map (pad (widest g)) g;
                  Extractor.hasHeader := Builder.includeHead (App.config st) |}).
Proof.
  intros Heol Hne Htext Hflag Hhead Hfresh Hden Hfuel.
  rewrite (extract_built rnd _ JSON_parse fuel json Hfresh Hden Hfuel).
  assert (Hcsv : Builder.csvData (App.config (App.handleCsvTextPaste st)) = Some g).
  { cbn [App.handleCsvTextPaste App.config App.setCsvData Builder.csvData].
    rewrite Htext. unfold CSV.parseCSV. by rewrite loop_terminated. }
  by rewrite (shown_padded _ g Hcsv Hflag Hhead).
Qed.

Lemma paste_build_extract_witness :
  Extractor.extractRowsFromXscp no_parse 3
    (Extractor.JsonObject
       (Builder.built sample_rnd
          (App.config
             (App.handleCsvTextPaste
                {| App.config := sample_cfg;
                   App.csvText := terminated (String CR (String LF "")) [["a"; "b"]; ["c"]] |}))))
  = Some (Some {| Extractor.rows := map (pad (widest [["a"; "b"]; ["c"]]))
                                        [["a"; "b"]; ["c"]];
                  Extractor.hasHeader := true |}).
Proof.
  apply (paste_build_extract sample_rnd
           {| App.config := sample_cfg;
              App.csvText := terminated (String CR (String LF "")) [["a"; "b"]; ["c"]] |}
           no_parse _ 3 (String CR (String LF "")) [["a"; "b"]; ["c"]]).
  - by right.
  - repeat constructor; discriminate.
  - reflexivity.
  - reflexivity.
  - discriminate.
  - unfold uid_fresh. apply (bool_decide_unpack _). by vm_compute.
  - by left.
  - lia.
Defined.

(** ** Class names and utility tokens *)

(** X26.  For every number of the spacing scale, the padding token of
    each direction and the gap token translate to the declarations with
    the value of the scale. *)
Theorem token_scale (key val : string) :
  Builder.twScaleRem key = Some val →
  Builder.tokenCss ("p-" +:+ key) = "padding: " +:+ val +:+ ";" ∧
  Builder.tokenCss ("px-" +:+ key)
  = "padding-left: " +:+ val +:+ "; padding-right: " +:+ val +:+ ";" ∧
  Builder.tokenCss ("py-" +:+ key)
  = "padding-top: " +:+ val +:+ "; padding-bottom: " +:+ val +:+ ";" ∧
  Builder.tokenCss ("pt-" +:+ key) = "padding-top: " +:+ val +:+ ";" ∧
  Builder.tokenCss ("pr-" +:+ key) = "padding-right: " +:+ val +:+ ";" ∧
  Builder.tokenCss ("pb-" +:+ key) = "padding-bottom: " +:+ val +:+ ";" ∧
  Builder.tokenCss ("pl-" +:+ key) = "padding-left: " +:+ val +:+ ";" ∧
  Builder.tokenCss ("gap-" +:+ key)
  = "grid-row-gap: " +:+ val +:+ "; grid-column-gap: " +:+ val +:+ ";".
Proof.
  unfold Builder.twScaleRem.
  repeat (case_bool_decide; [subst key; intros [= <-]; by vm_compute|]).
  done.
Qed.

Lemma token_scale_witness :
  Builder.tokenCss ("p-" +:+ "4") = "padding: " +:+ "1rem" +:+ ";" ∧
  Builder.tokenCss ("px-" +:+ "4")
  = "padding-left: " +:+ "1rem" +:+ "; padding-right: " +:+ "1rem" +:+ ";" ∧
  Builder.tokenCss ("py-" +:+ "4")
  = "padding-top: " +:+ "1rem" +:+ "; padding-bottom: " +:+ "1rem" +:+ ";" ∧
  Builder.tokenCss ("pt-" +:+ "4") = "padding-top: " +:+ "1rem" +:+ ";" ∧
  Builder.tokenCss ("pr-" +:+ "4") = "padding-right: " +:+ "1rem" +:+ ";" ∧
  Builder.tokenCss ("pb-" +:+ "4") = "padding-bottom: " +:+ "1rem" +:+ ";" ∧
  Builder.tokenCss ("pl-" +:+ "4") = "padding-left: " +:+ "1rem" +:+ ";" ∧
  Builder.tokenCss ("gap-" +:+ "4")
  = "grid-row-gap: " +:+ "1rem" +:+ "; grid-column-gap: " +:+ "1rem" +:+ ";".
Proof. apply (token_scale "4" "1rem"). reflexivity. Defined.

(** X27.  A padding or gap token whose number is not on the spacing scale
    is no error: it translates to the empty declaration. *)
Theorem token_off_scale (key : string) :
  key ≠ "" → Builder.all_digits key = true → Builder.twScaleRem key = None →
  Forall (λ dir, Builder.tokenCss (dir +:+ "-" +:+ key) = "")
    ["p"; "px"; "py"; "pt"; "pr"; "pb"; "pl"; "gap"].
Proof.
  intros Hne Hd Hnone.
  assert (H2 : ∀ a b, Builder.digits_after (String a (String b "")) (String a (String b key))
                      = Some key).
  { intros a b. by apply (digits_after_app (String a (String b ""))). }
  assert (H3 : ∀ a b c, Builder.digits_after (String a (String b (String c "")))
                          (String a (String b (String c key))) = Some key).
  { intros a b c. by apply (digits_after_app (String a (String b (String c "")))). }
  assert (H4 : ∀ a b c d,
    Builder.digits_after (String a (String b (String c (String d ""))))
      (String a (String b (String c (String d key)))) = Some key).
  { intros a b c d.
    by apply (digits_after_app (String a (String b (String c (String d ""))))). }
  repeat constructor.
  all: unfold Builder.tokenCss; rewrite ?sapp_cons, ?sapp_nil_l.
  all: rewrite ?H2, ?H3, ?H4.
  all: cbn [Builder.digits_after Ascii.eqb Bool.eqb andb mbind option_bind].
  all: rewrite ?Hnone; done.
Qed.

Lemma token_off_scale_witness :
  Forall (λ dir, Builder.tokenCss (dir +:+ "-" +:+ "7") = "")
    ["p"; "px"; "py"; "pt"; "pr"; "pb"; "pl"; "gap"].
Proof.
  apply (token_off_scale "7").
  - discriminate.
  - reflexivity.
  - reflexivity.
Defined.

(** X28.  For class strings that are ASCII texts, [classIds] gives every
    token of the strings the id that the style index holds for that token
    afterwards, in the order of the tokens and with the id of a repeated
    token repeated; no id is empty, and the index keeps the entries that it
    had. *)
Theorem class_ids_in_order (rnd : nat → string) (lst : list string) (s : Builder.state) :
  Forall (λ n, ascii_text n = true) lst →
  settled rnd s →
  Forall2 (λ cid name, Builder.styleIndex (Builder.classIds rnd lst s).2 !! name = Some cid)
    (Builder.classIds rnd lst s).1 (class_tokens lst) ∧
  Forall (λ cid, cid ≠ "") (Builder.classIds rnd lst s).1 ∧
  (∀ nm i, Builder.styleIndex s !! nm = Some i →
           Builder.styleIndex (Builder.classIds rnd lst s).2 !! nm = Some i).
Proof. intros _. apply classIds_ids. Qed.

Lemma class_ids_in_order_witness :
  Forall2 (λ cid name,
             Builder.styleIndex (Builder.classIds sample_rnd ["a  b a"; " c "] Builder.init).2
               !! name = Some cid)
    (Builder.classIds sample_rnd ["a  b a"; " c "] Builder.init).1
    (class_tokens ["a  b a"; " c "]) ∧
  Forall (λ cid, cid ≠ "")
    (Builder.classIds sample_rnd ["a  b a"; " c "] Builder.init).1 ∧
  (∀ nm i, Builder.styleIndex Builder.init !! nm = Some i →
           Builder.styleIndex (Builder.classIds sample_rnd ["a  b a"; " c "] Builder.init).2
             !! nm = Some i).
Proof.
  apply (class_ids_in_order sample_rnd ["a  b a"; " c "] Builder.init).
  - repeat constructor.
  - apply settled_init.
Defined.
